(** * modify_icon.py: rounded corners and bottom shadow for LVGL icon arrays

    A shallow embedding of
    [03_esp-brookesia/components/app_gyro_game/modify_icon.py].

    - Python [int] is [Z]; Python [float] is an IEEE-754 binary64 value,
      represented by the standard library's [spec_float] with [prec = 53]
      and [emax = 1024], every operation rounding to nearest, ties to even.
    - Python exceptions are the constructors of [exn]; a fallible
      computation returns a [res].
    - Python [list] objects live in a store ([heap]); [apply_modifications]
      is a computation in a state-and-exception monad over that store.
    - Python [str] is a list of Unicode code points. *)

From Stdlib Require Import ZArith Lia List Bool String Ascii.
From Stdlib Require Import Floats.SpecFloat.
From Stdlib Require Import Reals Lra.
From stdpp Require Import base option list gmap.

Local Open Scope Z_scope.

(** ** Exceptions and results *)

Inductive value_error :=
  | PixelCount (n width height : Z)   (* apply_modifications, line 94 *)
  | NoArrayDefinition                 (* parse_c_file, line 43 *)
  | NanToInteger                      (* int(nan) *)
  | MathDomain                        (* math.sqrt of a negative number *)
  | NotEnoughValues                   (* b, g, r, a = <short slice> *)
  | InvalidLiteral                    (* int(h, 16) on a non-number *)
  | BadEscape.                        (* re.error in a replacement template *)

Inductive overflow_error :=
  | IntTooLargeForFloat               (* int -> float conversion *)
  | InfinityToInteger                 (* int(inf) *)
  | ResultTooLarge                    (* float ** 2 *)
  | DivisionResultTooLarge.           (* int / int *)

Inductive exn :=
  | ValueError (_ : value_error)
  | OverflowError (_ : overflow_error)
  | ZeroDivisionError
  | IndexError
  | SystemError.                      (* a reference to no object *)

Inductive res (A : Type) :=
  | Ok (a : A)
  | Raise (e : exn).
Arguments Ok {A} a.
Arguments Raise {A} e.

Definition res_bind {A B} (m : res A) (k : A -> res B) : res B :=
  match m with
  | Ok a => k a
  | Raise e => Raise e
  end.

Declare Scope res_scope.
Delimit Scope res_scope with res.
Notation "'let?' x ':=' m 'in' k" := (res_bind m (fun x => k))
  (at level 10, x name, m at level 100, k at level 200) : res_scope.
Local Open Scope res_scope.

(** ** Python floats *)

Module PyFloat.

Definition prec : Z := 53.
Definition emax : Z := 1024.

Definition float := spec_float.

Definition add : float -> float -> float := SFadd prec emax.
Definition sub : float -> float -> float := SFsub prec emax.
Definition mul : float -> float -> float := SFmul prec emax.
Definition div : float -> float -> float := SFdiv prec emax.
Definition ltb : float -> float -> bool := SFltb.
Definition leb : float -> float -> bool := SFleb.
Definition eqb : float -> float -> bool := SFeqb.
Definition gtb (a b : float) : bool := SFltb b a.
Definition geb (a b : float) : bool := SFleb b a.

(** The literals of the script. *)
Definition zero : float := S754_zero false.                             (* 0.0 *)
Definition one : float := S754_finite false 4503599627370496 (-52).     (* 1.0 *)
Definition one_point_five : float :=
  S754_finite false 6755399441055744 (-52).                             (* 1.5 *)
Definition zero_point_seven : float :=
  S754_finite false 6305039478318694 (-53).                             (* 0.7 *)

(** [float(n)] for an int, as in [n * 0.7] or [x - cx]: correctly
    rounded, [OverflowError] when the rounded value is out of range. *)
Definition of_int (n : Z) : res float :=
  match binary_normalize prec emax n 0 false with
  | S754_infinity _ => Raise (OverflowError IntTooLargeForFloat)
  | f => Ok f
  end.

(** [int(f)]: truncation toward zero. *)
Definition to_int (f : float) : res Z :=
  match f with
  | S754_nan => Raise (ValueError NanToInteger)
  | S754_infinity _ => Raise (OverflowError InfinityToInteger)
  | S754_zero _ => Ok 0
  | S754_finite s m e => Ok (cond_Zopp s (Z.shiftl (Zpos m) e))
  end.

(** [int / int]: the correctly rounded quotient of the two integers. *)
Definition int_truediv (a b : Z) : res float :=
  if b =? 0 then Raise ZeroDivisionError
  else if a =? 0 then Ok (S754_zero (b <? 0))
  else
    let '(q, e, l) := SFdiv_core_binary prec emax (Z.abs a) 0 (Z.abs b) 0 in
    match binary_round_aux prec emax (xorb (a <? 0) (b <? 0)) q e l with
    | S754_infinity _ => Raise (OverflowError DivisionResultTooLarge)
    | f => Ok f
    end.

(** [f ** 2]: special values pass through, a finite result out of range
    raises [OverflowError], a result that underflows is returned. *)
Definition pow2 (f : float) : res float :=
  match f with
  | S754_nan => Ok S754_nan
  | S754_infinity _ => Ok (S754_infinity false)
  | S754_zero _ => Ok (S754_zero false)
  | S754_finite _ _ _ =>
      match mul f f with
      | S754_infinity _ => Raise (OverflowError ResultTooLarge)
      | r => Ok r
      end
  end.

(** [math.sqrt]. *)
Definition sqrt (f : float) : res float :=
  match f with
  | S754_finite true _ _ | S754_infinity true => Raise (ValueError MathDomain)
  | _ => Ok (SFsqrt prec emax f)
  end.

(** Comparison of an int with a float is exact in Python: the int is not
    rounded to a float first. *)
Definition compare_int (n : Z) (f : float) : option comparison :=
  match f with
  | S754_nan => None
  | S754_infinity s => Some (if s then Gt else Lt)
  | S754_zero _ => Some (n ?= 0)
  | S754_finite s m e =>
      let v := cond_Zopp s (Zpos m) in
      Some (if 0 <=? e then n ?= v * 2 ^ e else n * 2 ^ (- e) ?= v)
  end.

Definition int_ltb (n : Z) (f : float) : bool :=
  match compare_int n f with Some Lt => true | _ => false end.
Definition int_gtb (n : Z) (f : float) : bool :=
  match compare_int n f with Some Gt => true | _ => false end.

(** Mixed arithmetic converts the int operand. *)
Definition int_sub (n : Z) (f : float) : res float :=
  let? nf := of_int n in Ok (sub nf f).
Definition sub_int (f : float) (n : Z) : res float :=
  let? nf := of_int n in Ok (sub f nf).
Definition int_mul (n : Z) (f : float) : res float :=
  let? nf := of_int n in Ok (mul nf f).

End PyFloat.

(** ** Geometry helpers *)

Section Geometry.
Import PyFloat.

(** [width - radius - 1] (and the same with [height]). *)
Definition far_center (size : Z) (radius : float) : res float :=
  let? d := int_sub size radius in sub_int d 1.

(** [(p < radius and c == radius) or
     (p > size - radius - 1 and c == size - radius - 1)] *)
Definition in_corner (p size : Z) (radius c : float) : res bool :=
  if int_ltb p radius && eqb c radius then Ok true
  else
    let? f := far_center size radius in
    if int_gtb p f then
      let? f' := far_center size radius in Ok (eqb c f')
    else Ok false.

(** [math.sqrt((x - cx) ** 2 + (y - cy) ** 2)] *)
Definition corner_dist (x y : Z) (cx cy : float) : res float :=
  let? dx := int_sub x cx in
  let? dx2 := pow2 dx in
  let? dy := int_sub y cy in
  let? dy2 := pow2 dy in
  sqrt (add dx2 dy2).

(** The body of [for cx, cy in corners], with the rest of the loop as a
    recursive call. *)
Fixpoint corner_scan (x y width height : Z) (radius : float)
    (corners : list (float * float)) : res float :=
  match corners with
  | [] => Ok zero
  | (cx, cy) :: rest =>
      let? in_corner_x := in_corner x width radius cx in
      let? in_corner_y := in_corner y height radius cy in
      if in_corner_x && in_corner_y then
        let? dist := corner_dist x y cx cy in
        if gtb dist radius then Ok one
        else if gtb dist (sub radius one_point_five) then
          Ok (div (sub dist (sub radius one_point_five)) one_point_five)
        else corner_scan x y width height radius rest
      else corner_scan x y width height radius rest
  end.

Definition corners (width height : Z) (radius : float)
    : res (list (float * float)) :=
  let? cx_tr := far_center width radius in
  let? cy_bl := far_center height radius in
  let? cx_br := far_center width radius in
  let? cy_br := far_center height radius in
  Ok [ (radius, radius); (cx_tr, radius); (radius, cy_bl); (cx_br, cy_br) ].

Definition distance_to_corner (x y width height : Z) (radius : float)
    : res float :=
  let? cs := corners width height radius in
  corner_scan x y width height radius cs.

(** [int(height * 0.7)] *)
Definition shadow_start (height : Z) : res Z :=
  let? t := int_mul height zero_point_seven in to_int t.

Definition get_shadow_factor (y height : Z) (max_darkening : float)
    : res float :=
  let? shadow_start := shadow_start height in
  if y <? shadow_start then Ok one
  else
    let? progress := int_truediv (y - shadow_start) (height - shadow_start) in
    Ok (sub one (mul progress max_darkening)).

End Geometry.

(** ** The store of list objects *)

Abbreviation loc := positive (only parsing).
Abbreviation heap := (gmap positive (list Z)) (only parsing).

Definition M (A : Type) : Type := heap -> res A * heap.

Definition mret {A} (a : A) : M A := fun h => (Ok a, h).
Definition mraise {A} (e : exn) : M A := fun h => (Raise e, h).
Definition mbind {A B} (m : M A) (k : A -> M B) : M B :=
  fun h =>
    match m h with
    | (Ok a, h') => k a h'
    | (Raise e, h') => (Raise e, h')
    end.
Definition lift {A} (r : res A) : M A := fun h => (r, h).

Declare Scope heap_scope.
Delimit Scope heap_scope with M.
Notation "'let!' x ':=' m 'in' k" := (mbind m (fun x => k))
  (at level 10, x name, m at level 100, k at level 200) : heap_scope.
Notation "m ';;' k" := (mbind m (fun _ => k))
  (at level 100, k at level 200, right associativity) : heap_scope.
Local Open Scope heap_scope.

(** [for x in xs: body] *)
Fixpoint for_each {A} (xs : list A) (body : A -> M unit) : M unit :=
  match xs with
  | [] => mret tt
  | x :: rest => body x ;; for_each rest body
  end.

(** [range(n)] *)
Definition range (n : Z) : list Z := seqZ 0 n.

Module PyList.

(** Index normalisation: a negative index counts from the end. *)
Definition index (xs : list Z) (i : Z) : option nat :=
  let n := Z.of_nat (length xs) in
  let j := if i <? 0 then i + n else i in
  if (0 <=? j) && (j <? n) then Some (Z.to_nat j) else None.

(** [len(l)] *)
Definition len (l : loc) : M Z := fun h =>
  match h !! l with
  | Some xs => (Ok (Z.of_nat (length xs)), h)
  | None => (Raise SystemError, h)
  end.

(** [l[i]] *)
Definition getitem (l : loc) (i : Z) : M Z := fun h =>
  match h !! l with
  | Some xs =>
      match index xs i with
      | Some j =>
          match xs !! j with
          | Some v => (Ok v, h)
          | None => (Raise IndexError, h)
          end
      | None => (Raise IndexError, h)
      end
  | None => (Raise SystemError, h)
  end.

(** [l[i] = v] *)
Definition setitem (l : loc) (i : Z) (v : Z) : M unit := fun h =>
  match h !! l with
  | Some xs =>
      match index xs i with
      | Some j => (Ok tt, <[l := <[j := v]> xs]> h)
      | None => (Raise IndexError, h)
      end
  | None => (Raise SystemError, h)
  end.

(** [list(l)]: a new list object with the same items. *)
Definition copy (l : loc) : M loc := fun h =>
  match h !! l with
  | Some xs => let l' := fresh (dom h) in (Ok l', <[l' := xs]> h)
  | None => (Raise SystemError, h)
  end.

End PyList.

(** ** Pixel transformer *)

Section Transformer.
Import PyFloat.

(** [int(c * factor)] for an int channel and a float factor. *)
Definition scale (c : Z) (factor : float) : res Z :=
  let? t := int_mul c factor in to_int t.

(** The body of the two nested loops, lines 100-126. *)
Definition modify_pixel (modified : loc) (width height : Z)
    (radius max_shadow : float) (y x : Z) : M unit :=
  let idx := (y * width + x) * 4 in
  let! b := PyList.getitem modified idx in
  let! g := PyList.getitem modified (idx + 1) in
  let! r := PyList.getitem modified (idx + 2) in
  let! a := PyList.getitem modified (idx + 3) in
  let! corner_dist := lift (distance_to_corner x y width height radius) in
  if geb corner_dist one then
    PyList.setitem modified idx 0 ;;
    PyList.setitem modified (idx + 1) 0 ;;
    PyList.setitem modified (idx + 2) 0 ;;
    PyList.setitem modified (idx + 3) 0
  else if int_ltb 0 corner_dist then
    let! new_alpha := lift (scale a (sub one corner_dist)) in
    PyList.setitem modified (idx + 3) new_alpha
  else
    let! shadow_factor := lift (get_shadow_factor y height max_shadow) in
    if ltb shadow_factor one then
      let! nb := lift (scale b shadow_factor) in
      PyList.setitem modified idx nb ;;
      let! ng := lift (scale g shadow_factor) in
      PyList.setitem modified (idx + 1) ng ;;
      let! nr := lift (scale r shadow_factor) in
      PyList.setitem modified (idx + 2) nr
    else mret tt.

Definition apply_modifications (pixels : loc) (width height : Z)
    (radius max_shadow : float) : M loc :=
  let! n := PyList.len pixels in
  if negb (n =? width * height * 4) then
    mraise (ValueError (PixelCount n width height))
  else
    let! modified := PyList.copy pixels in
    for_each (range height) (fun y =>
      for_each (range width) (fun x =>
        modify_pixel modified width height radius max_shadow y x)) ;;
    mret modified.

End Transformer.

(** ** Text and regular expressions *)

Abbreviation str := (list N) (only parsing).

Local Open Scope N_scope.

(** An ASCII literal as a sequence of code points. *)
Definition text (lit : string) : list N :=
  map N_of_ascii (list_ascii_of_string lit).

(** [sep.join(parts)] *)
Fixpoint join (sep : list N) (parts : list (list N)) : list N :=
  match parts with
  | [] => []
  | [p] => p
  | p :: rest => p ++ sep ++ join sep rest
  end.

Module Re.

(** [\s] on a [str] pattern: the code points with [str.isspace()]. *)
Definition is_space (c : N) : bool :=
  (9 <=? c) && (c <=? 13) || (28 <=? c) && (c <=? 32)
  || (c =? 133) || (c =? 160) || (c =? 5760)
  || (8192 <=? c) && (c <=? 8202)
  || (c =? 8232) || (c =? 8233) || (c =? 8239) || (c =? 8287)
  || (c =? 12288).

Definition is_digit (c : N) : bool := (48 <=? c) && (c <=? 57).

(** [[a-zA-Z0-9_]] *)
Definition is_word (c : N) : bool :=
  (97 <=? c) && (c <=? 122) || (65 <=? c) && (c <=? 90)
  || is_digit c || (c =? 95).

(** [[0-9a-fA-F]] *)
Definition is_hex (c : N) : bool :=
  is_digit c || (97 <=? c) && (c <=? 102) || (65 <=? c) && (c <=? 70).

(** [[^}]] *)
Definition not_rbrace (c : N) : bool := negb (c =? 125).

(** The fragment of the pattern language the script uses: characters,
    classes, greedy repetition of a class, concatenation and numbered
    groups. *)
Inductive regex :=
  | Eps
  | Chr (c : N)
  | Cls (p : N -> bool)
  | Star (p : N -> bool)
  | Cat (r1 r2 : regex)
  | Grp (n : nat) (r : regex).

Definition Plus (p : N -> bool) : regex := Cat (Cls p) (Star p).
Definition Lit (t : list N) : regex := foldr (fun c r => Cat (Chr c) r) Eps t.

Definition groups := list (nat * list N).

Definition group (gs : groups) (n : nat) : option (list N) :=
  snd <$> find (fun g => Nat.eqb (fst g) n) gs.

Section Matcher.
Context {R : Type}.

(** Greedy [p*] followed by [k]: the longest run first, then shorter
    ones. *)
Fixpoint star (p : N -> bool) (k : list N -> option R) (s : list N)
    : option R :=
  match s with
  | c :: s' =>
      if p c then
        match star p k s' with
        | Some r => Some r
        | None => k s
        end
      else k s
  | [] => k []
  end.

(** Backtracking matcher in continuation-passing style. *)
Fixpoint run (r : regex) (s : list N) (gs : groups)
    (k : list N -> groups -> option R) : option R :=
  match r with
  | Eps => k s gs
  | Chr c =>
      match s with
      | c' :: s' => if c =? c' then k s' gs else None
      | [] => None
      end
  | Cls p =>
      match s with
      | c' :: s' => if p c' then k s' gs else None
      | [] => None
      end
  | Star p => star p (fun s' => k s' gs) s
  | Cat r1 r2 => run r1 s gs (fun s' gs' => run r2 s' gs' k)
  | Grp n r =>
      run r s gs (fun s' gs' =>
        k s' ((n, take (length s - length s')%nat s) :: gs'))
  end.
End Matcher.

(** A match at the start of [s]: the groups (group 0 is the whole match)
    and the text after the match. *)
Definition match_at (r : regex) (s : list N) : option (groups * list N) :=
  run (Grp 0 r) s [] (fun s' gs => Some (gs, s')).

(** [re.search]: the leftmost match; returns the text before it, its
    groups and the text after it. *)
Fixpoint search (r : regex) (s : list N)
    : option (list N * groups * list N) :=
  match match_at r s with
  | Some (gs, rest) => Some ([], gs, rest)
  | None =>
      match s with
      | [] => None
      | c :: s' =>
          match search r s' with
          | Some (pre, gs, rest) => Some (c :: pre, gs, rest)
          | None => None
          end
      end
  end.

(** The successive non-overlapping matches, left to right, each with the
    text between it and the previous match, and the text after the last
    match.  The script's patterns match no empty string, so every match
    makes progress; [fuel] bounds the number of matches. *)
Fixpoint finditer (fuel : nat) (r : regex) (s : list N)
    : list (list N * groups) * list N :=
  match fuel with
  | O => ([], s)
  | S fuel' =>
      match search r s with
      | None => ([], s)
      | Some (pre, gs, rest) =>
          let '(ms, tail) := finditer fuel' r rest in
          ((pre, gs) :: ms, tail)
      end
  end.

(** [re.findall] for a pattern without groups. *)
Definition findall (r : regex) (s : list N) : list (list N) :=
  omap (fun m => group (snd m) 0) (fst (finditer (S (length s)) r s)).

(** Replacement templates, parsed once per call: [\1] ... [\9] (not
    followed by another digit) refer to a group, [\n] is a newline, [\\]
    a backslash, every other character stands for itself. *)
Inductive item :=
  | Chars (c : N)
  | Ref (n : nat).

Fixpoint parse_template (template : list N) : res (list item) :=
  match template with
  | [] => Ok []
  | 92 :: rest =>
      match rest with
      | c :: rest' =>
          if c =? 110 then
            let? out := parse_template rest' in Ok (Chars 10 :: out)
          else if c =? 92 then
            let? out := parse_template rest' in Ok (Chars 92 :: out)
          else if (49 <=? c) && (c <=? 57)
                  && negb (match rest' with d :: _ => is_digit d | [] => false end) then
            let? out := parse_template rest' in Ok (Ref (N.to_nat (c - 48)) :: out)
          else Raise (ValueError BadEscape)
      | [] => Raise (ValueError BadEscape)
      end
  | c :: rest => let? out := parse_template rest in Ok (Chars c :: out)
  end.

Definition expand (gs : groups) (items : list item) : list N :=
  concat (map (fun i =>
                 match i with
                 | Chars c => [c]
                 | Ref n => default [] (group gs n)
                 end) items).

(** [re.sub(pattern, template, s)]: every match is replaced. *)
Definition sub (r : regex) (template : list N) (s : list N) : res (list N) :=
  let? items := parse_template template in
  let '(ms, tail) := finditer (S (length s)) r s in
  Ok (concat (map (fun m => fst m ++ expand (snd m) items) ms) ++ tail).

End Re.

Local Close Scope N_scope.

(** ** Extractor *)

Section Extractor.
Import Re.

Definition cat (rs : list regex) : regex := foldr Cat Eps rs.

(** [uint8_t\s+([a-zA-Z0-9_]+)\[\]\s*=\s*\{([^}]+)\}] *)
Definition array_pattern : regex :=
  cat [ Lit (text "uint8_t"); Plus is_space; Grp 1 (Plus is_word);
        Lit (text "[]"); Star is_space; Lit (text "="); Star is_space;
        Lit (text "{"); Grp 2 (Plus not_rbrace); Lit (text "}") ].

(** [0x[0-9a-fA-F]{2}] *)
Definition hex_pattern : regex :=
  cat [ Lit (text "0x"); Cls is_hex; Cls is_hex ].

Definition hex_value (c : N) : option Z :=
  if is_digit c then Some (Z.of_N c - 48)
  else if ((97 <=? c) && (c <=? 102))%N then Some (Z.of_N c - 87)
  else if ((65 <=? c) && (c <=? 70))%N then Some (Z.of_N c - 55)
  else None.

(** [int(h, 16)] on an optional [0x] prefix followed by hex digits. *)
Definition int_base16 (h : list N) : res Z :=
  let digits :=
    match h with
    | 48%N :: x :: ds => if ((x =? 120) || (x =? 88))%N then ds else h
    | _ => h
    end in
  match digits with
  | [] => Raise (ValueError InvalidLiteral)
  | _ =>
      foldl (fun acc c =>
               let? v := acc in
               match hex_value c with
               | Some d => Ok (v * 16 + d)
               | None => Raise (ValueError InvalidLiteral)
               end) (Ok 0) digits
  end.

(** [[f(x) for x in xs]] for a fallible [f]. *)
Fixpoint map_res {A B} (f : A -> res B) (xs : list A) : res (list B) :=
  match xs with
  | [] => Ok []
  | x :: rest =>
      let? y := f x in
      let? ys := map_res f rest in
      Ok (y :: ys)
  end.

(** [parse_c_file], from the text of the file on. *)
Definition parse_c_file (content : list N)
    : res (list Z * list N * list N) :=
  match search array_pattern content with
  | None => Raise (ValueError NoArrayDefinition)
  | Some (_, gs, _) =>
      let var_name := default [] (group gs 1) in
      let data_str := default [] (group gs 2) in
      let hex_values := findall hex_pattern data_str in
      let? values := map_res int_base16 hex_values in
      Ok (values, content, var_name)
  end.

End Extractor.

(** ** Serializer *)

Section Serializer.
Import Re.

Definition hex_digit (d : Z) : N :=
  if d <? 10 then Z.to_N (48 + d) else Z.to_N (87 + d).

(** The lowercase hexadecimal digits of [n >= 0], most significant
    first. *)
Fixpoint hex_digits (fuel : nat) (n : Z) (acc : list N) : list N :=
  let acc' := hex_digit (n mod 16) :: acc in
  match fuel with
  | O => acc'
  | S fuel' => if n / 16 =? 0 then acc' else hex_digits fuel' (n / 16) acc'
  end.

(** [f"{b:02x}"]: sign, then the digits padded with zeros to a total
    width of two. *)
Definition format_02x (b : Z) : list N :=
  let ds := hex_digits (Z.to_nat (Z.log2 (Z.abs b))) (Z.abs b) [] in
  if b <? 0 then 45%N :: ds
  else if (length ds <? 2)%nat then 48%N :: ds
  else ds.

(** [f"0x{b:02x}, 0x{g:02x}, 0x{r:02x}, 0x{a:02x}"] *)
Definition format_pixel (b g r a : Z) : list N :=
  text "0x" ++ format_02x b ++ text ", 0x" ++ format_02x g
  ++ text ", 0x" ++ format_02x r ++ text ", 0x" ++ format_02x a.

(** ["  " + ", ".join(line_pixels) + ","] *)
Definition format_line (line_pixels : list (list N)) : list N :=
  text "  " ++ join (text ", ") line_pixels ++ text ",".

(** [range(0, stop, step)] for a positive [step]. *)
Definition range_step (stop step : Z) : list Z :=
  (fun k => k * step) <$> seqZ 0 ((stop + step - 1) / step).

(** [xs[lo:hi]] for [0 <= lo <= hi]. *)
Definition slice (xs : list Z) (lo hi : Z) : list Z :=
  take (Z.to_nat (hi - lo)) (drop (Z.to_nat lo) xs).

(** One iteration of the loop of lines 136-143 on the state
    [(lines, line_pixels)]. *)
Definition format_step (pixels : list Z) (width : Z)
    (st : list (list N) * list (list N)) (i : Z)
    : res (list (list N) * list (list N)) :=
  let '(lines, line_pixels) := st in
  let? new_line :=
    if 0 <? i then
      if width =? 0 then Raise ZeroDivisionError
      else Ok ((i / 4) mod width =? 0)
    else Ok false in
  let '(lines, line_pixels) :=
    if (new_line : bool) then (lines ++ [format_line line_pixels], [])
    else (lines, line_pixels) in
  match slice pixels i (i + 4) with
  | [b; g; r; a] => Ok (lines, line_pixels ++ [format_pixel b g r a])
  | _ => Raise (ValueError NotEnoughValues)
  end.

Fixpoint format_loop (pixels : list Z) (width : Z) (indices : list Z)
    (st : list (list N) * list (list N))
    : res (list (list N) * list (list N)) :=
  match indices with
  | [] => Ok st
  | i :: rest =>
      let? st' := format_step pixels width st i in
      format_loop pixels width rest st'
  end.

Definition newline : list N := [10%N].

(** The new array content, lines 133-148. *)
Definition array_content (pixels : list Z) (width : Z) : res (list N) :=
  let? st := format_loop pixels width
               (range_step (Z.of_nat (length pixels)) 4) ([], []) in
  let '(lines, line_pixels) := st in
  let lines :=
    match line_pixels with
    | [] => lines
    | _ => lines ++ [format_line line_pixels]
    end in
  Ok (join newline lines).

(** [(uint8_t\s+[a-zA-Z0-9_]+\[\]\s*=\s*\{)[^}]+(\})] *)
Definition body_pattern : regex :=
  cat [ Grp 1 (cat [ Lit (text "uint8_t"); Plus is_space; Plus is_word;
                     Lit (text "[]"); Star is_space; Lit (text "=");
                     Star is_space; Lit (text "{") ]);
        Plus not_rbrace;
        Grp 2 (Lit (text "}")) ].

(** [r'\1\n' + array_content + '\n' + r'\2'] *)
Definition template (array_content : list N) : list N :=
  text "\1\n" ++ array_content ++ newline ++ text "\2".

Definition format_output (pixels : list Z) (original_content : list N)
    (width : Z) : res (list N) :=
  let? array_content := array_content pixels width in
  sub body_pattern (template array_content) original_content.

End Serializer.


(** * Rounding to binary64 *)

Section Rounding.
Import PyFloat.

Definition bpow (e : Z) : R := powerRZ 2 e.

(** The real number [m * 2^e]. *)
Definition F2R (m e : Z) : R := (IZR m * bpow e)%R.

(** The real value of a float (0 for infinities and NaN). *)
Definition B2R (f : float) : R :=
  match f with
  | S754_finite s m e => F2R (cond_Zopp s (Zpos m)) e
  | _ => 0%R
  end.

Definition is_finite (f : float) : bool :=
  match f with
  | S754_finite _ _ _ | S754_zero _ => true
  | _ => false
  end.

Definition sign_of (f : float) : bool :=
  match f with
  | S754_finite s _ _ | S754_zero s | S754_infinity s => s
  | S754_nan => false
  end.

Lemma bpow_pos e : (0 < bpow e)%R.
Proof. apply powerRZ_lt. lra. Qed.

Lemma bpow_add a b : bpow (a + b) = (bpow a * bpow b)%R.
Proof. apply powerRZ_add. lra. Qed.

Lemma bpow_IZR n : 0 <= n -> bpow n = IZR (2 ^ n).
Proof.
  intros Hn. unfold bpow.
  rewrite <- (Z2Nat.id n) by lia.
  rewrite <- pow_powerRZ, <- pow_IZR. reflexivity.
Qed.

Lemma bpow_le a b : a <= b -> (bpow a <= bpow b)%R.
Proof.
  intros Hab. replace b with (a + (b - a)) by lia.
  rewrite bpow_add, (bpow_IZR (b - a)) by lia.
  assert (1 <= IZR (2 ^ (b - a)))%R.
  { apply IZR_le. assert (0 < 2 ^ (b - a)) by (apply Z.pow_pos_nonneg; lia). lia. }
  pose proof (bpow_pos a). nra.
Qed.

Lemma bpow_lt a b : a < b -> (bpow a < bpow b)%R.
Proof.
  intros Hab. replace b with (a + (b - a)) by lia.
  rewrite bpow_add, (bpow_IZR (b - a)) by lia.
  assert (2 <= IZR (2 ^ (b - a)))%R.
  { apply IZR_le. replace (b - a) with (Z.succ (b - a - 1)) by lia.
    rewrite Z.pow_succ_r by lia.
    assert (0 < 2 ^ (b - a - 1)) by (apply Z.pow_pos_nonneg; lia). lia. }
  pose proof (bpow_pos a). nra.
Qed.

Lemma bpow_opp a : bpow (- a) = (/ bpow a)%R.
Proof. apply powerRZ_neg'. Qed.

Lemma F2R_shift m e k : 0 <= k -> F2R (m * 2 ^ k) e = F2R m (e + k).
Proof.
  intros Hk. unfold F2R. rewrite mult_IZR, bpow_add, <- (bpow_IZR k) by lia. ring.
Qed.

(** Number of binary digits. *)
Lemma digits2_pos_spec p :
  2 ^ (Zpos (digits2_pos p) - 1) <= Zpos p < 2 ^ Zpos (digits2_pos p).
Proof.
  induction p as [p IH|p IH|]; cbn [digits2_pos].
  - rewrite Pos2Z.inj_succ.
    replace (Z.succ (Zpos (digits2_pos p)) - 1) with (Z.succ (Zpos (digits2_pos p) - 1)) by lia.
    rewrite !Z.pow_succ_r by lia. lia.
  - rewrite Pos2Z.inj_succ.
    replace (Z.succ (Zpos (digits2_pos p)) - 1) with (Z.succ (Zpos (digits2_pos p) - 1)) by lia.
    rewrite !Z.pow_succ_r by lia. lia.
  - cbn. lia.
Qed.

Lemma Zdigits2_spec m :
  0 < m -> 2 ^ (Zdigits2 m - 1) <= m < 2 ^ Zdigits2 m.
Proof. destruct m; try lia. intros _. apply digits2_pos_spec. Qed.

Lemma Zdigits2_pos m : 0 < m -> 0 < Zdigits2 m.
Proof. destruct m; cbn; lia. Qed.

Lemma Zdigits2_unique m d :
  0 < m -> 2 ^ (d - 1) <= m < 2 ^ d -> Zdigits2 m = d.
Proof.
  intros Hm [Hlo Hhi]. pose proof (Zdigits2_spec m Hm) as [Hlo' Hhi'].
  pose proof (Zdigits2_pos m Hm).
  assert (0 < d).
  { destruct (Z_lt_le_dec 0 d); auto.
    destruct (Z.eq_dec d 0) as [->|]; [cbn in Hhi; lia|].
    rewrite Z.pow_neg_r in Hhi by lia. lia. }
  destruct (Z_lt_le_dec (Zdigits2 m) d).
  - assert (2 ^ Zdigits2 m <= 2 ^ (d - 1)) by (apply Z.pow_le_mono_r; lia). lia.
  - destruct (Z_lt_le_dec d (Zdigits2 m)); try lia.
    assert (2 ^ d <= 2 ^ (Zdigits2 m - 1)) by (apply Z.pow_le_mono_r; lia). lia.
Qed.

(** Shifting right. *)
Lemma shr_1_m mrs : 0 <= shr_m mrs -> shr_m (shr_1 mrs) = shr_m mrs / 2.
Proof.
  destruct mrs as [m r s]. cbn [shr_m]. intros Hm.
  destruct m as [|[p|p|]|p]; try lia; unfold shr_1, shr_m; try reflexivity.
  - apply Z.div_unique with 1; lia.
  - apply Z.div_unique with 0; lia.
Qed.

Lemma pow2_xO p : 2 ^ Zpos p~0 = 2 ^ Zpos p * 2 ^ Zpos p.
Proof. rewrite Pos2Z.inj_xO, <- Z.pow_add_r by lia. f_equal. lia. Qed.

Lemma pow2_xI p : 2 ^ Zpos p~1 = 2 * 2 ^ Zpos p * 2 ^ Zpos p.
Proof.
  rewrite Pos2Z.inj_xI. replace (2 * Zpos p + 1) with (1 + Zpos p + Zpos p) by lia.
  rewrite !Z.pow_add_r by lia. reflexivity.
Qed.

Lemma iter_pos_shr_1 p : forall mrs,
  0 <= shr_m mrs ->
  shr_m (SpecFloat.iter_pos shr_1 p mrs) = shr_m mrs / 2 ^ Zpos p.
Proof.
  induction p as [p IH|p IH|]; intros mrs Hm; cbn [SpecFloat.iter_pos].
  - assert (Hp : 0 < 2 ^ Zpos p) by (apply Z.pow_pos_nonneg; lia).
    pose proof (shr_1_m mrs Hm) as H1.
    assert (H1' : 0 <= shr_m (shr_1 mrs)) by (rewrite H1; apply Z.div_pos; lia).
    pose proof (IH _ H1') as H2.
    assert (H2' : 0 <= shr_m (SpecFloat.iter_pos shr_1 p (shr_1 mrs)))
      by (rewrite H2; apply Z.div_pos; lia).
    rewrite (IH _ H2'), H2, H1, !Z.div_div by lia.
    rewrite pow2_xI. f_equal. ring.
  - assert (Hp : 0 < 2 ^ Zpos p) by (apply Z.pow_pos_nonneg; lia).
    pose proof (IH _ Hm) as H2.
    assert (H2' : 0 <= shr_m (SpecFloat.iter_pos shr_1 p mrs))
      by (rewrite H2; apply Z.div_pos; lia).
    rewrite (IH _ H2'), H2, !Z.div_div by lia.
    rewrite pow2_xO. reflexivity.
  - rewrite shr_1_m by auto. reflexivity.
Qed.

Lemma shr_record_of_loc_m m l : shr_m (shr_record_of_loc m l) = m.
Proof. destruct l as [|[]]; reflexivity. Qed.

Lemma loc_of_shr_record_of_loc m l : loc_of_shr_record (shr_record_of_loc m l) = l.
Proof. destruct l as [|[]]; reflexivity. Qed.

Lemma shr_fexp_spec m e l :
  0 <= m ->
  let n := fexp prec emax (Zdigits2 m + e) - e in
  (n <= 0 /\ shr_fexp prec emax m e l = (shr_record_of_loc m l, e)) \/
  (0 < n /\ exists mrs, shr_fexp prec emax m e l = (mrs, e + n) /\ shr_m mrs = m / 2 ^ n).
Proof.
  intros Hm n. unfold shr_fexp. fold n. unfold shr.
  destruct n as [|p|p] eqn:Hn.
  - left. split; [lia | reflexivity].
  - right. split; [lia|]. eexists. split; [reflexivity|].
    rewrite iter_pos_shr_1; rewrite shr_record_of_loc_m; auto.
  - left. split; [lia | reflexivity].
Qed.

Lemma round_nearest_even_bounds m l :
  m <= round_nearest_even m l <= m + 1.
Proof. destruct l as [|[]]; cbn; try lia. destruct (Z.even m); lia. Qed.


Lemma fexp_eq x : fexp prec emax x = Z.max (x - 53) (-1074).
Proof. reflexivity. Qed.

Definition eps : R := (/ 4503599627370496)%R.   (* 2^-52 *)
Definition eta : R := bpow (-1074).

Lemma eta_pos : (0 < eta)%R.
Proof. apply bpow_pos. Qed.

(** First stage of [binary_round_aux]: truncation of the mantissa. *)
Lemma shr_fexp_first m e l :
  0 <= m ->
  let e0 := fexp prec emax (Zdigits2 m + e) in
  e <= e0 ->
  exists mrs,
    shr_fexp prec emax m e l = (mrs, e0)
    /\ shr_m mrs * 2 ^ (e0 - e) <= m
    /\ 0 <= shr_m mrs < 2 ^ 53
    /\ (-1074 < e0 -> 2 ^ 52 <= shr_m mrs)
    /\ (e0 = e -> mrs = shr_record_of_loc m l).
Proof.
  intros Hm0 e0 He.
  assert (He0 : e0 = Z.max (Zdigits2 m + e - 53) (-1074)) by apply fexp_eq.
  destruct (Z.eq_dec m 0) as [->|Hnz].
  { change (Zdigits2 0) with 0 in *.
    assert (0 < 2 ^ 53) by (apply Z.pow_pos_nonneg; lia).
    destruct (shr_fexp_spec 0 e l (Z.le_refl 0)) as [[Hn Heq]|[Hn (mrs & Heq & Hq)]];
      change (Zdigits2 0) with 0 in *; fold e0 in Hn, Heq.
    - exists (shr_record_of_loc 0 l). rewrite shr_record_of_loc_m.
      assert (e0 = e) by lia.
      split; [congruence|]. split; [lia|]. split; [lia|]. split; [lia|auto].
    - exists mrs. replace (e + (e0 - e)) with e0 in Heq by lia.
      rewrite Z.div_0_l in Hq by (apply Z.pow_nonzero; lia). rewrite Hq.
      split; [exact Heq|]. split; [lia|]. split; [lia|]. split; lia. }
  assert (Hm : 0 < m) by lia.
  pose proof (Zdigits2_spec m Hm) as [Hlo Hhi].
  pose proof (Zdigits2_pos m Hm) as Hd.
  destruct (shr_fexp_spec m e l (Z.lt_le_incl _ _ Hm)) as [[Hn Heq]|[Hn (mrs & Heq & Hq)]];
    fold e0 in Hn, Heq.
  - assert (e0 = e) by lia. exists (shr_record_of_loc m l).
    rewrite shr_record_of_loc_m. replace (e0 - e) with 0 by lia.
    split; [congruence|]. split; [lia|].
    assert (Zdigits2 m <= 53) by lia.
    assert (2 ^ Zdigits2 m <= 2 ^ 53) by (apply Z.pow_le_mono_r; lia).
    split; [lia|]. split; [|auto].
    intros Hsub. assert (Zdigits2 m = 53) by lia.
    replace (Zdigits2 m - 1) with 52 in Hlo by lia. exact Hlo.
  - exists mrs. replace (e + (e0 - e)) with e0 in Heq by lia.
    split; [exact Heq|].
    set (n := e0 - e) in *.
    assert (Hpn : 0 < 2 ^ n) by (apply Z.pow_pos_nonneg; lia).
    change (shr_m mrs = m / 2 ^ n) in Hq.
    rewrite Hq.
    split. { rewrite Z.mul_comm. apply Z.mul_div_le. lia. }
    split.
    { split; [apply Z.div_pos; lia|].
      apply Z.div_lt_upper_bound; [lia|].
      destruct (Z_le_gt_dec (Zdigits2 m) 53).
      - assert (2 ^ Zdigits2 m <= 2 ^ 53) by (apply Z.pow_le_mono_r; lia). nia.
      - assert (Zdigits2 m - 53 <= n) by lia.
        assert (2 ^ (Zdigits2 m - 53) <= 2 ^ n) by (apply Z.pow_le_mono_r; lia).
        assert (2 ^ Zdigits2 m = 2 ^ 53 * 2 ^ (Zdigits2 m - 53)).
        { rewrite <- Z.pow_add_r by lia. f_equal. lia. }
        assert (0 < 2 ^ 53) by (apply Z.pow_pos_nonneg; lia). nia. }
    split; [|lia].
    intros Hsub. assert (Hn' : n = Zdigits2 m - 53) by lia.
    apply Z.div_le_lower_bound; [lia|].
    assert (2 ^ (Zdigits2 m - 1) = 2 ^ n * 2 ^ 52).
    { rewrite <- Z.pow_add_r by lia. f_equal. lia. }
    lia.
Qed.

(** Second stage: renormalisation after the increment. *)
Lemma shr_fexp_second m2 e0 :
  0 <= m2 <= 2 ^ 53 -> -1074 <= e0 -> (-1074 < e0 -> 2 ^ 52 <= m2) ->
  exists mrs e3,
    shr_fexp prec emax m2 e0 loc_Exact = (mrs, e3)
    /\ e0 <= e3 <= e0 + 1
    /\ shr_m mrs * 2 ^ (e3 - e0) = m2
    /\ 0 <= shr_m mrs
    /\ (0 < m2 -> fexp prec emax (Zdigits2 (shr_m mrs) + e3) = e3).
Proof.
  intros [Hlo Hhi] He0 Hnorm.
  destruct (Z.eq_dec m2 0) as [->|Hnz].
  { exists (shr_record_of_loc 0 loc_Exact), e0.
    destruct (shr_fexp_spec 0 e0 loc_Exact (Z.le_refl 0)) as [[Hn Heq]|[Hn _]].
    - rewrite Heq. cbn [shr_record_of_loc shr_m]. repeat split; try lia.
    - rewrite fexp_eq in Hn. cbn [Zdigits2] in Hn. lia. }
  assert (Hm2 : 0 < m2) by lia.
  pose proof (Zdigits2_spec m2 Hm2) as [Hdlo Hdhi].
  pose proof (Zdigits2_pos m2 Hm2) as Hd.
  destruct (Z.eq_dec m2 (2 ^ 53)) as [Hcarry|Hnc].
  - assert (Hd54 : Zdigits2 m2 = 54).
    { apply Zdigits2_unique; [lia|]. rewrite Hcarry. cbn. lia. }
    destruct (shr_fexp_spec m2 e0 loc_Exact (Z.lt_le_incl _ _ Hm2)) as [[Hn Heq]|[Hn (mrs & Heq & Hq)]];
      rewrite fexp_eq, Hd54 in Hn; [lia|].
    rewrite fexp_eq, Hd54 in Heq, Hq.
    replace (Z.max (54 + e0 - 53) (-1074) - e0) with 1 in * by lia.
    exists mrs, (e0 + 1). split; [exact Heq|]. split; [lia|].
    rewrite Hq, Hcarry. replace (e0 + 1 - e0) with 1 by lia.
    replace (2 ^ 53 / 2 ^ 1) with (2 ^ 52) by reflexivity.
    split; [reflexivity|]. split; [lia|].
    intros _. rewrite fexp_eq.
    replace (Zdigits2 (2 ^ 52)) with 53 by reflexivity. lia.
  - assert (Hd53 : Zdigits2 m2 <= 53).
    { destruct (Z_le_gt_dec (Zdigits2 m2) 53); auto.
      assert (2 ^ 53 <= 2 ^ (Zdigits2 m2 - 1)) by (apply Z.pow_le_mono_r; lia). lia. }
    destruct (shr_fexp_spec m2 e0 loc_Exact (Z.lt_le_incl _ _ Hm2)) as [[Hn Heq]|[Hn _]];
      rewrite fexp_eq in Hn; [|lia].
    exists (shr_record_of_loc m2 loc_Exact), e0. split; [exact Heq|].
    cbn [shr_record_of_loc shr_m]. replace (e0 - e0) with 0 by lia.
    split; [lia|]. split; [lia|]. split; [lia|].
    intros _. rewrite fexp_eq.
    destruct (Z.eq_dec e0 (-1074)); [lia|].
    assert (2 ^ 52 <= m2) by (apply Hnorm; lia).
    assert (Zdigits2 m2 = 53).
    { apply Zdigits2_unique; [lia|]. change (53 - 1) with 52. lia. }
    lia.
Qed.


(** The largest finite binary64 value, [(2^53 - 1) * 2^971]. *)
Definition fmax : R := (IZR (2 ^ 53 - 1) * bpow 971)%R.

(** What [binary_round_aux] returns for the sign [s] and the exact positive
    value [v]: a zero, an infinity when [v] is out of range, or a canonical
    float above [v] by at most one unit in the last place. *)
Definition round_post (s : bool) (v : R) (r : float) : Prop :=
  match r with
  | S754_zero s' => s' = s
  | S754_finite s' m' e' =>
      s' = s /\ SpecFloat.bounded prec emax m' e' = true
      /\ (F2R (Zpos m') e' <= v * (1 + eps) + eta)%R
  | S754_infinity s' => s' = s /\ (fmax <= v)%R
  | S754_nan => False
  end.

Lemma F2R_le m1 m2 e : m1 <= m2 -> (F2R m1 e <= F2R m2 e)%R.
Proof.
  intros H. unfold F2R. apply IZR_le in H. pose proof (bpow_pos e). nra.
Qed.

Lemma F2R_digits_lower m e : 0 < m -> (bpow (Zdigits2 m - 1 + e) <= F2R m e)%R.
Proof.
  intros Hm. pose proof (Zdigits2_spec m Hm) as [Hlo _].
  pose proof (Zdigits2_pos m Hm).
  rewrite bpow_add, (bpow_IZR (Zdigits2 m - 1)) by lia.
  apply (F2R_le _ _ e) in Hlo. exact Hlo.
Qed.

Lemma F2R_digits_upper m e : 0 < m -> (F2R m e < bpow (Zdigits2 m + e))%R.
Proof.
  intros Hm. pose proof (Zdigits2_spec m Hm) as [_ Hhi].
  pose proof (Zdigits2_pos m Hm).
  rewrite bpow_add, (bpow_IZR (Zdigits2 m)) by lia.
  unfold F2R. apply IZR_lt in Hhi. pose proof (bpow_pos e). nra.
Qed.

Lemma bpow_m52 : bpow (-52) = eps.
Proof. change (-52) with (- (52)). rewrite (bpow_opp 52), (bpow_IZR 52) by lia. reflexivity. Qed.

Lemma binary_round_aux_spec s m e l :
  0 <= m -> e <= fexp prec emax (Zdigits2 m + e) ->
  round_post s (F2R m e) (binary_round_aux prec emax s m e l).
Proof.
  intros Hm He. unfold binary_round_aux.
  set (e0 := fexp prec emax (Zdigits2 m + e)) in *.
  assert (He0 : e0 = Z.max (Zdigits2 m + e - 53) (-1074)) by apply fexp_eq.
  destruct (shr_fexp_first m e l Hm He) as (mrs & Heq & Hle & Hrange & Hnorm & _).
  fold e0 in Heq, Hle, Hnorm. rewrite Heq.
  set (m2 := round_nearest_even (shr_m mrs) (loc_of_shr_record mrs)).
  pose proof (round_nearest_even_bounds (shr_m mrs) (loc_of_shr_record mrs)) as Hm2.
  fold m2 in Hm2.
  destruct (shr_fexp_second m2 e0) as (mrs2 & e3 & Heq2 & He3 & Hval & Hnn & Hcanon);
    [lia | lia | intros; specialize (Hnorm ltac:(assumption)); lia |].
  rewrite Heq2.
  assert (Hpos : -1074 < e0 -> 0 < m).
  { intros Hsub. destruct (Z.eq_dec m 0) as [->|]; [|lia].
    change (Zdigits2 0) with 0 in *. lia. }
  assert (H2 : (F2R (shr_m mrs) e0 <= F2R m e)%R).
  { replace e0 with (e + (e0 - e)) at 1 by lia.
    rewrite <- F2R_shift by lia. apply F2R_le. exact Hle. }
  assert (Hv : (F2R (shr_m mrs2) e3 <= F2R m e * (1 + eps) + eta)%R).
  { replace e3 with (e0 + (e3 - e0)) by lia.
    rewrite <- F2R_shift, Hval by lia.
    assert (H1 : (F2R m2 e0 <= F2R (shr_m mrs) e0 + bpow e0)%R).
    { transitivity (F2R (shr_m mrs + 1) e0); [apply F2R_le; lia|].
      unfold F2R. rewrite plus_IZR. lra. }
    assert (H3 : (bpow e0 <= F2R m e * eps + eta)%R).
    { pose proof eta_pos. pose proof (bpow_pos e).
      assert (0 <= F2R m e)%R.
      { unfold F2R. apply IZR_le in Hm. nra. }
      destruct (Z.eq_dec e0 (-1074)) as [->|Hne].
      - unfold eta, eps. lra.
      - assert (e0 = (Zdigits2 m - 1 + e) + -52) as -> by lia.
        rewrite bpow_add, bpow_m52.
        pose proof (F2R_digits_lower m e ltac:(lia)). unfold eps in *. nra. }
    lra. }
  destruct (shr_m mrs2) as [|p|p] eqn:Hm3; cbn [round_post].
  - reflexivity.
  - change (emax - prec) with 971.
    destruct (e3 <=? 971) eqn:Hfin; cbn [round_post].
    + split; [reflexivity|]. split; [|exact Hv].
      unfold SpecFloat.bounded, canonical_mantissa. change (emax - prec) with 971.
      rewrite Hfin, andb_true_r. apply Z.eqb_eq.
      apply Hcanon. nia.
    + split; [reflexivity|]. apply Z.leb_gt in Hfin.
      unfold fmax. transitivity (F2R (shr_m mrs) e0); [|exact H2].
      assert (0 < IZR (2 ^ 53 - 1))%R by (apply IZR_lt; reflexivity).
      destruct (Z.eq_dec e3 e0) as [->|Hne].
      * specialize (Hnorm ltac:(lia)).
        transitivity (F2R (2 ^ 52) e0); [|apply F2R_le; exact Hnorm].
        unfold F2R. assert (Hb : (bpow 972 <= bpow e0)%R) by (apply bpow_le; lia).
        change 972 with (971 + 1) in Hb. rewrite bpow_add in Hb.
        rewrite (bpow_IZR 1) in Hb by lia. change (IZR (2 ^ 1)) with 2%R in Hb.
        pose proof (bpow_pos 971).
        assert (IZR (2 ^ 53 - 1) <= IZR (2 ^ 52) * 2)%R.
        { rewrite <- mult_IZR. apply IZR_le. lia. }
        assert (0 < IZR (2 ^ 52))%R by (apply IZR_lt; reflexivity).
        nra.
      * replace (e3 - e0) with 1 in Hval by lia.
        assert (Hc : fexp prec emax (Zdigits2 (Zpos p) + e3) = e3) by (apply Hcanon; lia).
        rewrite fexp_eq in Hc.
        pose proof (Zdigits2_spec (Zpos p) ltac:(lia)) as [Hpl _].
        replace (Zdigits2 (Zpos p) - 1) with 52 in Hpl by lia.
        change (2 ^ 1) with 2 in Hval.
        assert (Hq : 2 ^ 53 - 1 <= shr_m mrs) by lia.
        transitivity (F2R (2 ^ 53 - 1) e0); [|apply F2R_le; exact Hq].
        unfold F2R. assert (bpow 971 <= bpow e0)%R by (apply bpow_le; lia).
        nra.
  - lia.
Qed.

Lemma round_post_mono s v v' r :
  (v <= v')%R -> round_post s v r -> round_post s v' r.
Proof.
  intros Hv. assert (0 < eps)%R by (unfold eps; lra).
  destruct r; cbn [round_post]; auto.
  - intros [-> H1]. split; [reflexivity|lra].
  - intros (-> & Hb & H1). split; [reflexivity|]. split; [exact Hb|nra].
Qed.

Lemma binary_round_aux_exact s m e :
  0 < m -> fexp prec emax (Zdigits2 m + e) = e -> e <= 971 ->
  binary_round_aux prec emax s m e loc_Exact = S754_finite s (Z.to_pos m) e.
Proof.
  intros Hm Hc He. unfold binary_round_aux.
  destruct (shr_fexp_spec m e loc_Exact (Z.lt_le_incl _ _ Hm)) as [[Hn Heq]|[Hn _]]; [|lia].
  rewrite Heq. cbn [shr_record_of_loc shr_m loc_of_shr_record round_nearest_even].
  rewrite Heq. cbn [shr_m].
  destruct m; try lia. change (emax - prec) with 971.
  apply Z.leb_le in He. rewrite He. reflexivity.
Qed.


(** Alignment to a smaller exponent. *)
Lemma Pos_iter_xO m d : Zpos (Pos.iter xO m d) = Zpos m * 2 ^ Zpos d.
Proof.
  induction d as [|d IH] using Pos.peano_ind.
  - cbn. lia.
  - rewrite Pos.iter_succ, Pos2Z.inj_xO, IH, Pos2Z.inj_succ, Z.pow_succ_r by lia. ring.
Qed.

Lemma shl_align_spec mx ex ex' :
  exists mz ez,
    shl_align mx ex ex' = (mz, ez)
    /\ ez = Z.min ex ex'
    /\ Zpos mz = Zpos mx * 2 ^ (ex - ez).
Proof.
  unfold shl_align. destruct (ex' - ex) as [|p|p] eqn:Hd.
  - exists mx, ex. replace (Z.min ex ex') with ex by lia.
    replace (ex - ex) with 0 by lia. split; [reflexivity|]. split; lia.
  - exists mx, ex. replace (Z.min ex ex') with ex by lia.
    replace (ex - ex) with 0 by lia. split; [reflexivity|]. split; lia.
  - exists (Pos.iter xO mx p), ex'. replace (Z.min ex ex') with ex' by lia.
    split; [reflexivity|]. split; [reflexivity|].
    rewrite Pos_iter_xO. f_equal. f_equal. lia.
Qed.

Lemma Zdigits2_shift m k : 0 < m -> 0 <= k -> Zdigits2 (m * 2 ^ k) = Zdigits2 m + k.
Proof.
  intros Hm Hk. pose proof (Zdigits2_spec m Hm) as [Hlo Hhi].
  pose proof (Zdigits2_pos m Hm).
  assert (0 < 2 ^ k) by (apply Z.pow_pos_nonneg; lia).
  apply Zdigits2_unique; [nia|].
  replace (Zdigits2 m + k - 1) with (Zdigits2 m - 1 + k) by lia.
  rewrite !Z.pow_add_r by lia. nia.
Qed.

Lemma binary_round_spec s mx ex :
  round_post s (F2R (Zpos mx) ex) (binary_round prec emax s mx ex).
Proof.
  unfold binary_round.
  destruct (shl_align_spec mx ex (fexp prec emax (Zpos (digits2_pos mx) + ex)))
    as (mz & ez & Heq & Hez & Hmz).
  rewrite Heq.
  assert (Hv : F2R (Zpos mz) ez = F2R (Zpos mx) ex).
  { rewrite Hmz, F2R_shift by lia. f_equal. lia. }
  rewrite <- Hv. apply binary_round_aux_spec; [lia|].
  rewrite Hmz, Zdigits2_shift by lia.
  replace (Zdigits2 (Zpos mx) + (ex - ez) + ez) with (Zpos (digits2_pos mx) + ex)
    by (cbn [Zdigits2]; lia).
  lia.
Qed.

Lemma binary_round_exact s mx ex :
  let e' := fexp prec emax (Zpos (digits2_pos mx) + ex) in
  e' <= ex -> e' <= 971 ->
  binary_round prec emax s mx ex
  = S754_finite s (Z.to_pos (Zpos mx * 2 ^ (ex - e'))) e'.
Proof.
  intros e' He Hr. unfold binary_round. fold e'.
  destruct (shl_align_spec mx ex e') as (mz & ez & Heq & Hez & Hmz).
  rewrite Heq. assert (Hez' : ez = e') by lia. clear Hez. rewrite Hez' in *.
  rewrite <- Hmz. rewrite binary_round_aux_exact; [reflexivity|lia| |lia].
  rewrite Hmz, Zdigits2_shift by lia.
  replace (Zdigits2 (Zpos mx) + (ex - e') + e') with (Zpos (digits2_pos mx) + ex)
    by (cbn [Zdigits2]; lia).
  reflexivity.
Qed.

(** ** Approximation of a real by the float an operation returns *)

Definition valid (f : float) : Prop := valid_binary prec emax f = true.

(** [r] is what rounding the real [v] gives: finite unless [|v|] is out
    of range, of the sign of [v], and at most one unit in the last place
    away from zero. *)
Definition approx (v : R) (r : float) : Prop :=
  valid r /\
  match r with
  | S754_nan => False
  | S754_infinity _ => (fmax <= Rabs v)%R
  | _ =>
      (Rabs (B2R r) <= Rabs v * (1 + eps) + eta)%R
      /\ (0 <= v -> 0 <= B2R r)%R /\ (v <= 0 -> B2R r <= 0)%R
  end.

Lemma F2R_opp m e : F2R (- m) e = (- F2R m e)%R.
Proof. unfold F2R. rewrite opp_IZR. ring. Qed.

Lemma F2R_pos m e : 0 < m -> (0 < F2R m e)%R.
Proof. intros H. unfold F2R. apply IZR_lt in H. pose proof (bpow_pos e). nra. Qed.

Lemma F2R_0 e : F2R 0 e = 0%R.
Proof. unfold F2R. ring. Qed.

Lemma round_post_approx s v r :
  (0 < v)%R -> round_post s v r -> approx (if s then - v else v)%R r.
Proof.
  intros Hv Hr. pose proof eta_pos.
  assert (Heps : (0 < eps)%R) by (unfold eps; lra).
  assert (Habs : Rabs (if s then - v else v)%R = v).
  { destruct s; [rewrite Rabs_Ropp|]; apply Rabs_right; lra. }
  destruct r as [s'|s'| |s' m e]; cbn [round_post] in Hr.
  - split; [reflexivity|]. cbn [B2R]. rewrite Habs, Rabs_R0.
    split; [nra|]. split; lra.
  - split; [reflexivity|]. rewrite Habs. tauto.
  - contradiction.
  - destruct Hr as (-> & Hb & Hle). split; [exact Hb|].
    pose proof (F2R_pos (Zpos m) e ltac:(lia)).
    cbn [B2R]. rewrite Habs.
    destruct s; cbn [cond_Zopp].
    + change (- Zpos m) with (Z.opp (Zpos m)). rewrite F2R_opp, Rabs_Ropp, Rabs_right by lra.
      split; [lra|]. split; lra.
    + rewrite Rabs_right by lra. split; [lra|]. split; lra.
Qed.

Lemma binary_normalize_approx m e sz :
  approx (F2R m e) (binary_normalize prec emax m e sz).
Proof.
  destruct m as [|p|p]; cbn [binary_normalize].
  - split; [reflexivity|]. cbn [B2R]. rewrite F2R_0, Rabs_R0.
    pose proof eta_pos. split; [lra|]. split; lra.
  - apply (round_post_approx false); [apply F2R_pos; lia|apply binary_round_spec].
  - change (Zneg p) with (- Zpos p). rewrite F2R_opp.
    apply (round_post_approx true); [apply F2R_pos; lia|apply binary_round_spec].
Qed.


Lemma F2R_cond_Zopp s m e :
  F2R (cond_Zopp s m) e = (if s then - F2R m e else F2R m e)%R.
Proof. destruct s; cbn [cond_Zopp]; [apply F2R_opp|reflexivity]. Qed.

Lemma F2R_plus a b e : F2R (a + b) e = (F2R a e + F2R b e)%R.
Proof. unfold F2R. rewrite plus_IZR. ring. Qed.

Lemma F2R_minus a b e : F2R (a - b) e = (F2R a e - F2R b e)%R.
Proof. unfold F2R. rewrite minus_IZR. ring. Qed.

Lemma shl_align_value s m e ez :
  ez <= e ->
  F2R (cond_Zopp s (Zpos (fst (shl_align m e ez)))) ez = F2R (cond_Zopp s (Zpos m)) e.
Proof.
  intros He. destruct (shl_align_spec m e ez) as (mz & ez' & Heq & Hez & Hmz).
  rewrite Heq. cbn [fst]. assert (ez' = ez) as -> by lia.
  rewrite !F2R_cond_Zopp, Hmz, F2R_shift by lia.
  replace (ez + (e - ez)) with e by lia. reflexivity.
Qed.

Lemma approx_exact f :
  valid f -> is_finite f = true -> approx (B2R f) f.
Proof.
  intros Hv Hf. split; [exact Hv|].
  pose proof eta_pos. assert (0 < eps)%R by (unfold eps; lra).
  pose proof (Rabs_pos (B2R f)).
  destruct f; try discriminate; (split; [nra|split; lra]).
Qed.

Lemma approx_ext v v' f : v = v' -> approx v f -> approx v' f.
Proof. intros ->. auto. Qed.

Lemma B2R_opp_finite s m e :
  B2R (S754_finite (negb s) m e) = (- B2R (S754_finite s m e))%R.
Proof.
  cbn [B2R]. rewrite !F2R_cond_Zopp. destruct s; cbn [negb]; lra.
Qed.

(** Conversion of an int. *)
Lemma of_int_spec n :
  match of_int n with
  | Ok f => approx (IZR n) f /\ is_finite f = true
  | Raise e => e = OverflowError IntTooLargeForFloat /\ (fmax <= Rabs (IZR n))%R
  end.
Proof.
  unfold of_int. pose proof (binary_normalize_approx n 0 false) as Ha.
  replace (F2R n 0) with (IZR n) in Ha by (unfold F2R, bpow; cbn; ring).
  destruct (binary_normalize prec emax n 0 false) eqn:E.
  - split; [exact Ha|reflexivity].
  - split; [reflexivity|apply Ha].
  - destruct Ha as [_ []].
  - split; [exact Ha|reflexivity].
Qed.

(** Subtraction. *)
Lemma sub_spec x y :
  valid x -> valid y -> is_finite x = true -> is_finite y = true ->
  approx (B2R x - B2R y) (sub x y).
Proof.
  intros Hx Hy Fx Fy.
  destruct x as [sx|sx| |sx mx ex], y as [sy|sy| |sy my ey]; try discriminate.
  - cbn [sub SFsub B2R]. destruct sx, sy; apply (approx_ext 0%R); try lra;
      apply (approx_exact (S754_zero _)); reflexivity.
  - unfold sub, SFsub. eapply approx_ext; [|apply approx_exact].
    + rewrite B2R_opp_finite. cbn [B2R]. lra.
    + exact Hy.
    + reflexivity.
  - unfold sub, SFsub. eapply approx_ext; [|apply approx_exact; [exact Hx|reflexivity]].
    cbn [B2R]. lra.
  - unfold sub, SFsub. cbv zeta.
    eapply approx_ext; [|apply binary_normalize_approx].
    rewrite F2R_minus, !shl_align_value by lia. reflexivity.
Qed.

(** Multiplication. *)
Lemma valid_finite_inv s m e :
  valid (S754_finite s m e) ->
  fexp prec emax (Zpos (digits2_pos m) + e) = e /\ e <= 971.
Proof.
  unfold valid, valid_binary, SpecFloat.bounded, canonical_mantissa.
  intros H. apply andb_true_iff in H as [H1 H2].
  apply Z.eqb_eq in H1. apply Z.leb_le in H2. split; [exact H1|exact H2].
Qed.

Lemma Zdigits2_mul_lower a b :
  0 < a -> 0 < b -> Zdigits2 a + Zdigits2 b - 1 <= Zdigits2 (a * b).
Proof.
  intros Ha Hb.
  pose proof (Zdigits2_spec a Ha) as [Hal _].
  pose proof (Zdigits2_spec b Hb) as [Hbl _].
  pose proof (Zdigits2_pos a Ha). pose proof (Zdigits2_pos b Hb).
  assert (Hab : 0 < a * b) by nia.
  pose proof (Zdigits2_spec (a * b) Hab) as [_ Hh].
  destruct (Z_le_gt_dec (Zdigits2 a + Zdigits2 b - 1) (Zdigits2 (a * b))); auto.
  exfalso.
  assert (2 ^ Zdigits2 (a * b) <= 2 ^ (Zdigits2 a - 1 + (Zdigits2 b - 1)))
    by (apply Z.pow_le_mono_r; lia).
  rewrite Z.pow_add_r in * by lia.
  assert (0 < 2 ^ (Zdigits2 a - 1)) by (apply Z.pow_pos_nonneg; lia).
  assert (0 < 2 ^ (Zdigits2 b - 1)) by (apply Z.pow_pos_nonneg; lia).
  nia.
Qed.

Lemma mul_spec x y :
  valid x -> valid y -> is_finite x = true -> is_finite y = true ->
  approx (B2R x * B2R y) (mul x y).
Proof.
  intros Hx Hy Fx Fy.
  destruct x as [sx|sx| |sx mx ex], y as [sy|sy| |sy my ey]; try discriminate;
    try (cbn [mul SFmul B2R]; apply (approx_ext 0%R); [ring|];
         apply (approx_exact (S754_zero _)); reflexivity).
  unfold mul, SFmul.
  apply valid_finite_inv in Hx as [Hcx _], Hy as [Hcy _].
  rewrite fexp_eq in Hcx, Hcy.
  pose proof (Zdigits2_mul_lower (Zpos mx) (Zpos my) ltac:(lia) ltac:(lia)) as Hd.
  cbn [Zdigits2] in Hd.
  eapply approx_ext; [|apply (round_post_approx (xorb sx sy) (F2R (Zpos (mx * my)) (ex + ey)))].
  - cbn [B2R]. rewrite !F2R_cond_Zopp. unfold F2R.
    rewrite Pos2Z.inj_mul, mult_IZR, bpow_add.
    destruct sx, sy; cbn [xorb]; ring.
  - apply F2R_pos. lia.
  - apply binary_round_aux_spec; [lia|].
    rewrite fexp_eq. rewrite Pos2Z.inj_mul. lia.
Qed.


(** Truncation to an int. *)
Lemma shiftl_F2R m e :
  0 < m -> 0 <= Z.shiftl m e /\ (IZR (Z.shiftl m e) <= F2R m e)%R.
Proof.
  intros Hm. destruct (Z_le_gt_dec 0 e).
  - rewrite Z.shiftl_mul_pow2 by lia.
    assert (0 < 2 ^ e) by (apply Z.pow_pos_nonneg; lia).
    split; [nia|]. unfold F2R. rewrite mult_IZR, <- bpow_IZR by lia. lra.
  - rewrite Z.shiftl_div_pow2 by lia.
    assert (0 < 2 ^ (- e)) by (apply Z.pow_pos_nonneg; lia).
    split; [apply Z.div_pos; lia|].
    replace (IZR (m / 2 ^ (- e))) with (F2R (m / 2 ^ (- e) * 2 ^ (- e)) e).
    + apply F2R_le. rewrite Z.mul_comm. apply Z.mul_div_le. lia.
    + rewrite F2R_shift by lia. replace (e + - e) with 0 by lia.
      unfold F2R, bpow. cbn. ring.
Qed.

Lemma to_int_spec f :
  is_finite f = true ->
  exists k, to_int f = Ok k
    /\ ((0 <= B2R f)%R -> 0 <= k /\ (IZR k <= B2R f)%R)
    /\ ((B2R f <= 0)%R -> k <= 0).
Proof.
  destruct f as [s|s| |s m e]; try discriminate; intros _.
  - exists 0. cbn [to_int B2R]. split; [reflexivity|]. split; intros; [split|]; try lia; lra.
  - cbn [to_int B2R]. eexists. split; [reflexivity|].
    destruct (shiftl_F2R (Zpos m) e ltac:(lia)) as [Hk Hle].
    pose proof (F2R_pos (Zpos m) e ltac:(lia)).
    rewrite F2R_cond_Zopp. destruct s; cbn [cond_Zopp].
    + split; [intros; lra|]. intros _. lia.
    + split; [intros _; split; [lia|exact Hle]|]. intros; lra.
Qed.

(** The quotient handed to the rounding step by a division. *)
Lemma div_core_spec a e1 b e2 :
  0 < a -> 0 < b ->
  exists q e l,
    SFdiv_core_binary prec emax a e1 b e2 = (q, e, l)
    /\ 0 <= q
    /\ e <= fexp prec emax (Zdigits2 q + e)
    /\ (F2R q e * F2R b e2 <= F2R a e1)%R.
Proof.
  intros Ha Hb. unfold SFdiv_core_binary.
  set (d1 := Zdigits2 a). set (d2 := Zdigits2 b).
  set (e' := Z.min (fexp prec emax (d1 + e1 - (d2 + e2))) (e1 - e2)).
  assert (He' : e' = Z.min (Z.max (d1 + e1 - (d2 + e2) - 53) (-1074)) (e1 - e2))
    by reflexivity.
  set (s := e1 - e2 - e').
  assert (Hs0 : 0 <= s) by lia.
  set (m' := match s with Z0 => a | Zpos _ => Z.shiftl a s | Zneg _ => 0 end).
  assert (Hm' : m' = a * 2 ^ s).
  { unfold m'. destruct s as [|p|p] eqn:Hs; try lia.
    apply Z.shiftl_mul_pow2. lia. }
  pose proof (Z_div_mod m' b ltac:(lia)) as Hdm.
  change (IntDef.Z.div_eucl m' b) with (Z.div_eucl m' b).
  destruct (Z.div_eucl m' b) as [q r] eqn:Hqr. destruct Hdm as [Hdm Hr].
  assert (Hp : 0 < 2 ^ s) by (apply Z.pow_pos_nonneg; lia).
  assert (Hq0 : 0 <= q) by nia.
  exists q, e', (new_location b r). split; [reflexivity|]. split; [exact Hq0|].
  pose proof (Zdigits2_spec a Ha) as [Hal Hah]. fold d1 in Hal, Hah.
  pose proof (Zdigits2_spec b Hb) as [Hbl Hbh]. fold d2 in Hbl, Hbh.
  pose proof (Zdigits2_pos a Ha). pose proof (Zdigits2_pos b Hb).
  split.
  - rewrite fexp_eq.
    destruct (Z_le_gt_dec e' (-1074)); [lia|].
    assert (Hs : d2 - d1 + 53 <= s) by lia.
    assert (Hge : 2 ^ (d1 - 1 + s - d2) <= q).
    { assert (2 ^ (d1 - 1 + s) = 2 ^ (d1 - 1 + s - d2) * 2 ^ d2).
      { rewrite <- Z.pow_add_r by lia. f_equal. lia. }
      assert (2 ^ (d1 - 1 + s) <= m').
      { rewrite Hm', Z.pow_add_r by lia. nia. }
      assert (0 < 2 ^ (d1 - 1 + s - d2)) by (apply Z.pow_pos_nonneg; lia).
      nia. }
    assert (0 < 2 ^ (d1 - 1 + s - d2)) by (apply Z.pow_pos_nonneg; lia).
    assert (Hq : 0 < q) by lia.
    pose proof (Zdigits2_spec q Hq) as [_ Hqh].
    assert (d1 + s - d2 <= Zdigits2 q).
    { destruct (Z_le_gt_dec (d1 + s - d2) (Zdigits2 q)); auto. exfalso.
      assert (2 ^ Zdigits2 q <= 2 ^ (d1 - 1 + s - d2)).
      { apply Z.pow_le_mono_r; lia. }
      lia. }
    lia.
  - assert (Hqb : q * b <= a * 2 ^ s) by nia.
    apply IZR_le in Hqb. rewrite !mult_IZR, <- bpow_IZR in Hqb by lia.
    unfold F2R.
    replace e1 with (s + (e' + e2)) at 1 by lia.
    rewrite (bpow_add s), (bpow_add e').
    pose proof (bpow_pos e'). pose proof (bpow_pos e2).
    assert (0 < bpow e' * bpow e2)%R by nra.
    replace (IZR q * bpow e' * (IZR b * bpow e2))%R
      with (IZR q * IZR b * (bpow e' * bpow e2))%R by ring.
    replace (IZR a * (bpow s * (bpow e' * bpow e2)))%R
      with (IZR a * bpow s * (bpow e' * bpow e2))%R by ring.
    apply Rmult_le_compat_r; lra.
Qed.

Lemma int_truediv_spec a b :
  b <> 0 ->
  match int_truediv a b with
  | Ok f => approx (IZR a / IZR b) f /\ is_finite f = true
  | Raise e =>
      e = OverflowError DivisionResultTooLarge /\ (fmax <= Rabs (IZR a / IZR b))%R
  end.
Proof.
  intros Hb. unfold int_truediv.
  destruct (b =? 0) eqn:Eb; [apply Z.eqb_eq in Eb; lia|].
  destruct (a =? 0) eqn:Ea.
  { apply Z.eqb_eq in Ea. subst a. split; [|reflexivity].
    apply (approx_ext 0%R); [unfold Rdiv; ring|].
    apply (approx_exact (S754_zero _)); reflexivity. }
  apply Z.eqb_neq in Ea.
  destruct (div_core_spec (Z.abs a) 0 (Z.abs b) 0 ltac:(lia) ltac:(lia))
    as (q & e & l & Heq & Hq & He & Hle).
  rewrite Heq.
  pose proof (binary_round_aux_spec (xorb (a <? 0) (b <? 0)) q e l Hq He) as Hr.
  assert (Hbp : (0 < IZR (Z.abs b))%R) by (apply IZR_lt; lia).
  assert (Hap : (0 < IZR (Z.abs a))%R) by (apply IZR_lt; lia).
  assert (Hle' : (F2R q e <= IZR (Z.abs a) / IZR (Z.abs b))%R).
  { unfold F2R at 2 3 in Hle. change (bpow 0) with 1%R in Hle.
    rewrite !Rmult_1_r in Hle.
    apply Rmult_le_reg_r with (IZR (Z.abs b)); [lra|].
    replace (IZR (Z.abs a) / IZR (Z.abs b) * IZR (Z.abs b))%R
      with (IZR (Z.abs a)) by (field; lra).
    exact Hle. }
  apply (round_post_mono _ _ _ _ Hle') in Hr.
  assert (Hpos : (0 < IZR (Z.abs a) / IZR (Z.abs b))%R).
  { apply Rdiv_lt_0_compat; lra. }
  apply round_post_approx in Hr; [|exact Hpos].
  assert (Hsign : (if xorb (a <? 0) (b <? 0)
                   then - (IZR (Z.abs a) / IZR (Z.abs b))
                   else IZR (Z.abs a) / IZR (Z.abs b))%R = (IZR a / IZR b)%R).
  { destruct (Z.ltb_spec a 0), (Z.ltb_spec b 0); cbn [xorb];
      rewrite ?(Z.abs_eq a), ?(Z.abs_eq b), ?(Z.abs_neq a), ?(Z.abs_neq b), ?opp_IZR by lia;
      field; apply not_0_IZR; lia. }
  rewrite Hsign in Hr.
  destruct (binary_round_aux prec emax (xorb (a <? 0) (b <? 0)) q e l) eqn:E.
  - split; [exact Hr|reflexivity].
  - split; [reflexivity|apply Hr].
  - destruct Hr as [_ []].
  - split; [exact Hr|reflexivity].
Qed.


(** Values of valid floats. *)
Lemma fmax_pos : (0 < fmax)%R.
Proof.
  unfold fmax. pose proof (bpow_pos 971).
  assert (0 < IZR (2 ^ 53 - 1))%R by (apply IZR_lt; reflexivity). nra.
Qed.

Lemma valid_mantissa s m e :
  valid (S754_finite s m e) -> Zpos m < 2 ^ 53 /\ -1074 <= e <= 971.
Proof.
  intros H. apply valid_finite_inv in H as [Hc He]. rewrite fexp_eq in Hc.
  pose proof (digits2_pos_spec m) as [_ Hhi].
  assert (Zpos (digits2_pos m) <= 53) by lia.
  assert (2 ^ Zpos (digits2_pos m) <= 2 ^ 53) by (apply Z.pow_le_mono_r; lia).
  lia.
Qed.

Lemma Rabs_B2R_finite s m e :
  Rabs (B2R (S754_finite s m e)) = F2R (Zpos m) e.
Proof.
  cbn [B2R]. rewrite F2R_cond_Zopp.
  pose proof (F2R_pos (Zpos m) e ltac:(lia)).
  destruct s; [rewrite Rabs_Ropp|]; apply Rabs_right; lra.
Qed.

Lemma valid_le_fmax f :
  valid f -> (Rabs (B2R f) <= fmax)%R.
Proof.
  pose proof fmax_pos.
  destruct f as [s|s| |s m e]; cbn [B2R]; rewrite ?Rabs_R0; try lra.
  intros Hv. apply valid_mantissa in Hv as [Hm He].
  change (Rabs (B2R (S754_finite s m e)) <= fmax)%R. rewrite Rabs_B2R_finite.
  unfold fmax, F2R.
  assert (IZR (Zpos m) <= IZR (2 ^ 53 - 1))%R by (apply IZR_le; lia).
  assert (bpow e <= bpow 971)%R by (apply bpow_le; lia).
  pose proof (bpow_pos e). assert (0 < IZR (Zpos m))%R by (apply IZR_lt; lia).
  nra.
Qed.

Lemma approx_finite v f :
  approx v f -> (Rabs v < fmax)%R -> is_finite f = true.
Proof.
  intros [_ H] Hv. destruct f; try reflexivity; [lra|contradiction].
Qed.

Lemma approx_valid v f : approx v f -> valid f.
Proof. intros [H _]. exact H. Qed.

Lemma approx_bound v f :
  approx v f -> is_finite f = true ->
  (Rabs (B2R f) <= Rabs v * (1 + eps) + eta)%R
  /\ (0 <= v -> 0 <= B2R f)%R /\ (v <= 0 -> B2R f <= 0)%R.
Proof. intros [_ H] Hf. destruct f; try discriminate; exact H. Qed.

(** Comparison with [1.0] and [0.0]. *)
Lemma compare_cont_Lt a b : Pos.compare_cont Eq a b = Lt -> Zpos a < Zpos b.
Proof. intros H. exact H. Qed.

Lemma compare_cont_Gt a b : Pos.compare_cont Eq a b = Gt -> Zpos b < Zpos a.
Proof. intros H. apply Pos2Z.pos_lt_pos, Pos.compare_gt_iff. exact H. Qed.

Lemma compare_cont_Eq a b : Pos.compare_cont Eq a b = Eq -> a = b.
Proof. apply Pos.compare_eq. Qed.

Lemma B2R_one : B2R one = 1%R.
Proof.
  cbn. unfold F2R. change (-52) with (- (52)).
  rewrite bpow_opp, (bpow_IZR 52) by lia.
  change (IZR (2 ^ 52)) with 4503599627370496%R. field.
Qed.

Lemma leb_one_le f :
  valid f -> is_finite f = true -> leb f one = true -> (B2R f <= 1)%R.
Proof.
  intros Hv Hf Hle. destruct f as [s|s| |s m e]; try discriminate.
  - cbn. lra.
  - pose proof (valid_mantissa _ _ _ Hv) as [Hm He].
    pose proof (F2R_pos (Zpos m) e ltac:(lia)) as Hp.
    cbn [B2R]. rewrite F2R_cond_Zopp. destruct s; [lra|].
    unfold leb, SFleb, one, SFcompare in Hle.
    assert (H1 : (F2R (2 ^ 52) (-52) = 1)%R) by apply B2R_one.
    destruct (Z.compare_spec e (-52)) as [->|Hlt|Hgt]; try discriminate.
    + rewrite <- H1. apply F2R_le.
      destruct (Pos.compare_cont Eq m 4503599627370496) eqn:Hc; try discriminate.
      * apply compare_cont_Eq in Hc. subst. lia.
      * apply compare_cont_Lt in Hc. lia.
    + rewrite <- H1. transitivity (F2R (Zpos m) (-53)).
      * unfold F2R. assert (bpow e <= bpow (-53))%R by (apply bpow_le; lia).
        assert (0 < IZR (Zpos m))%R by (apply IZR_lt; lia). nra.
      * replace (-52) with (-53 + 1) by lia. rewrite <- F2R_shift by lia.
        apply F2R_le. change (2 ^ 52 * 2 ^ 1) with (2 ^ 53). lia.
Qed.

Lemma not_geb_one_lt f :
  valid f -> geb f one = false -> sign_of f = false -> is_finite f = true ->
  (B2R f < 1)%R.
Proof.
  intros Hv Hge Hs Hf. destruct f as [s|s| |s m e]; try discriminate.
  - cbn. lra.
  - cbn [sign_of] in Hs. subst s.
    pose proof (valid_mantissa _ _ _ Hv) as [Hm He].
    cbn [B2R cond_Zopp].
    unfold geb, SFleb, one, SFcompare in Hge.
    assert (H1 : (F2R (2 ^ 52) (-52) = 1)%R) by apply B2R_one.
    destruct (Z.compare_spec (-52) e) as [Heq|Hlt|Hgt]; try discriminate.
    + subst e. rewrite <- H1. unfold F2R. pose proof (bpow_pos (-52)).
      destruct (Pos.compare_cont Eq 4503599627370496 m) eqn:Hc; try discriminate.
      apply compare_cont_Gt in Hc.
      assert (IZR (Zpos m) < IZR (2 ^ 52))%R by (apply IZR_lt; lia). nra.
    + rewrite <- H1. apply Rlt_le_trans with (F2R (2 ^ 53) (-53)).
      * apply Rle_lt_trans with (F2R (Zpos m) (-53)).
        -- unfold F2R. assert (bpow e <= bpow (-53))%R by (apply bpow_le; lia).
           assert (0 < IZR (Zpos m))%R by (apply IZR_lt; lia). nra.
        -- unfold F2R. pose proof (bpow_pos (-53)).
           assert (IZR (Zpos m) < IZR (2 ^ 53))%R by (apply IZR_lt; lia). nra.
      * replace (-52) with (-53 + 1) by lia. rewrite <- F2R_shift by lia.
        apply F2R_le. change (2 ^ 52 * 2 ^ 1) with (2 ^ 53). lia.
Qed.

Lemma leb_zero_nonneg f :
  leb zero f = true -> (0 <= B2R f)%R /\ sign_of f = false \/ exists s, f = S754_zero s.
Proof.
  unfold leb, SFleb, zero, SFcompare.
  destruct f as [s|s| |s m e]; try discriminate.
  - right. eauto.
  - destruct s; try discriminate. intros _. left. cbn. lra.
  - destruct s; try discriminate. intros _. left. split; [|reflexivity].
    cbn [B2R cond_Zopp]. pose proof (F2R_pos (Zpos m) e ltac:(lia)). lra.
Qed.

Lemma int_ltb_0_pos f :
  int_ltb 0 f = true ->
  f = S754_infinity false \/ exists m e, f = S754_finite false m e.
Proof.
  unfold int_ltb, compare_int.
  destruct f as [s|s| |s m e]; try discriminate.
  - destruct s; try discriminate. auto.
  - intros H. right. exists m, e. destruct s; [|reflexivity]. exfalso.
    cbn [cond_Zopp] in H.
    destruct (0 <=? e) eqn:He.
    + assert (0 < 2 ^ e) by (apply Z.pow_pos_nonneg; lia).
      destruct (Z.compare_spec 0 (- Zpos m * 2 ^ e)); try discriminate; nia.
    + destruct (Z.compare_spec (0 * 2 ^ (- e)) (- Zpos m)); try discriminate; lia.
Qed.

End Rounding.

(** * The shadow threshold and the shadow factor *)

Section ShadowFacts.
Import PyFloat.

Lemma B2R_zero_point_seven :
  B2R zero_point_seven = (6305039478318694 / 9007199254740992)%R.
Proof.
  cbn [B2R zero_point_seven cond_Zopp]. unfold F2R. change (-53) with (- (53)).
  rewrite bpow_opp, (bpow_IZR 53) by lia.
  change (IZR (2 ^ 53)) with 9007199254740992%R. reflexivity.
Qed.

Lemma eta_small : (eta <= / 8)%R.
Proof.
  unfold eta. transitivity (bpow (- (3))); [apply bpow_le; lia|].
  rewrite bpow_opp, (bpow_IZR 3) by lia. change (IZR (2 ^ 3)) with 8%R. lra.
Qed.

Lemma eps_small : (0 < eps <= / 1024)%R.
Proof. unfold eps. lra. Qed.

Lemma valid_zero_point_seven : valid zero_point_seven.
Proof. reflexivity. Qed.

Lemma valid_one : valid one.
Proof. reflexivity. Qed.

(** [int(height * 0.7)] lies below [height]; the only possible failure is
    the conversion of a [height] beyond the range of a float. *)
Lemma shadow_start_spec height :
  1 <= height ->
  match shadow_start height with
  | Ok s => 0 <= s < height
  | Raise e => e = OverflowError IntTooLargeForFloat /\ (fmax <= IZR height)%R
  end.
Proof.
  intros Hh. unfold shadow_start, int_mul.
  pose proof (of_int_spec height) as Hof.
  assert (Hhr : (1 <= IZR height)%R) by (apply IZR_le; exact Hh).
  destruct (of_int height) as [f|e]; cbn [res_bind].
  - destruct Hof as [Ha Hf].
    pose proof (approx_valid _ _ Ha) as Hv.
    destruct (approx_bound _ _ Ha Hf) as (Hb & Hpos & _).
    specialize (Hpos ltac:(lra)).
    rewrite (Rabs_right (IZR height)) in Hb by lra.
    rewrite (Rabs_right (B2R f)) in Hb by lra.
    pose proof (mul_spec f zero_point_seven Hv valid_zero_point_seven Hf eq_refl) as Hm.
    rewrite B2R_zero_point_seven in Hm.
    pose proof (valid_le_fmax f Hv) as Hmax.
    rewrite (Rabs_right (B2R f)) in Hmax by lra.
    pose proof fmax_pos. pose proof eta_small. pose proof eta_pos. pose proof eps_small.
    set (c := (6305039478318694 / 9007199254740992)%R) in *.
    assert (Hc : (0 < c < 71 / 100)%R) by (unfold c; lra).
    assert (Hfin : is_finite (mul f zero_point_seven) = true).
    { apply (approx_finite _ _ Hm). rewrite Rabs_right by nra. nra. }
    destruct (approx_bound _ _ Hm Hfin) as (Hb2 & Hpos2 & _).
    specialize (Hpos2 ltac:(nra)).
    rewrite (Rabs_right (B2R f * c)) in Hb2 by nra.
    rewrite (Rabs_right (B2R (mul f zero_point_seven))) in Hb2 by lra.
    destruct (to_int_spec _ Hfin) as (k & -> & Hk & _).
    destruct (Hk Hpos2) as [Hk0 Hkle].
    split; [exact Hk0|]. apply lt_IZR.
    assert (A1 : (IZR height * eps <= IZR height * / 1024)%R) by nra.
    assert (A2 : (B2R f * c <= B2R f * (71 / 100))%R) by nra.
    assert (A4 : (0 <= B2R f * c)%R) by nra.
    assert (A3 : (B2R f * c * eps <= B2R f * c * / 1024)%R)
      by (apply Rmult_le_compat_l; lra).
    lra.
  - destruct Hof as [-> Hof]. split; [reflexivity|].
    rewrite Rabs_right in Hof by lra. exact Hof.
Qed.

End ShadowFacts.

(** * No arithmetic failure on well-formed input *)

(** A finite float of magnitude below [2^k]. *)
Definition magnitude_below (k : Z) (f : PyFloat.float) : bool :=
  match f with
  | S754_zero _ => true
  | S754_finite _ m e => Zdigits2 (Zpos m) + e <=? k
  | _ => false
  end.

Definition is_byte (c : Z) : bool := (0 <=? c) && (c <=? 255).

(** [0.0 <= f <= 1.0] *)
Definition unit_interval (f : PyFloat.float) : bool :=
  PyFloat.leb PyFloat.zero f && PyFloat.leb f PyFloat.one.

Section Totality.
Import PyFloat.

Lemma magnitude_below_spec k f :
  magnitude_below k f = true -> is_finite f = true /\ (Rabs (B2R f) < bpow k)%R.
Proof.
  destruct f as [s|s| |s m e]; try discriminate; cbn [magnitude_below]; intros H.
  - split; [reflexivity|]. cbn [B2R]. rewrite Rabs_R0. apply bpow_pos.
  - split; [reflexivity|]. rewrite Rabs_B2R_finite.
    apply Z.leb_le in H.
    eapply Rlt_le_trans; [apply F2R_digits_upper; lia|]. apply bpow_le. exact H.
Qed.

Lemma fmax_ge k : k <= 1023 -> (bpow k <= fmax)%R.
Proof.
  intros Hk. transitivity (bpow 1023); [apply bpow_le; exact Hk|].
  unfold fmax. change 1023 with (52 + 971). rewrite bpow_add, (bpow_IZR 52) by lia.
  pose proof (bpow_pos 971).
  assert (IZR (2 ^ 52) <= IZR (2 ^ 53 - 1))%R by (apply IZR_le; lia). nra.
Qed.

Lemma fmax_gt k : k < 1023 -> (bpow k < fmax)%R.
Proof.
  intros Hk. eapply Rlt_le_trans; [apply (bpow_lt k 1023); exact Hk|].
  apply fmax_ge. lia.
Qed.

Lemma bpow_ge_1 k : 0 <= k -> (1 <= bpow k)%R.
Proof. intros Hk. change 1%R with (bpow 0). apply bpow_le. exact Hk. Qed.

Lemma eta_tiny : (eta <= / 1048576)%R.
Proof.
  unfold eta. transitivity (bpow (- (20))); [apply bpow_le; lia|].
  rewrite bpow_opp, (bpow_IZR 20) by lia. change (IZR (2 ^ 20)) with 1048576%R. lra.
Qed.

Lemma eps_tiny : (0 < eps <= / 1048576)%R.
Proof. unfold eps. lra. Qed.

(** A float that approximates a real of absolute value at most [K]. *)
Definition within (K : R) (f : float) : Prop :=
  valid f /\ is_finite f = true /\ (Rabs (B2R f) <= K)%R.

Lemma approx_within v f K :
  approx v f -> (Rabs v <= K)%R -> (1 <= K)%R -> (2 * K < fmax)%R ->
  within (2 * K) f.
Proof.
  intros Ha Hv HK Hmax.
  assert (Hf : is_finite f = true) by (apply (approx_finite _ _ Ha); lra).
  destruct (approx_bound _ _ Ha Hf) as (Hb & _).
  pose proof eta_tiny. pose proof eps_tiny. pose proof (Rabs_pos v).
  split; [exact (approx_valid _ _ Ha)|]. split; [exact Hf|].
  assert (Rabs v * eps <= K * / 1048576)%R.
  { apply Rmult_le_compat; lra. }
  lra.
Qed.

Lemma of_int_within n :
  - 2 ^ 63 <= n <= 2 ^ 63 ->
  exists f, of_int n = Ok f /\ approx (IZR n) f /\ within (bpow 64) f.
Proof.
  intros Hn. pose proof (of_int_spec n) as H.
  assert (Hr : (Rabs (IZR n) <= bpow 63)%R).
  { rewrite (bpow_IZR 63) by lia. rewrite <- abs_IZR. apply IZR_le. lia. }
  pose proof (fmax_ge 64 ltac:(lia)) as Hm.
  assert (Hb : bpow 64 = (2 * bpow 63)%R).
  { change 64 with (1 + 63). rewrite bpow_add, (bpow_IZR 1) by lia. reflexivity. }
  pose proof (bpow_ge_1 63 ltac:(lia)).
  pose proof (fmax_ge 65 ltac:(lia)) as Hm'.
  assert (Hb' : bpow 65 = (2 * bpow 64)%R).
  { change 65 with (1 + 64). rewrite bpow_add, (bpow_IZR 1) by lia. reflexivity. }
  destruct (of_int n) as [f|e].
  - destruct H as [Ha Hf]. exists f. split; [reflexivity|]. split; [exact Ha|].
    rewrite Hb. apply (approx_within (IZR n)); auto; lra.
  - destruct H as [_ H]. exfalso. lra.
Qed.

Lemma sub_within x y K :
  within K x -> within K y -> (1 <= K)%R -> (4 * K < fmax)%R ->
  approx (B2R x - B2R y) (sub x y) /\ within (4 * K) (sub x y).
Proof.
  intros (Vx & Fx & Bx) (Vy & Fy & By) HK Hmax.
  pose proof (sub_spec x y Vx Vy Fx Fy) as Ha. split; [exact Ha|].
  replace (4 * K)%R with (2 * (2 * K))%R by ring.
  apply (approx_within _ _ _ Ha); try lra.
  pose proof (Rabs_triang (B2R x) (- B2R y)) as Ht.
  rewrite Rabs_Ropp in Ht. unfold Rminus. lra.
Qed.


Lemma within_mono K K' f : within K f -> (K <= K')%R -> within K' f.
Proof. intros (V & F & B) H. split; [exact V|]. split; [exact F|lra]. Qed.

Lemma bpow_times4 k k' : k' = k + 2 -> bpow k' = (4 * bpow k)%R.
Proof.
  intros ->. rewrite bpow_add, (bpow_IZR 2) by lia. change (IZR (2 ^ 2)) with 4%R. ring.
Qed.

Lemma magnitude_below_within k f :
  valid f -> magnitude_below k f = true -> within (bpow k) f.
Proof.
  intros V H. apply magnitude_below_spec in H as [F B].
  split; [exact V|]. split; [exact F|lra].
Qed.

Lemma far_center_within size radius :
  - 2 ^ 63 <= size <= 2 ^ 63 -> within (bpow 500) radius ->
  exists f, far_center size radius = Ok f /\ within (bpow 504) f.
Proof.
  intros Hs Hr. unfold far_center, int_sub, sub_int.
  destruct (of_int_within size Hs) as (w & -> & _ & Hw). cbn [res_bind].
  destruct (of_int_within 1 ltac:(lia)) as (i & -> & _ & Hi). cbn [res_bind].
  eexists. split; [reflexivity|].
  pose proof (fmax_ge 502 ltac:(lia)). pose proof (fmax_ge 504 ltac:(lia)).
  pose proof (bpow_ge_1 500 ltac:(lia)). pose proof (bpow_ge_1 502 ltac:(lia)).
  assert (Hd : within (bpow 502) (sub w radius)).
  { rewrite (bpow_times4 500 502 eq_refl). apply sub_within; try lra.
    - apply (within_mono _ _ _ Hw). apply bpow_le. lia.
    - exact Hr.
    - rewrite <- (bpow_times4 500 502 eq_refl). apply fmax_gt. lia. }
  rewrite (bpow_times4 502 504 eq_refl). apply sub_within; try lra.
  - exact Hd.
  - apply (within_mono _ _ _ Hi). apply bpow_le. lia.
  - rewrite <- (bpow_times4 502 504 eq_refl). apply fmax_gt. lia.
Qed.

Lemma int_sub_within x c :
  - 2 ^ 63 <= x <= 2 ^ 63 -> within (bpow 504) c ->
  exists d, int_sub x c = Ok d /\ within (bpow 506) d.
Proof.
  intros Hx Hc. unfold int_sub.
  destruct (of_int_within x Hx) as (w & -> & _ & Hw). cbn [res_bind].
  eexists. split; [reflexivity|].
  pose proof (fmax_ge 506 ltac:(lia)). pose proof (bpow_ge_1 504 ltac:(lia)).
  rewrite (bpow_times4 504 506 eq_refl). apply sub_within; try lra.
  - apply (within_mono _ _ _ Hw). apply bpow_le. lia.
  - exact Hc.
  - rewrite <- (bpow_times4 504 506 eq_refl). apply fmax_gt. lia.
Qed.

(** Floats that are not negative numbers: what [math.sqrt] accepts. *)
Definition sqrt_domain (f : float) : Prop :=
  match f with
  | S754_finite true _ _ | S754_infinity true => False
  | _ => True
  end.

Lemma binary_round_aux_sign s m e l :
  match binary_round_aux prec emax s m e l with
  | S754_zero s' | S754_finite s' _ _ | S754_infinity s' => s' = s
  | S754_nan => True
  end.
Proof.
  unfold binary_round_aux.
  destruct (shr_fexp prec emax m e l) as [mrs e'].
  destruct (shr_fexp prec emax _ e' loc_Exact) as [mrs' e''].
  destruct (shr_m mrs'); try reflexivity.
  destruct (e'' <=? emax - prec); reflexivity.
Qed.

Lemma pow2_sqrt_domain f r : pow2 f = Ok r -> sqrt_domain r.
Proof.
  destruct f as [s|s| |s m e]; cbn [pow2]; try (intros [= <-]; exact I).
  unfold mul, SFmul.
  pose proof (binary_round_aux_sign (xorb s s) (Zpos (m * m)) (e + e) loc_Exact) as H.
  destruct (binary_round_aux prec emax (xorb s s) (Zpos (m * m)) (e + e) loc_Exact);
    try discriminate; intros [= <-]; try exact I.
  cbn [sqrt_domain]. rewrite H. destruct s; exact I.
Qed.

Lemma add_sqrt_domain x y :
  sqrt_domain x -> sqrt_domain y -> sqrt_domain (add x y).
Proof.
  destruct x as [[]|[]| |[] mx ex], y as [[]|[]| |[] my ey];
    cbn [sqrt_domain add SFadd]; try tauto.
  intros _ _. cbn [cond_Zopp]. cbv zeta.
  destruct (shl_align_spec mx ex (Z.min ex ey)) as (m1 & e1 & -> & _ & _).
  destruct (shl_align_spec my ey (Z.min ex ey)) as (m2 & e2 & -> & _ & _).
  cbn [fst]. change (Zpos m1 + Zpos m2) with (Zpos (m1 + m2)).
  cbn [binary_normalize]. unfold binary_round.
  destruct (shl_align (m1 + m2) (Z.min ex ey) _) as [mz ez].
  pose proof (binary_round_aux_sign false (Zpos mz) ez loc_Exact) as H.
  destruct (binary_round_aux prec emax false (Zpos mz) ez loc_Exact);
    try exact I; subst; exact I.
Qed.

Lemma sqrt_ok f : sqrt_domain f -> exists r, sqrt f = Ok r.
Proof.
  destruct f as [s|[]| |[] m e]; cbn [sqrt_domain sqrt]; intros H;
    try contradiction; eexists; reflexivity.
Qed.

Lemma pow2_within d :
  within (bpow 506) d -> exists r, pow2 d = Ok r.
Proof.
  intros (V & F & B). destruct d as [s|s| |s m e]; try discriminate;
    cbn [pow2]; try (eexists; reflexivity).
  pose proof (mul_spec _ _ V V F F) as Ha.
  assert (Hf : is_finite (mul (S754_finite s m e) (S754_finite s m e)) = true).
  { apply (approx_finite _ _ Ha). rewrite Rabs_mult.
    pose proof (fmax_ge 1013 ltac:(lia)) as Hm.
    pose proof (Rabs_pos (B2R (S754_finite s m e))).
    assert (bpow 506 * bpow 506 < bpow 1013)%R.
    { rewrite <- bpow_add. apply bpow_lt. lia. }
    assert (Rabs (B2R (S754_finite s m e)) * Rabs (B2R (S754_finite s m e))
            <= bpow 506 * bpow 506)%R by (apply Rmult_le_compat; lra).
    lra. }
  destruct (mul (S754_finite s m e) (S754_finite s m e)); try discriminate;
    eexists; reflexivity.
Qed.

Lemma corner_dist_total x y cx cy :
  - 2 ^ 63 <= x <= 2 ^ 63 -> - 2 ^ 63 <= y <= 2 ^ 63 ->
  within (bpow 504) cx -> within (bpow 504) cy ->
  exists d, corner_dist x y cx cy = Ok d.
Proof.
  intros Hx Hy Hcx Hcy. unfold corner_dist.
  destruct (int_sub_within x cx Hx Hcx) as (dx & -> & Hdx). cbn [res_bind].
  destruct (pow2_within dx Hdx) as (dx2 & Hdx2). rewrite Hdx2. cbn [res_bind].
  destruct (int_sub_within y cy Hy Hcy) as (dy & -> & Hdy). cbn [res_bind].
  destruct (pow2_within dy Hdy) as (dy2 & Hdy2). rewrite Hdy2. cbn [res_bind].
  apply sqrt_ok, add_sqrt_domain; eapply pow2_sqrt_domain; eassumption.
Qed.


(** The corner distance is always a valid float. *)
Lemma round_post_valid s v r : round_post s v r -> valid r.
Proof. destruct r; cbn [round_post]; try reflexivity. intros (_ & H & _). exact H. Qed.

Lemma div_valid x y : valid (div x y).
Proof.
  destruct x as [sx|sx| |sx mx ex], y as [sy|sy| |sy my ey]; try reflexivity.
  unfold div, SFdiv.
  destruct (div_core_spec (Zpos mx) ex (Zpos my) ey ltac:(lia) ltac:(lia))
    as (q & e & l & -> & Hq & He & _).
  eapply round_post_valid. apply binary_round_aux_spec; eassumption.
Qed.

Lemma corner_scan_valid x y width height radius cs d :
  corner_scan x y width height radius cs = Ok d -> valid d.
Proof.
  induction cs as [|[cx cy] cs IH]; cbn [corner_scan].
  - intros [= <-]. reflexivity.
  - destruct (in_corner x width radius cx) as [bx|]; cbn [res_bind]; [|discriminate].
    destruct (in_corner y height radius cy) as [by_|]; cbn [res_bind]; [|discriminate].
    destruct (bx && by_); [|exact IH].
    destruct (corner_dist x y cx cy) as [dist|]; cbn [res_bind]; [|discriminate].
    destruct (gtb dist radius); [intros [= <-]; reflexivity|].
    destruct (gtb dist (sub radius one_point_five)); [|exact IH].
    intros [= <-]. apply div_valid.
Qed.

Lemma distance_to_corner_valid x y width height radius d :
  distance_to_corner x y width height radius = Ok d -> valid d.
Proof.
  unfold distance_to_corner.
  destruct (corners width height radius) as [cs|]; cbn [res_bind]; [|discriminate].
  apply corner_scan_valid.
Qed.

(** The corner distance of a pixel of a well-formed image is computed
    without error. *)
Lemma in_corner_total p size radius c f :
  far_center size radius = Ok f -> exists b, in_corner p size radius c = Ok b.
Proof.
  intros Hf. unfold in_corner. rewrite Hf. cbn [res_bind].
  destruct (int_ltb p radius && eqb c radius); [eexists; reflexivity|].
  destruct (int_gtb p f); eexists; reflexivity.
Qed.

Lemma corner_scan_total x y width height radius fw fh cs :
  - 2 ^ 63 <= x <= 2 ^ 63 -> - 2 ^ 63 <= y <= 2 ^ 63 ->
  far_center width radius = Ok fw -> far_center height radius = Ok fh ->
  Forall (fun c => within (bpow 504) (fst c) /\ within (bpow 504) (snd c)) cs ->
  exists d, corner_scan x y width height radius cs = Ok d.
Proof.
  intros Hx Hy Hfw Hfh. induction 1 as [|[cx cy] cs [Hcx Hcy] _ IH]; cbn [corner_scan].
  - eexists; reflexivity.
  - destruct (in_corner_total x width radius cx fw Hfw) as (bx & ->). cbn [res_bind].
    destruct (in_corner_total y height radius cy fh Hfh) as (by_ & ->). cbn [res_bind].
    destruct (bx && by_); [|exact IH].
    destruct (corner_dist_total x y cx cy Hx Hy Hcx Hcy) as (dist & ->). cbn [res_bind].
    destruct (gtb dist radius); [eexists; reflexivity|].
    destruct (gtb dist (sub radius one_point_five)); [eexists; reflexivity|exact IH].
Qed.

Lemma distance_to_corner_total x y width height radius :
  - 2 ^ 63 <= x <= 2 ^ 63 -> - 2 ^ 63 <= y <= 2 ^ 63 ->
  - 2 ^ 63 <= width <= 2 ^ 63 -> - 2 ^ 63 <= height <= 2 ^ 63 ->
  valid radius -> magnitude_below 500 radius = true ->
  exists d, distance_to_corner x y width height radius = Ok d /\ valid d.
Proof.
  intros Hx Hy Hw Hh Vr Mr.
  pose proof (magnitude_below_within 500 radius Vr Mr) as Hr.
  assert (Hr' : within (bpow 504) radius).
  { apply (within_mono _ _ _ Hr). apply bpow_le. lia. }
  destruct (far_center_within width radius Hw Hr) as (fw & Hfw & Bw).
  destruct (far_center_within height radius Hh Hr) as (fh & Hfh & Bh).
  assert (exists d, distance_to_corner x y width height radius = Ok d) as (d & Hd).
  { unfold distance_to_corner, corners. rewrite Hfw, Hfh. cbn [res_bind].
    apply (corner_scan_total x y width height radius fw fh); auto.
    repeat (constructor; [split; assumption|]). constructor. }
  exists d. split; [exact Hd|]. eapply distance_to_corner_valid. exact Hd.
Qed.


(** The shadow factor. *)
Lemma unit_interval_spec ms :
  valid ms -> unit_interval ms = true ->
  is_finite ms = true /\ (0 <= B2R ms <= 1)%R.
Proof.
  intros V H. apply andb_true_iff in H as [H0 H1].
  assert (F : is_finite ms = true).
  { destruct ms as [s|[]| |s m e]; try reflexivity; discriminate. }
  split; [exact F|]. split.
  - destruct (leb_zero_nonneg ms H0) as [[H _]|[s ->]]; [exact H|cbn; lra].
  - apply leb_one_le; assumption.
Qed.

Lemma within_one : within 1 one.
Proof.
  split; [exact valid_one|]. split; [reflexivity|].
  rewrite B2R_one, Rabs_R1. lra.
Qed.

Lemma fmax_big : (1048576 < fmax)%R.
Proof.
  eapply Rle_lt_trans; [|apply (fmax_gt 20); lia].
  rewrite (bpow_IZR 20) by lia. change (IZR (2 ^ 20)) with 1048576%R. lra.
Qed.

Lemma int_below_fmax n : 0 <= n < 2 ^ 1023 -> (IZR n < fmax)%R.
Proof.
  intros Hn. eapply Rlt_le_trans; [|apply (fmax_ge 1023); lia].
  rewrite (bpow_IZR 1023) by lia. apply IZR_lt. lia.
Qed.

Lemma get_shadow_factor_total y height ms :
  1 <= height < 2 ^ 1023 -> 0 <= y < height ->
  valid ms -> unit_interval ms = true ->
  exists sf, get_shadow_factor y height ms = Ok sf /\ within 16 sf.
Proof.
  intros Hh Hy V U. destruct (unit_interval_spec ms V U) as [Fm Bm].
  pose proof fmax_big as Hbig.
  unfold get_shadow_factor.
  pose proof (shadow_start_spec height ltac:(lia)) as Hs.
  destruct (shadow_start height) as [s|e]; cbn [res_bind].
  2:{ exfalso. destruct Hs as [_ Hs].
      pose proof (int_below_fmax height ltac:(lia)). lra. }
  destruct (y <? s) eqn:Hys.
  { exists one. split; [reflexivity|]. apply (within_mono _ _ _ within_one). lra. }
  apply Z.ltb_ge in Hys.
  pose proof (int_truediv_spec (y - s) (height - s) ltac:(lia)) as Hd.
  assert (Hv : (0 <= IZR (y - s) / IZR (height - s) <= 1)%R).
  { assert (0 < IZR (height - s))%R by (apply IZR_lt; lia).
    assert (0 <= IZR (y - s))%R by (apply IZR_le; lia).
    assert (IZR (y - s) <= IZR (height - s))%R by (apply IZR_le; lia).
    split.
    - apply Rmult_le_pos; [lra|]. apply Rlt_le, Rinv_0_lt_compat. lra.
    - apply Rmult_le_reg_r with (IZR (height - s)); [lra|].
      unfold Rdiv. rewrite Rmult_assoc, Rinv_l by lra. lra. }
  destruct (int_truediv (y - s) (height - s)) as [p|e]; cbn [res_bind].
  2:{ exfalso. destruct Hd as [_ Hd]. rewrite Rabs_right in Hd by lra. lra. }
  destruct Hd as [Ha Fp].
  assert (Wp : within (2 * 1) p).
  { apply (approx_within _ _ _ Ha); try lra. rewrite Rabs_right by lra. lra. }
  destruct Wp as (Vp & _ & Bp).
  pose proof (mul_spec p ms Vp V Fp Fm) as Hm.
  assert (Wm : within (2 * 2) (mul p ms)).
  { apply (approx_within _ _ _ Hm); try lra. rewrite Rabs_mult.
    rewrite (Rabs_right (B2R ms)) by lra.
    pose proof (Rabs_pos (B2R p)). nra. }
  eexists. split; [reflexivity|].
  replace 16%R with (4 * 4)%R by ring.
  apply sub_within; try lra.
  - apply (within_mono _ _ _ within_one). lra.
  - apply (within_mono _ _ _ Wm). lra.
Qed.

(** Scaling a byte channel. *)
Lemma is_byte_spec c : is_byte c = true -> 0 <= c <= 255.
Proof. unfold is_byte. intros H. apply andb_true_iff in H as [H0 H1]. lia. Qed.

Lemma of_int_byte c :
  is_byte c = true ->
  exists f, of_int c = Ok f /\ valid f /\ is_finite f = true
            /\ (0 <= B2R f <= IZR c + / 1000)%R.
Proof.
  intros Hc. apply is_byte_spec in Hc.
  destruct (of_int_within c ltac:(lia)) as (f & Hf & Ha & (V & F & _)).
  exists f. split; [exact Hf|]. split; [exact V|]. split; [exact F|].
  destruct (approx_bound _ _ Ha F) as (Hb & Hp & _).
  assert (H0 : (0 <= IZR c)%R) by (apply IZR_le; lia).
  assert (H1 : (IZR c <= 255)%R) by (apply IZR_le; lia).
  specialize (Hp H0). rewrite !Rabs_right in Hb by lra.
  pose proof eta_tiny. pose proof eps_tiny.
  assert (IZR c * eps <= 255 * / 1048576)%R by (apply Rmult_le_compat; lra).
  lra.
Qed.

Lemma scale_total c f :
  is_byte c = true -> within 16 f -> exists k, scale c f = Ok k.
Proof.
  intros Hc (V & F & B). unfold scale, int_mul.
  destruct (of_int_byte c Hc) as (cf & -> & Vc & Fc & Bc). cbn [res_bind].
  apply is_byte_spec in Hc.
  assert (H1 : (IZR c <= 255)%R) by (apply IZR_le; lia).
  pose proof (mul_spec cf f Vc V Fc F) as Hm.
  assert (Hfin : is_finite (mul cf f) = true).
  { apply (approx_finite _ _ Hm). rewrite Rabs_mult.
    rewrite (Rabs_right (B2R cf)) by lra.
    assert (B2R cf * Rabs (B2R f) <= 256 * 16)%R.
    { apply Rmult_le_compat; try lra. apply Rabs_pos. }
    pose proof fmax_big. lra. }
  destruct (to_int_spec _ Hfin) as (k & -> & _). eexists; reflexivity.
Qed.

Lemma scale_le c f :
  is_byte c = true -> valid f -> is_finite f = true ->
  (0 <= B2R f <= 1 + / 500000)%R ->
  exists k, scale c f = Ok k /\ 0 <= k <= c.
Proof.
  intros Hc V F B. unfold scale, int_mul.
  destruct (of_int_byte c Hc) as (cf & -> & Vc & Fc & Bc). cbn [res_bind].
  apply is_byte_spec in Hc.
  assert (H1 : (IZR c <= 255)%R) by (apply IZR_le; lia).
  pose proof (mul_spec cf f Vc V Fc F) as Hm.
  pose proof fmax_big. pose proof eta_tiny. pose proof eps_tiny.
  assert (Hp : (0 <= B2R cf * B2R f)%R) by (apply Rmult_le_pos; lra).
  assert (Hu : (B2R cf * B2R f <= IZR c + / 100)%R).
  { assert (B2R cf * B2R f <= (IZR c + / 1000) * (1 + / 500000))%R
      by (apply Rmult_le_compat; lra).
    assert (IZR c * / 500000 <= 255 * / 500000)%R by lra. lra. }
  assert (Hfin : is_finite (mul cf f) = true).
  { apply (approx_finite _ _ Hm). rewrite Rabs_right by lra. lra. }
  destruct (approx_bound _ _ Hm Hfin) as (Hb & Hpos & _).
  specialize (Hpos Hp). rewrite !Rabs_right in Hb by lra.
  destruct (to_int_spec _ Hfin) as (k & -> & Hk & _).
  destruct (Hk Hpos) as [Hk0 Hkle].
  eexists. split; [reflexivity|]. split; [exact Hk0|].
  assert (B2R cf * B2R f * eps <= 256 * / 1048576)%R
    by (apply Rmult_le_compat; lra).
  assert (IZR k < IZR (c + 1))%R by (rewrite plus_IZR; lra).
  apply lt_IZR in H4. lia.
Qed.

(** [1.0 - d] for a corner distance strictly between 0 and 1. *)
Lemma one_minus_fraction d :
  valid d -> int_ltb 0 d = true -> geb d one = false ->
  let f := sub one d in
  valid f /\ is_finite f = true /\ (0 <= B2R f <= 1 + / 500000)%R.
Proof.
  intros V Hpos Hlt f.
  assert (Hd : exists m e, d = S754_finite false m e).
  { destruct (int_ltb_0_pos d Hpos) as [->|H]; [discriminate|exact H]. }
  destruct Hd as (m & e & ->).
  pose proof (not_geb_one_lt _ V Hlt eq_refl eq_refl) as Hd1.
  assert (Hd0 : (0 < B2R (S754_finite false m e))%R).
  { cbn [B2R cond_Zopp]. apply F2R_pos. lia. }
  pose proof (sub_spec one _ valid_one V eq_refl eq_refl) as Ha.
  rewrite B2R_one in Ha. fold f in Ha.
  pose proof fmax_big. pose proof eta_tiny. pose proof eps_tiny.
  assert (Hfin : is_finite f = true).
  { apply (approx_finite _ _ Ha). rewrite Rabs_right by lra. lra. }
  destruct (approx_bound _ _ Ha Hfin) as (Hb & Hp & _).
  specialize (Hp ltac:(lra)). rewrite !Rabs_right in Hb by lra.
  split; [exact (approx_valid _ _ Ha)|]. split; [exact Hfin|].
  split; [exact Hp|].
  assert ((1 - B2R (S754_finite false m e)) * eps <= 1 * / 1048576)%R
    by (apply Rmult_le_compat; lra).
  lra.
Qed.

End Totality.
(** * Rounding from below, and truncation *)

Section RoundingBelow.
Import PyFloat.

(** What the first stage of [binary_round_aux] drops is less than one
    unit of the new exponent. *)
Lemma shr_fexp_first_below m e l :
  0 <= m ->
  let e0 := fexp prec emax (Zdigits2 m + e) in
  e <= e0 ->
  exists mrs,
    shr_fexp prec emax m e l = (mrs, e0)
    /\ m < (shr_m mrs + 1) * 2 ^ (e0 - e).
Proof.
  intros Hm e0 He.
  destruct (shr_fexp_spec m e l Hm) as [[Hn Heq]|[Hn (mrs & Heq & Hq)]];
    fold e0 in Hn, Heq.
  - assert (e0 = e) by lia. exists (shr_record_of_loc m l).
    rewrite shr_record_of_loc_m. replace (e0 - e) with 0 by lia.
    split; [congruence|]. change (2 ^ 0) with 1. lia.
  - exists mrs. replace (e + (e0 - e)) with e0 in Heq by lia.
    split; [exact Heq|]. fold e0 in Hq. rewrite Hq.
    set (n := e0 - e) in *.
    assert (Hpn : 0 < 2 ^ n) by (apply Z.pow_pos_nonneg; lia).
    pose proof (Z.div_mod m (2 ^ n) ltac:(lia)).
    pose proof (Z.mod_pos_bound m (2 ^ n) Hpn). nia.
Qed.

(** The float [binary_round_aux] returns is below the exact value by at
    most one unit in the last place. *)
Lemma binary_round_aux_below s m e l :
  0 <= m -> e <= fexp prec emax (Zdigits2 m + e) ->
  is_finite (binary_round_aux prec emax s m e l) = true ->
  (F2R m e * (1 - eps) - eta
   <= Rabs (B2R (binary_round_aux prec emax s m e l)))%R.
Proof.
  intros Hm He. unfold binary_round_aux.
  set (e0 := fexp prec emax (Zdigits2 m + e)) in *.
  assert (He0 : e0 = Z.max (Zdigits2 m + e - 53) (-1074)) by apply fexp_eq.
  destruct (shr_fexp_first m e l Hm He) as (mrs & Heq & Hle & Hrange & Hnorm & _).
  destruct (shr_fexp_first_below m e l Hm He) as (mrs' & Heq' & Hlow).
  fold e0 in Heq, Hle, Hnorm, Heq', Hlow.
  rewrite Heq in Heq'. injection Heq' as <-. rewrite Heq.
  set (m2 := round_nearest_even (shr_m mrs) (loc_of_shr_record mrs)).
  pose proof (round_nearest_even_bounds (shr_m mrs) (loc_of_shr_record mrs)) as Hm2.
  fold m2 in Hm2.
  destruct (shr_fexp_second m2 e0) as (mrs2 & e3 & Heq2 & He3 & Hval & Hnn & Hcanon);
    [lia | lia | intros; specialize (Hnorm ltac:(assumption)); lia |].
  rewrite Heq2.
  assert (Hpos : -1074 < e0 -> 0 < m).
  { intros Hsub. destruct (Z.eq_dec m 0) as [->|]; [|lia].
    change (Zdigits2 0) with 0 in *. lia. }
  assert (H3 : (bpow e0 <= F2R m e * eps + eta)%R).
  { pose proof eta_pos. pose proof (bpow_pos e).
    assert (0 <= F2R m e)%R.
    { unfold F2R. apply IZR_le in Hm. nra. }
    destruct (Z.eq_dec e0 (-1074)) as [->|Hne].
    - unfold eta, eps. lra.
    - assert (e0 = (Zdigits2 m - 1 + e) + -52) as -> by lia.
      rewrite bpow_add, bpow_m52.
      pose proof (F2R_digits_lower m e ltac:(lia)). unfold eps in *. nra. }
  assert (Hv : (F2R m e * (1 - eps) - eta <= F2R (shr_m mrs2) e3)%R).
  { replace e3 with (e0 + (e3 - e0)) by lia.
    rewrite <- F2R_shift, Hval by lia.
    assert (H1 : (F2R (shr_m mrs) e0 <= F2R m2 e0)%R) by (apply F2R_le; lia).
    assert (H2 : (F2R m e <= F2R (shr_m mrs + 1) e0)%R).
    { replace e0 with (e + (e0 - e)) at 1 by lia.
      rewrite <- F2R_shift by lia. apply F2R_le. lia. }
    unfold F2R in H2 |- *. unfold F2R in H1. rewrite plus_IZR in H2.
    unfold F2R in H3. lra. }
  destruct (shr_m mrs2) as [|p|p] eqn:Hm3.
  - intros _. cbn [B2R]. rewrite Rabs_R0.
    unfold F2R in Hv at 2. rewrite Rmult_0_l in Hv. exact Hv.
  - change (emax - prec) with 971.
    destruct (e3 <=? 971) eqn:Hfin; [|discriminate].
    intros _. rewrite Rabs_B2R_finite. exact Hv.
  - lia.
Qed.

Lemma binary_round_below s mx ex :
  is_finite (binary_round prec emax s mx ex) = true ->
  (F2R (Zpos mx) ex * (1 - eps) - eta
   <= Rabs (B2R (binary_round prec emax s mx ex)))%R.
Proof.
  unfold binary_round.
  destruct (shl_align_spec mx ex (fexp prec emax (Zpos (digits2_pos mx) + ex)))
    as (mz & ez & Heq & Hez & Hmz).
  rewrite Heq.
  assert (Hv : F2R (Zpos mz) ez = F2R (Zpos mx) ex).
  { rewrite Hmz, F2R_shift by lia. f_equal. lia. }
  rewrite <- Hv. apply binary_round_aux_below; [lia|].
  rewrite Hmz, Zdigits2_shift by lia.
  replace (Zdigits2 (Zpos mx) + (ex - ez) + ez) with (Zpos (digits2_pos mx) + ex)
    by (cbn [Zdigits2]; lia).
  lia.
Qed.

Lemma binary_normalize_below m e sz :
  is_finite (binary_normalize prec emax m e sz) = true ->
  (Rabs (F2R m e) * (1 - eps) - eta
   <= Rabs (B2R (binary_normalize prec emax m e sz)))%R.
Proof.
  destruct m as [|p|p]; cbn [binary_normalize]; intros Hf.
  - cbn [B2R]. rewrite F2R_0, Rabs_R0. pose proof eta_pos. lra.
  - pose proof (F2R_pos (Zpos p) e ltac:(lia)).
    rewrite Rabs_right by lra. apply binary_round_below. exact Hf.
  - pose proof (F2R_pos (Zpos p) e ltac:(lia)).
    change (Zneg p) with (- Zpos p). rewrite F2R_opp, Rabs_Ropp, Rabs_right by lra.
    apply binary_round_below. exact Hf.
Qed.

(** ** Error of one operation *)

(** The float [r] is within one unit in the last place of the real [v]. *)
Definition close_to (v : R) (r : float) : Prop :=
  (Rabs (B2R r - v) <= Rabs v * eps + eta)%R.

Lemma approx_close_to v r :
  approx v r -> is_finite r = true ->
  (Rabs v * (1 - eps) - eta <= Rabs (B2R r))%R -> close_to v r.
Proof.
  intros Ha Hf Hlow. destruct (approx_bound _ _ Ha Hf) as (Hup & Hp & Hn).
  unfold close_to. destruct (Rle_dec 0 v) as [Hv|Hv].
  - specialize (Hp Hv). rewrite (Rabs_right v) in * by lra.
    rewrite (Rabs_right (B2R r)) in * by lra. apply Rabs_le. lra.
  - specialize (Hn ltac:(lra)). rewrite (Rabs_left1 v) in * by lra.
    rewrite (Rabs_left1 (B2R r)) in * by lra. apply Rabs_le. lra.
Qed.

Lemma mul_close_to x y :
  valid x -> valid y -> is_finite x = true -> is_finite y = true ->
  is_finite (mul x y) = true -> close_to (B2R x * B2R y) (mul x y).
Proof.
  intros Hx Hy Fx Fy Fm.
  apply approx_close_to; [apply mul_spec; assumption|exact Fm|].
  pose proof eta_pos.
  destruct x as [sx|sx| |sx mx ex], y as [sy|sy| |sy my ey]; try discriminate;
    try (cbn [B2R]; rewrite ?Rmult_0_l, ?Rmult_0_r, Rabs_R0;
         match goal with |- (_ <= Rabs ?t)%R => pose proof (Rabs_pos t) end;
         lra).
  rewrite Rabs_mult, !Rabs_B2R_finite.
  unfold mul, SFmul in Fm |- *.
  apply valid_finite_inv in Hx as [Hcx _], Hy as [Hcy _].
  rewrite fexp_eq in Hcx, Hcy.
  pose proof (Zdigits2_mul_lower (Zpos mx) (Zpos my) ltac:(lia) ltac:(lia)) as Hd.
  cbn [Zdigits2] in Hd.
  replace (F2R (Zpos mx) ex * F2R (Zpos my) ey)%R
    with (F2R (Zpos (mx * my)) (ex + ey)).
  - apply binary_round_aux_below; [lia| |exact Fm].
    rewrite fexp_eq. rewrite Pos2Z.inj_mul. lia.
  - unfold F2R. rewrite Pos2Z.inj_mul, mult_IZR, bpow_add. ring.
Qed.

Lemma sub_close_to x y :
  valid x -> valid y -> is_finite x = true -> is_finite y = true ->
  is_finite (sub x y) = true -> close_to (B2R x - B2R y) (sub x y).
Proof.
  intros Hx Hy Fx Fy Fs.
  apply approx_close_to; [apply sub_spec; assumption|exact Fs|].
  pose proof eta_pos. assert (0 < eps)%R by (unfold eps; lra).
  destruct x as [sx|sx| |sx mx ex], y as [sy|sy| |sy my ey]; try discriminate.
  - cbn [B2R]. rewrite Rminus_0_r, Rabs_R0.
    pose proof (Rabs_pos (B2R (sub (S754_zero sx) (S754_zero sy)))). lra.
  - unfold sub, SFsub. rewrite B2R_opp_finite. cbn [B2R].
    rewrite Rminus_0_l.
    pose proof (Rabs_pos (- F2R (cond_Zopp sy (Zpos my)) ey)). nra.
  - unfold sub, SFsub. cbn [B2R]. rewrite Rminus_0_r.
    pose proof (Rabs_pos (F2R (cond_Zopp sx (Zpos mx)) ex)). nra.
  - unfold sub, SFsub in Fs |- *. cbv zeta in Fs |- *.
    cbn [B2R].
    rewrite <- (shl_align_value sx mx ex (Z.min ex ey)) by lia.
    rewrite <- (shl_align_value sy my ey (Z.min ex ey)) by lia.
    rewrite <- F2R_minus.
    apply binary_normalize_below. exact Fs.
Qed.

(** ** Truncation *)

(** [k] is the real [p] truncated toward zero, which is what [int(p)]
    returns. *)
Definition truncated (p : R) (k : Z) : Prop :=
  ((0 <= p)%R -> (IZR k <= p < IZR k + 1)%R)
  /\ ((p <= 0)%R -> (IZR k - 1 < p <= IZR k)%R).

Lemma shiftl_F2R_above m e :
  0 < m -> (F2R m e < IZR (Z.shiftl m e) + 1)%R.
Proof.
  intros Hm. destruct (Z_le_gt_dec 0 e).
  - rewrite Z.shiftl_mul_pow2 by lia.
    unfold F2R. rewrite mult_IZR, <- bpow_IZR by lia. lra.
  - rewrite Z.shiftl_div_pow2 by lia.
    assert (Hp : 0 < 2 ^ (- e)) by (apply Z.pow_pos_nonneg; lia).
    pose proof (Z.div_mod m (2 ^ (- e)) ltac:(lia)) as Hdm.
    pose proof (Z.mod_pos_bound m (2 ^ (- e)) Hp) as Hmod.
    replace (IZR (m / 2 ^ (- e)) + 1)%R
      with (F2R ((m / 2 ^ (- e) + 1) * 2 ^ (- e)) e).
    + unfold F2R. pose proof (bpow_pos e).
      assert (IZR m < IZR ((m / 2 ^ (- e) + 1) * 2 ^ (- e)))%R by (apply IZR_lt; nia).
      nra.
    + rewrite F2R_shift by lia. replace (e + - e) with 0 by lia.
      unfold F2R, bpow. cbn. rewrite plus_IZR. ring.
Qed.

Lemma to_int_truncated f :
  is_finite f = true -> exists k, to_int f = Ok k /\ truncated (B2R f) k.
Proof.
  destruct f as [s|s| |s m e]; try discriminate; intros _.
  - exists 0. cbn [to_int B2R]. split; [reflexivity|]. split; intros; lra.
  - cbn [to_int B2R]. eexists. split; [reflexivity|].
    destruct (shiftl_F2R (Zpos m) e ltac:(lia)) as [Hk Hle].
    apply IZR_le in Hk.
    pose proof (shiftl_F2R_above (Zpos m) e ltac:(lia)) as Hlt.
    pose proof (F2R_pos (Zpos m) e ltac:(lia)).
    rewrite F2R_cond_Zopp. destruct s; cbn [cond_Zopp].
    + unfold truncated. rewrite opp_IZR. split; intros; lra.
    + unfold truncated. split; intros; lra.
Qed.

(** ** Small integers are floats *)

Lemma of_int_exact n :
  0 <= n < 2 ^ 53 ->
  exists f, of_int n = Ok f /\ valid f /\ is_finite f = true /\ B2R f = IZR n.
Proof.
  intros Hn. pose proof (of_int_spec n) as Hs. unfold of_int in *.
  destruct n as [|p|p]; try lia.
  - cbn [binary_normalize] in *. eexists. split; [reflexivity|].
    split; [reflexivity|]. split; reflexivity.
  - cbn [binary_normalize] in *.
    pose proof (digits2_pos_spec p) as [Hlo Hhi].
    assert (Hd : Zpos (digits2_pos p) <= 53).
    { destruct (Z_le_gt_dec (Zpos (digits2_pos p)) 53); auto.
      assert (2 ^ 53 <= 2 ^ (Zpos (digits2_pos p) - 1))
        by (apply Z.pow_le_mono_r; lia). lia. }
    pose proof (binary_round_exact false p 0) as He. cbv zeta in He.
    rewrite fexp_eq in He. rewrite He in * by lia.
    eexists. split; [reflexivity|]. destruct Hs as [Ha Hf].
    split; [exact (approx_valid _ _ Ha)|]. split; [reflexivity|].
    cbn [B2R cond_Zopp].
    set (e' := Z.max (Zpos (digits2_pos p) + 0 - 53) (-1074)) in *.
    assert (0 < 2 ^ (0 - e')) by (apply Z.pow_pos_nonneg; lia).
    rewrite Z2Pos.id by lia. rewrite F2R_shift by lia.
    replace (e' + (0 - e')) with 0 by lia. unfold F2R, bpow. cbn. ring.
Qed.

End RoundingBelow.

(** * [int(c * f)] for a byte *)

(** [k] is [int(c * f)] as binary64 arithmetic computes it: the product
    of the integer [c] and the real value of [f], off by the rounding of
    one multiplication (less than [2^-43] for a byte and a factor of
    magnitude at most 2), then truncated toward zero. *)
Definition int_of_product (c : Z) (f : PyFloat.float) (k : Z) : Prop :=
  exists p : R,
    truncated p k /\ (Rabs (p - IZR c * B2R f) <= bpow (-43))%R.

Section ChannelProduct.
Import PyFloat.

Lemma Rabs_le_bounds x y : (Rabs x <= y)%R -> (- y <= x <= y)%R.
Proof. unfold Rabs. destruct (Rcase_abs x); lra. Qed.

Lemma eta_le_eps : (eta <= eps)%R.
Proof. unfold eta. rewrite <- bpow_m52. apply bpow_le. lia. Qed.

Lemma bpow_m43 : bpow (-43) = (512 * eps)%R.
Proof.
  change (-43) with (9 + -52). rewrite bpow_add, bpow_m52, (bpow_IZR 9) by lia.
  reflexivity.
Qed.

Lemma bpow_m42 : bpow (-42) = (1024 * eps)%R.
Proof.
  change (-42) with (10 + -52). rewrite bpow_add, bpow_m52, (bpow_IZR 10) by lia.
  reflexivity.
Qed.

(** What [scale] returns for a byte: the binary64 product, truncated. *)
Lemma scale_product c f k :
  is_byte c = true -> valid f -> is_finite f = true -> (Rabs (B2R f) <= 2)%R ->
  scale c f = Ok k ->
  exists cf,
    of_int c = Ok cf
    /\ truncated (B2R (mul cf f)) k
    /\ (Rabs (B2R (mul cf f) - IZR c * B2R f) <= bpow (-43))%R
    /\ ((0 <= B2R f)%R -> (0 <= B2R (mul cf f))%R).
Proof.
  intros Hc V F B Hk. apply is_byte_spec in Hc.
  destruct (of_int_exact c ltac:(lia)) as (cf & Hcf & Vc & Fc & Ec).
  unfold scale, int_mul in Hk. rewrite Hcf in Hk. cbn [res_bind] in Hk.
  exists cf. split; [exact Hcf|].
  pose proof (mul_spec cf f Vc V Fc F) as Hm.
  assert (H0 : (0 <= IZR c)%R) by (apply IZR_le; lia).
  assert (H1 : (IZR c <= 255)%R) by (apply IZR_le; lia).
  pose proof (Rabs_pos (B2R f)) as Hf0.
  assert (Hv : (Rabs (B2R cf * B2R f) <= 510)%R).
  { rewrite Rabs_mult, Ec, (Rabs_right (IZR c)) by lra. nra. }
  pose proof fmax_big.
  assert (Hfin : is_finite (mul cf f) = true).
  { apply (approx_finite _ _ Hm). lra. }
  destruct (to_int_truncated _ Hfin) as (k' & Hk' & Ht).
  rewrite Hk' in Hk. injection Hk as <-. split; [exact Ht|].
  split.
  - pose proof (mul_close_to cf f Vc V Fc F Hfin) as Hcl. unfold close_to in Hcl.
    rewrite Ec in Hcl, Hv. rewrite bpow_m43.
    pose proof eta_le_eps. assert (0 < eps)%R by (unfold eps; lra).
    assert (Rabs (IZR c * B2R f) * eps <= 510 * eps)%R by nra.
    lra.
  - intros Hpos. destruct (approx_bound _ _ Hm Hfin) as (_ & Hp & _).
    apply Hp. rewrite Ec. nra.
Qed.

Lemma scale_int_of_product c f k :
  is_byte c = true -> valid f -> is_finite f = true -> (Rabs (B2R f) <= 2)%R ->
  scale c f = Ok k -> int_of_product c f k.
Proof.
  intros Hc V F B Hk.
  destruct (scale_product c f k Hc V F B Hk) as (cf & _ & Ht & He & _).
  exists (B2R (mul cf f)). split; [exact Ht|exact He].
Qed.

(** The alpha of the antialiasing band: the binary64 product
    [a * (1.0 - d)] is within [2^-42] of the real [a * (1 - d)], and the
    new alpha is its floor. *)
Lemma fade_product a d k :
  is_byte a = true -> valid d -> int_ltb 0 d = true -> geb d one = false ->
  scale a (sub one d) = Ok k ->
  exists af p,
    of_int a = Ok af
    /\ p = B2R (mul af (sub one d))
    /\ (IZR k <= p < IZR k + 1)%R
    /\ (Rabs (p - IZR a * (1 - B2R d)) <= bpow (-42))%R.
Proof.
  intros Ha V Hpos Hge Hk.
  destruct (one_minus_fraction d V Hpos Hge) as (Vf & Ff & Bf).
  assert (Hd : exists m e, d = S754_finite false m e).
  { destruct (int_ltb_0_pos d Hpos) as [->|H]; [discriminate|exact H]. }
  destruct Hd as (m & e & ->).
  pose proof (not_geb_one_lt _ V Hge eq_refl eq_refl) as Hd1.
  assert (Hd0 : (0 < B2R (S754_finite false m e))%R).
  { cbn [B2R cond_Zopp]. apply F2R_pos. lia. }
  set (d := S754_finite false m e) in *.
  assert (Bf2 : (Rabs (B2R (sub one d)) <= 2)%R) by (rewrite Rabs_right; lra).
  destruct (scale_product a (sub one d) k Ha Vf Ff Bf2 Hk) as (af & Haf & Ht & He & Hp).
  exists af, (B2R (mul af (sub one d))).
  split; [exact Haf|]. split; [reflexivity|].
  split; [apply Ht, Hp; lra|].
  pose proof (sub_close_to one d valid_one V eq_refl eq_refl Ff) as Hcl.
  unfold close_to in Hcl. rewrite B2R_one in Hcl.
  rewrite (Rabs_right (1 - B2R d)) in Hcl by lra.
  apply is_byte_spec in Ha.
  assert (H0 : (0 <= IZR a)%R) by (apply IZR_le; lia).
  assert (H1 : (IZR a <= 255)%R) by (apply IZR_le; lia).
  pose proof eta_le_eps. assert (0 < eps)%R by (unfold eps; lra).
  rewrite bpow_m43 in He. rewrite bpow_m42.
  apply Rabs_le_bounds in He. apply Rabs_le_bounds in Hcl. apply Rabs_le.
  assert ((1 - B2R d) * eps <= eps)%R by nra.
  set (F := B2R (sub one d)) in *. set (D := B2R d) in *.
  set (P := B2R (mul af (sub one d))) in *.
  assert (IZR a * (F - (1 - D)) <= 255 * (2 * eps))%R by nra.
  assert (- (255 * (2 * eps)) <= IZR a * (F - (1 - D)))%R by nra.
  lra.
Qed.

End ChannelProduct.

(** * The pixel transformer as a function on lists *)

Section TransformerSpec.
Import PyFloat.

(** What one iteration computes from the four channels of its pixel. *)
Definition new_pixel (width height : Z) (radius max_shadow : float)
    (y x : Z) (p : Z * Z * Z * Z) : res (Z * Z * Z * Z) :=
  let '(b, g, r, a) := p in
  let? corner_dist := distance_to_corner x y width height radius in
  if geb corner_dist one then Ok (0, 0, 0, 0)
  else if int_ltb 0 corner_dist then
    let? new_alpha := scale a (sub one corner_dist) in
    Ok (b, g, r, new_alpha)
  else
    let? shadow_factor := get_shadow_factor y height max_shadow in
    if ltb shadow_factor one then
      let? nb := scale b shadow_factor in
      let? ng := scale g shadow_factor in
      let? nr := scale r shadow_factor in
      Ok (nb, ng, nr, a)
    else Ok (b, g, r, a).

(** The four channels stored from index [i] on. *)
Definition get_pixel (i : nat) (l : list Z) : option (Z * Z * Z * Z) :=
  match l !! i, l !! S i, l !! S (S i), l !! S (S (S i)) with
  | Some b, Some g, Some r, Some a => Some (b, g, r, a)
  | _, _, _, _ => None
  end.

Definition set_pixel (i : nat) (p : Z * Z * Z * Z) (l : list Z) : list Z :=
  let '(b, g, r, a) := p in
  <[S (S (S i)) := a]> (<[S (S i) := r]> (<[S i := g]> (<[i := b]> l))).

Definition pixel_index (width y x : Z) : nat := Z.to_nat ((y * width + x) * 4).

(** One iteration as a function on the list. *)
Definition pixel_step (width height : Z) (radius max_shadow : float)
    (y x : Z) (l : list Z) : res (list Z) :=
  match get_pixel (pixel_index width y x) l with
  | Some p =>
      let? p' := new_pixel width height radius max_shadow y x p in
      Ok (set_pixel (pixel_index width y x) p' l)
  | None => Raise IndexError
  end.

Fixpoint fold_res {A S} (step : A -> S -> res S) (xs : list A) (s : S) : res S :=
  match xs with
  | [] => Ok s
  | x :: rest => let? s' := step x s in fold_res step rest s'
  end.

Definition row_step (width height : Z) (radius max_shadow : float)
    (y : Z) (l : list Z) : res (list Z) :=
  fold_res (pixel_step width height radius max_shadow y) (range width) l.

Definition transform (width height : Z) (radius max_shadow : float)
    (l : list Z) : res (list Z) :=
  fold_res (row_step width height radius max_shadow) (range height) l.

(** ** Store operations on a known list *)

Lemma length_set_pixel i p l : length (set_pixel i p l) = length l.
Proof. destruct p as [[[b g] r] a]. unfold set_pixel. rewrite !length_insert. reflexivity. Qed.

Lemma index_in_range (l : list Z) i :
  0 <= i < Z.of_nat (length l) -> PyList.index l i = Some (Z.to_nat i).
Proof.
  intros H. unfold PyList.index.
  destruct (Z.ltb_spec i 0); [lia|].
  destruct (Z.leb_spec 0 i); [|lia].
  destruct (Z.ltb_spec i (Z.of_nat (length l))); [|lia]. reflexivity.
Qed.

Lemma getitem_insert (h : gmap positive (list Z)) m (l : list Z) i v :
  0 <= i -> l !! Z.to_nat i = Some v ->
  PyList.getitem m i (<[m := l]> h) = (Ok v, <[m := l]> h).
Proof.
  intros Hi Hv. unfold PyList.getitem. rewrite lookup_insert_eq.
  apply lookup_lt_Some in Hv as Hlt.
  rewrite index_in_range by lia. rewrite Hv. reflexivity.
Qed.

Lemma setitem_insert (h : gmap positive (list Z)) m (l : list Z) i v :
  0 <= i < Z.of_nat (length l) ->
  PyList.setitem m i v (<[m := l]> h) = (Ok tt, <[m := <[Z.to_nat i := v]> l]> h).
Proof.
  intros Hi. unfold PyList.setitem. rewrite lookup_insert_eq.
  rewrite index_in_range by lia. rewrite insert_insert_eq. reflexivity.
Qed.

Lemma mbind_lift {A B} (r : res A) (k : A -> M B) h :
  mbind (lift r) k h = match r with Ok a => k a h | Raise e => (Raise e, h) end.
Proof. unfold mbind, lift. destruct r; reflexivity. Qed.


Lemma mbind_eq {A B} (m : M A) (k : A -> M B) h a h' :
  m h = (Ok a, h') -> mbind m k h = k a h'.
Proof. intros H. unfold mbind. rewrite H. reflexivity. Qed.

Lemma get_pixel_Some i l b g r a :
  get_pixel i l = Some (b, g, r, a) ->
  l !! i = Some b /\ l !! S i = Some g /\ l !! S (S i) = Some r
  /\ l !! S (S (S i)) = Some a.
Proof.
  unfold get_pixel.
  destruct (l !! i), (l !! S i), (l !! S (S i)), (l !! S (S (S i)));
    try discriminate. intros [= -> -> -> ->]. auto.
Qed.

Lemma set_pixel_same i l p : get_pixel i l = Some p -> set_pixel i p l = l.
Proof.
  destruct p as [[[b g] r] a]. intros H.
  apply get_pixel_Some in H as (Hb & Hg & Hr & Ha). unfold set_pixel.
  rewrite (list_insert_id l i b Hb), (list_insert_id l _ g Hg),
    (list_insert_id l _ r Hr), (list_insert_id l _ a Ha). reflexivity.
Qed.

(** The loop body acts on the store as [pixel_step] acts on the list. *)
Lemma modify_pixel_spec (h : gmap positive (list Z)) m width height radius max_shadow y x l p :
  0 <= (y * width + x) * 4 ->
  get_pixel (pixel_index width y x) l = Some p ->
  match new_pixel width height radius max_shadow y x p with
  | Ok p' =>
      modify_pixel m width height radius max_shadow y x (<[m := l]> h)
      = (Ok tt, <[m := set_pixel (pixel_index width y x) p' l]> h)
  | Raise e =>
      exists l',
        modify_pixel m width height radius max_shadow y x (<[m := l]> h)
        = (Raise e, <[m := l']> h)
        /\ length l' = length l
  end.
Proof.
  intros Hidx Hp. destruct p as [[[b g] r] a].
  pose proof (set_pixel_same _ _ _ Hp) as Hsame.
  apply get_pixel_Some in Hp as (Hb & Hg & Hr & Ha).
  unfold pixel_index in *. set (idx := (y * width + x) * 4) in *.
  set (i := Z.to_nat idx) in *.
  assert (E1 : Z.to_nat (idx + 1) = S i) by lia.
  assert (E2 : Z.to_nat (idx + 2) = S (S i)) by lia.
  assert (E3 : Z.to_nat (idx + 3) = S (S (S i))) by lia.
  apply lookup_lt_Some in Ha as Hlen.
  unfold modify_pixel. fold idx.
  rewrite (mbind_eq _ _ _ b (<[m := l]> h)) by (apply getitem_insert; [lia|exact Hb]).
  rewrite (mbind_eq _ _ _ g (<[m := l]> h)) by (apply getitem_insert; [lia|rewrite E1; exact Hg]).
  rewrite (mbind_eq _ _ _ r (<[m := l]> h)) by (apply getitem_insert; [lia|rewrite E2; exact Hr]).
  rewrite (mbind_eq _ _ _ a (<[m := l]> h)) by (apply getitem_insert; [lia|rewrite E3; exact Ha]).
  rewrite mbind_lift. unfold new_pixel.
  destruct (distance_to_corner x y width height radius) as [d|e]; cbn [res_bind];
    [|exists l; split; reflexivity].
  destruct (geb d one).
  { erewrite mbind_eq by (apply setitem_insert; rewrite ?length_insert; lia).
    erewrite mbind_eq by (apply setitem_insert; rewrite ?length_insert; lia).
    erewrite mbind_eq by (apply setitem_insert; rewrite ?length_insert; lia).
    rewrite setitem_insert by (rewrite ?length_insert; lia).
    rewrite E1, E2, E3. reflexivity. }
  destruct (int_ltb 0 d).
  { rewrite mbind_lift.
    destruct (scale a (sub one d)) as [na|e]; cbn [res_bind];
      [|exists l; split; reflexivity].
    rewrite setitem_insert by lia. rewrite E3.
    unfold set_pixel.
    rewrite (list_insert_id l i b Hb), (list_insert_id l _ g Hg),
      (list_insert_id l _ r Hr). reflexivity. }
  rewrite mbind_lift.
  destruct (get_shadow_factor y height max_shadow) as [sf|e]; cbn [res_bind];
    [|exists l; split; reflexivity].
  destruct (ltb sf one).
  2:{ unfold mret. rewrite Hsame. reflexivity. }
  rewrite mbind_lift.
  destruct (scale b sf) as [nb|e]; cbn [res_bind]; [|exists l; split; reflexivity].
  erewrite mbind_eq by (apply setitem_insert; rewrite ?length_insert; lia).
  rewrite mbind_lift.
  destruct (scale g sf) as [ng|e]; cbn [res_bind];
    [|eexists; split; [reflexivity|rewrite length_insert; reflexivity]].
  erewrite mbind_eq by (apply setitem_insert; rewrite ?length_insert; lia).
  rewrite mbind_lift.
  destruct (scale r sf) as [nr|e]; cbn [res_bind];
    [|eexists; split; [reflexivity|rewrite !length_insert; reflexivity]].
  rewrite setitem_insert by (rewrite !length_insert; lia).
  rewrite E1, E2. fold i. unfold set_pixel.
  f_equal. f_equal. symmetry. apply list_insert_id.
  rewrite !list_lookup_insert_ne by lia. exact Ha.
Qed.


(** A loop over the store follows the fold of its step over the list. *)
Lemma for_each_fold {A} (body : A -> M unit) (step : A -> list Z -> res (list Z))
    (I : list Z -> Prop) (h : gmap positive (list Z)) m (xs : list A) :
  (forall a l, a ∈ xs -> I l ->
     match step a l with
     | Ok l' => body a (<[m := l]> h) = (Ok tt, <[m := l']> h) /\ I l'
     | Raise e => exists l', body a (<[m := l]> h) = (Raise e, <[m := l']> h) /\ I l'
     end) ->
  forall l, I l ->
    match fold_res step xs l with
    | Ok l' => for_each xs body (<[m := l]> h) = (Ok tt, <[m := l']> h) /\ I l'
    | Raise e =>
        exists l', for_each xs body (<[m := l]> h) = (Raise e, <[m := l']> h) /\ I l'
    end.
Proof.
  induction xs as [|a xs IH]; intros Hbody l Hl; cbn [fold_res for_each].
  - split; [reflexivity|exact Hl].
  - specialize (Hbody a l (list_elem_of_here a xs) Hl) as Ha.
    destruct (step a l) as [l1|e]; cbn [res_bind].
    + destruct Ha as [Ha Hl1]. rewrite (mbind_eq _ _ _ _ _ Ha).
      apply IH; [|exact Hl1].
      intros a' l' Hin. apply Hbody. apply list_elem_of_further. exact Hin.
    + destruct Ha as (l1 & Ha & Hl1). exists l1. split; [|exact Hl1].
      unfold mbind. rewrite Ha. reflexivity.
Qed.

Lemma elem_of_range n i : i ∈ range n <-> 0 <= i < n.
Proof. unfold range. rewrite elem_of_seqZ. lia. Qed.

Lemma get_pixel_in_range width height y x (l : list Z) :
  Z.of_nat (length l) = width * height * 4 ->
  0 <= x < width -> 0 <= y < height ->
  0 <= (y * width + x) * 4
  /\ exists p, get_pixel (pixel_index width y x) l = Some p.
Proof.
  intros Hlen Hx Hy.
  assert (Hk : 0 <= y * width + x < width * height) by nia.
  split; [lia|]. unfold get_pixel, pixel_index.
  set (i := Z.to_nat ((y * width + x) * 4)).
  assert (Hi : (S (S (S i)) < length l)%nat) by lia.
  destruct (lookup_lt_is_Some_2 l i ltac:(lia)) as [b ->].
  destruct (lookup_lt_is_Some_2 l (S i) ltac:(lia)) as [g ->].
  destruct (lookup_lt_is_Some_2 l (S (S i)) ltac:(lia)) as [r ->].
  destruct (lookup_lt_is_Some_2 l (S (S (S i))) ltac:(lia)) as [a ->].
  eexists; reflexivity.
Qed.

Lemma row_spec (h : gmap positive (list Z)) m width height radius max_shadow y l :
  0 <= y < height -> Z.of_nat (length l) = width * height * 4 ->
  match row_step width height radius max_shadow y l with
  | Ok l' =>
      for_each (range width)
        (fun x => modify_pixel m width height radius max_shadow y x) (<[m := l]> h)
      = (Ok tt, <[m := l']> h)
      /\ Z.of_nat (length l') = width * height * 4
  | Raise e =>
      exists l',
        for_each (range width)
          (fun x => modify_pixel m width height radius max_shadow y x) (<[m := l]> h)
        = (Raise e, <[m := l']> h)
        /\ Z.of_nat (length l') = width * height * 4
  end.
Proof.
  intros Hy Hlen. unfold row_step.
  apply (for_each_fold _ _ (fun l => Z.of_nat (length l) = width * height * 4));
    [|exact Hlen].
  intros x l0 Hx Hl0. apply elem_of_range in Hx.
  destruct (get_pixel_in_range width height y x l0 Hl0 Hx Hy) as (Hidx & p & Hp).
  pose proof (modify_pixel_spec h m width height radius max_shadow y x l0 p Hidx Hp) as H.
  unfold pixel_step. rewrite Hp.
  destruct (new_pixel width height radius max_shadow y x p) as [p'|e]; cbn [res_bind].
  - split; [exact H|]. rewrite length_set_pixel. exact Hl0.
  - destruct H as (l' & H & Hlen'). exists l'. split; [exact H|]. rewrite Hlen'. exact Hl0.
Qed.

Lemma image_spec (h : gmap positive (list Z)) m width height radius max_shadow l :
  Z.of_nat (length l) = width * height * 4 ->
  match transform width height radius max_shadow l with
  | Ok l' =>
      for_each (range height) (fun y =>
        for_each (range width) (fun x =>
          modify_pixel m width height radius max_shadow y x)) (<[m := l]> h)
      = (Ok tt, <[m := l']> h)
      /\ Z.of_nat (length l') = width * height * 4
  | Raise e =>
      exists l',
        for_each (range height) (fun y =>
          for_each (range width) (fun x =>
            modify_pixel m width height radius max_shadow y x)) (<[m := l]> h)
        = (Raise e, <[m := l']> h)
        /\ Z.of_nat (length l') = width * height * 4
  end.
Proof.
  intros Hlen. unfold transform.
  apply (for_each_fold _ _ (fun l => Z.of_nat (length l) = width * height * 4));
    [|exact Hlen].
  intros y l0 Hy Hl0. apply elem_of_range in Hy.
  apply row_spec; assumption.
Qed.

(** [apply_modifications] in terms of [transform]. *)
Lemma apply_modifications_spec (h : gmap positive (list Z)) pixels width height
    radius max_shadow l :
  h !! pixels = Some l ->
  let n := Z.of_nat (length l) in
  let m := fresh (dom h) in
  if n =? width * height * 4 then
    match transform width height radius max_shadow l with
    | Ok l' =>
        apply_modifications pixels width height radius max_shadow h
        = (Ok m, <[m := l']> h)
        /\ length l' = length l
    | Raise e =>
        exists l',
          apply_modifications pixels width height radius max_shadow h
          = (Raise e, <[m := l']> h)
    end
  else
    apply_modifications pixels width height radius max_shadow h
    = (Raise (ValueError (PixelCount n width height)), h).
Proof.
  intros Hl n m. unfold apply_modifications.
  rewrite (mbind_eq _ _ _ n h) by (unfold PyList.len; rewrite Hl; reflexivity).
  destruct (n =? width * height * 4) eqn:Hn; cbn [negb]; [|reflexivity].
  apply Z.eqb_eq in Hn.
  rewrite (mbind_eq _ _ _ m (<[m := l]> h))
    by (unfold PyList.copy; rewrite Hl; reflexivity).
  pose proof (image_spec h m width height radius max_shadow l Hn) as H.
  destruct (transform width height radius max_shadow l) as [l'|e].
  - destruct H as [H Hlen]. rewrite (mbind_eq _ _ _ _ _ H).
    split; [reflexivity|]. fold n in Hn. lia.
  - destruct H as (l' & H & _). exists l'. unfold mbind. rewrite H. reflexivity.
Qed.

Lemma fresh_not_allocated (h : gmap positive (list Z)) : h !! fresh (dom h) = None.
Proof. apply not_elem_of_dom. apply is_fresh. Qed.

End TransformerSpec.

(** * What the transformer writes *)

Section TransformResult.
Import PyFloat.

Lemma lookup_set_pixel_ne i p (l : list Z) j :
  (j < i \/ i + 3 < j)%nat -> set_pixel i p l !! j = l !! j.
Proof.
  intros Hj. destruct p as [[[b g] r] a]. unfold set_pixel.
  rewrite !list_lookup_insert_ne by lia. reflexivity.
Qed.

Lemma get_set_pixel_eq i p (l : list Z) :
  (i + 3 < length l)%nat -> get_pixel i (set_pixel i p l) = Some p.
Proof.
  intros Hi. destruct p as [[[b g] r] a]. unfold get_pixel, set_pixel.
  rewrite (list_lookup_insert_ne _ _ i), (list_lookup_insert_ne _ _ i),
    (list_lookup_insert_ne _ _ i) by lia.
  rewrite list_lookup_insert_eq by lia.
  rewrite (list_lookup_insert_ne _ _ (S i)), (list_lookup_insert_ne _ _ (S i)) by lia.
  rewrite list_lookup_insert_eq by (rewrite ?length_insert; lia).
  rewrite (list_lookup_insert_ne _ _ (S (S i))) by lia.
  rewrite list_lookup_insert_eq by (rewrite ?length_insert; lia).
  rewrite list_lookup_insert_eq by (rewrite ?length_insert; lia).
  reflexivity.
Qed.

Lemma get_pixel_ext i (l l' : list Z) :
  (forall j, (i <= j <= i + 3)%nat -> l' !! j = l !! j) ->
  get_pixel i l' = get_pixel i l.
Proof.
  intros H. unfold get_pixel.
  rewrite (H i), (H (S i)), (H (S (S i))), (H (S (S (S i)))) by lia. reflexivity.
Qed.

Lemma fold_res_seqZ {S} (step : Z -> S -> res S) (I : Z -> S -> Prop) n :
  forall m s,
    0 <= n -> I m s ->
    (forall i s s', m <= i < m + n -> I i s -> step i s = Ok s' -> I (i + 1) s') ->
    forall s', fold_res step (seqZ m n) s = Ok s' -> I (m + n) s'.
Proof.
  intros m s Hn. revert m s.
  pattern n. apply natlike_ind; [| |exact Hn]; clear n Hn.
  - intros m s Hs _ s'. rewrite seqZ_nil by lia. cbn. intros [= <-].
    replace (m + 0) with m by lia. exact Hs.
  - intros n Hn IH m s Hs Hstep s'.
    rewrite seqZ_cons by lia. cbn [fold_res].
    destruct (step m s) as [s1|e] eqn:E; cbn [res_bind]; [|discriminate].
    replace (Z.pred (Z.succ n)) with n by lia.
    intros Hf. replace (m + Z.succ n) with (Z.succ m + n) by lia.
    apply (IH (Z.succ m) s1); [| |exact Hf].
    + replace (Z.succ m) with (m + 1) by lia. apply (Hstep m s); [lia|exact Hs|exact E].
    + intros i t t' Hi. apply Hstep. lia.
Qed.

Lemma fold_res_seqZ_total {S} (step : Z -> S -> res S) (I : Z -> S -> Prop) n :
  forall m s,
    I m s ->
    (forall i s, m <= i < m + n -> I i s -> exists s', step i s = Ok s' /\ I (i + 1) s') ->
    exists s', fold_res step (seqZ m n) s = Ok s'.
Proof.
  destruct (Z_lt_le_dec n 0) as [Hneg|Hn].
  { intros m s _ _. rewrite seqZ_nil by lia. eexists; reflexivity. }
  pattern n. apply natlike_ind; [| |exact Hn]; clear n Hn.
  - intros m s _ _. rewrite seqZ_nil by lia. eexists; reflexivity.
  - intros n Hn IH m s Hs Hstep.
    rewrite seqZ_cons by lia. cbn [fold_res].
    destruct (Hstep m s ltac:(lia) Hs) as (s1 & -> & Hs1). cbn [res_bind].
    replace (Z.pred (Z.succ n)) with n by lia.
    apply (IH (Z.succ m) s1).
    + replace (Z.succ m) with (m + 1) by lia. exact Hs1.
    + intros i t Hi. apply Hstep. lia.
Qed.

Section Image.
Variables (width height : Z) (radius max_shadow : float) (l0 : list Z).
Hypothesis Hw : 0 < width.
Hypothesis Hlen : Z.of_nat (length l0) = width * height * 4.

(** After [K] pixels in row-major order: the first [K] pixels hold their
    new channels, the others are untouched. *)
Definition processed (K : Z) (l : list Z) : Prop :=
  length l = length l0
  /\ (forall j : nat, 4 * K <= Z.of_nat j -> l !! j = l0 !! j)
  /\ (forall y x, 0 <= x < width -> 0 <= y -> y * width + x < K ->
        exists p p',
          get_pixel (pixel_index width y x) l0 = Some p
          /\ new_pixel width height radius max_shadow y x p = Ok p'
          /\ get_pixel (pixel_index width y x) l = Some p').

Lemma processed_0 : processed 0 l0.
Proof. split; [reflexivity|]. split; [reflexivity|]. intros y x Hx Hy HK. nia. Qed.

Lemma pixel_step_processed y x l :
  0 <= x < width -> 0 <= y < height -> processed (y * width + x) l ->
  exists p,
    get_pixel (pixel_index width y x) l0 = Some p
    /\ match new_pixel width height radius max_shadow y x p with
       | Ok p' =>
           exists l', pixel_step width height radius max_shadow y x l = Ok l'
                      /\ processed (y * width + x + 1) l'
       | Raise e => pixel_step width height radius max_shadow y x l = Raise e
       end.
Proof.
  intros Hx Hy (HL & Hrest & Hdone).
  destruct (get_pixel_in_range width height y x l0 Hlen Hx Hy) as (Hidx & p & Hp).
  exists p. split; [exact Hp|].
  assert (Hk : 0 <= y * width + x < width * height) by nia.
  assert (Hpl : get_pixel (pixel_index width y x) l = Some p).
  { rewrite <- Hp. apply get_pixel_ext. intros j Hj. apply Hrest.
    unfold pixel_index in Hj. lia. }
  unfold pixel_step. rewrite Hpl.
  destruct (new_pixel width height radius max_shadow y x p) as [p'|e] eqn:E;
    cbn [res_bind]; [|reflexivity].
  eexists. split; [reflexivity|].
  set (i := pixel_index width y x) in *.
  assert (Hi : Z.of_nat i = (y * width + x) * 4) by (unfold i, pixel_index; lia).
  split; [rewrite length_set_pixel; exact HL|]. split.
  - intros j Hj. rewrite lookup_set_pixel_ne by lia. apply Hrest. lia.
  - intros y' x' Hx' Hy' HK.
    destruct (Z.eq_dec (y' * width + x') (y * width + x)) as [Heq|Hne].
    + assert (y' = y) by nia. subst y'. assert (x' = x) by lia. subst x'.
      exists p, p'. split; [exact Hp|]. split; [exact E|].
      apply get_set_pixel_eq. lia.
    + destruct (Hdone y' x' Hx' Hy' ltac:(lia)) as (q & q' & Hq & Hn & Hq').
      exists q, q'. split; [exact Hq|]. split; [exact Hn|].
      rewrite <- Hq'. apply get_pixel_ext. intros j Hj.
      apply lookup_set_pixel_ne. unfold pixel_index in Hj. lia.
Qed.

Lemma row_step_processed y l l' :
  0 <= y < height -> processed (y * width) l ->
  row_step width height radius max_shadow y l = Ok l' ->
  processed ((y + 1) * width) l'.
Proof.
  intros Hy Hl Hrow. unfold row_step, range in Hrow.
  replace ((y + 1) * width) with (y * width + (0 + width)) by lia.
  revert Hrow.
  apply (fold_res_seqZ _ (fun x l => processed (y * width + x) l) width 0 l);
    [lia|replace (y * width + 0) with (y * width) by lia; exact Hl|].
  intros x t t' Hx Ht Hstep.
  destruct (pixel_step_processed y x t ltac:(lia) Hy Ht) as (p & _ & H).
  destruct (new_pixel width height radius max_shadow y x p).
  - destruct H as (t1 & Ht1 & Hp1). rewrite Hstep in Ht1. injection Ht1 as <-.
    replace (y * width + (x + 1)) with (y * width + x + 1) by lia. exact Hp1.
  - congruence.
Qed.

Lemma transform_processed l' :
  0 <= height ->
  transform width height radius max_shadow l0 = Ok l' ->
  processed (height * width) l'.
Proof.
  intros Hh Ht. unfold transform, range in Ht.
  change (height * width) with ((fun y => y * width) height).
  replace height with (0 + height) at 2 by lia. revert Ht.
  apply (fold_res_seqZ _ (fun y l => processed (y * width) l) height 0 l0);
    [exact Hh|exact processed_0|].
  intros y t t' Hy Ht Hstep. apply (row_step_processed y t t'); [lia|exact Ht|exact Hstep].
Qed.

(** With [new_pixel] defined on every pixel, no iteration fails. *)
Lemma transform_total :
  (forall y x p, 0 <= x < width -> 0 <= y < height ->
     get_pixel (pixel_index width y x) l0 = Some p ->
     exists p', new_pixel width height radius max_shadow y x p = Ok p') ->
  exists l', transform width height radius max_shadow l0 = Ok l'.
Proof.
  intros Hnew. unfold transform, range.
  apply (fold_res_seqZ_total _ (fun y l => processed (y * width) l) height 0 l0);
    [exact processed_0|].
  intros y l Hy Hl.
  assert (exists l', row_step width height radius max_shadow y l = Ok l') as (l' & Hrow).
  { unfold row_step, range.
    apply (fold_res_seqZ_total _ (fun x l => processed (y * width + x) l) width 0 l);
      [replace (y * width + 0) with (y * width) by lia; exact Hl|].
    intros x t Hx Ht.
    destruct (pixel_step_processed y x t ltac:(lia) ltac:(lia) Ht) as (p & Hp & H).
    destruct (Hnew y x p ltac:(lia) ltac:(lia) Hp) as (p' & Hp').
    rewrite Hp' in H. destruct H as (t1 & Ht1 & Hp1). exists t1. split; [exact Ht1|].
    replace (y * width + (x + 1)) with (y * width + x + 1) by lia. exact Hp1. }
  exists l'. split; [exact Hrow|].
  apply (row_step_processed y l l'); [lia|exact Hl|exact Hrow].
Qed.

End Image.
End TransformResult.

(** * Well-formed input *)

(** The documented ranges: byte channels, a list no longer than the
    runtime allows, a finite radius, a shadow strength in [0, 1]. *)
Definition well_formed (l : list Z) (radius max_shadow : PyFloat.float) : bool :=
  forallb is_byte l
  && (Z.of_nat (length l) <? 2 ^ 63)
  && valid_binary PyFloat.prec PyFloat.emax radius
  && magnitude_below 500 radius
  && valid_binary PyFloat.prec PyFloat.emax max_shadow
  && unit_interval max_shadow.

Section WellFormed.
Import PyFloat.

Lemma well_formed_spec l radius max_shadow :
  well_formed l radius max_shadow = true ->
  Forall (fun c => is_byte c = true) l
  /\ Z.of_nat (length l) < 2 ^ 63
  /\ valid radius /\ magnitude_below 500 radius = true
  /\ valid max_shadow /\ unit_interval max_shadow = true.
Proof.
  unfold well_formed. rewrite !andb_true_iff.
  intros (((((H1 & H2) & H3) & H4) & H5) & H6).
  split; [|repeat split; try assumption; apply Z.ltb_lt; exact H2].
  apply Forall_forall. intros c Hc. rewrite forallb_forall in H1.
  apply H1. apply list_elem_of_In. exact Hc.
Qed.

Lemma get_pixel_bytes i (l : list Z) b g r a :
  Forall (fun c => is_byte c = true) l ->
  get_pixel i l = Some (b, g, r, a) ->
  is_byte b = true /\ is_byte g = true /\ is_byte r = true /\ is_byte a = true.
Proof.
  intros Hl Hp. apply get_pixel_Some in Hp as (Hb & Hg & Hr & Ha).
  rewrite Forall_lookup in Hl.
  split; [exact (Hl _ _ Hb)|]. split; [exact (Hl _ _ Hg)|].
  split; [exact (Hl _ _ Hr)|exact (Hl _ _ Ha)].
Qed.

Lemma new_pixel_total width height radius max_shadow y x b g r a :
  0 <= x < width -> width <= 2 ^ 63 -> 0 <= y < height -> height <= 2 ^ 63 ->
  valid radius -> magnitude_below 500 radius = true ->
  valid max_shadow -> unit_interval max_shadow = true ->
  is_byte b = true -> is_byte g = true -> is_byte r = true -> is_byte a = true ->
  exists p', new_pixel width height radius max_shadow y x (b, g, r, a) = Ok p'.
Proof.
  intros Hx Hw Hy Hh Vr Mr Vs Us Bb Bg Br Ba. unfold new_pixel.
  destruct (distance_to_corner_total x y width height radius
              ltac:(lia) ltac:(lia) ltac:(lia) ltac:(lia) Vr Mr) as (d & -> & Vd).
  cbn [res_bind].
  destruct (geb d one) eqn:Hge; [eexists; reflexivity|].
  destruct (int_ltb 0 d) eqn:Hpos.
  { destruct (one_minus_fraction d Vd Hpos Hge) as (Vf & Ff & Bf).
    destruct (scale_le a _ Ba Vf Ff Bf) as (k & -> & _). cbn [res_bind].
    eexists; reflexivity. }
  destruct (get_shadow_factor_total y height max_shadow ltac:(lia) Hy Vs Us)
    as (sf & -> & Wsf).
  cbn [res_bind]. destruct (ltb sf one); [|eexists; reflexivity].
  destruct (scale_total b sf Bb Wsf) as (nb & ->).
  destruct (scale_total g sf Bg Wsf) as (ng & ->).
  destruct (scale_total r sf Br Wsf) as (nr & ->).
  cbn [res_bind]. eexists; reflexivity.
Qed.

Lemma transform_no_columns width height radius max_shadow l :
  width <= 0 -> transform width height radius max_shadow l = Ok l.
Proof.
  intros Hw. unfold transform.
  induction (range height) as [|y ys IH]; [reflexivity|].
  cbn [fold_res]. unfold row_step at 1, range. rewrite seqZ_nil by lia.
  cbn [fold_res res_bind]. exact IH.
Qed.

Lemma transform_well_formed width height radius max_shadow l :
  Z.of_nat (length l) = width * height * 4 ->
  well_formed l radius max_shadow = true ->
  exists l', transform width height radius max_shadow l = Ok l'.
Proof.
  intros Hlen Hwf.
  apply well_formed_spec in Hwf as (Hb & Hl & Vr & Mr & Vs & Us).
  destruct (Z_le_gt_dec width 0) as [Hw|Hw].
  { exists l. apply transform_no_columns. exact Hw. }
  apply transform_total; [lia|exact Hlen|].
  intros y x [[[b g] r] a] Hx Hy Hp.
  destruct (get_pixel_bytes _ _ _ _ _ _ Hb Hp) as (Bb & Bg & Br & Ba).
  apply new_pixel_total; try assumption; nia.
Qed.

(** On well-formed input of the right length the transformer returns a
    new list. *)
Lemma apply_modifications_total (h : gmap positive (list Z)) pixels width height
    radius max_shadow l :
  h !! pixels = Some l ->
  Z.of_nat (length l) = width * height * 4 ->
  well_formed l radius max_shadow = true ->
  exists l',
    transform width height radius max_shadow l = Ok l'
    /\ apply_modifications pixels width height radius max_shadow h
       = (Ok (fresh (dom h)), <[fresh (dom h) := l']> h).
Proof.
  intros Hl Hlen Hwf.
  destruct (transform_well_formed _ _ _ _ _ Hlen Hwf) as (l' & Ht).
  exists l'. split; [exact Ht|].
  pose proof (apply_modifications_spec h pixels width height radius max_shadow l Hl) as H.
  cbv zeta in H. rewrite Hlen, Z.eqb_refl, Ht in H. apply H.
Qed.

End WellFormed.

(** * Which errors the pixel loop can raise *)

Definition is_pixel_count (e : exn) : bool :=
  match e with
  | ValueError (PixelCount _ _ _) => true
  | _ => false
  end.

Section Errors.
Import PyFloat.

(** [m] raises no pixel-count error. *)
Definition arithmetic {A} (m : res A) : Prop :=
  forall e, m = Raise e -> is_pixel_count e = false.

Lemma arithmetic_Ok {A} (a : A) : arithmetic (Ok a).
Proof. intros e H. discriminate. Qed.

Lemma arithmetic_bind {A B} (m : res A) (k : A -> res B) :
  arithmetic m -> (forall a, arithmetic (k a)) -> arithmetic (res_bind m k).
Proof.
  intros Hm Hk e. destruct m as [a|e']; cbn [res_bind].
  - apply Hk.
  - intros [= <-]. apply Hm. reflexivity.
Qed.

Lemma arithmetic_if {A} (b : bool) (m1 m2 : res A) :
  arithmetic m1 -> arithmetic m2 -> arithmetic (if b then m1 else m2).
Proof. destruct b; auto. Qed.

Create HintDb arithmetic.

Local Ltac arith :=
  repeat first
    [ apply arithmetic_Ok
    | solve [auto with arithmetic]
    | apply arithmetic_bind; [|intros ?]
    | apply arithmetic_if ].

Lemma of_int_arithmetic n : arithmetic (of_int n).
Proof.
  unfold of_int. intros e.
  destruct (binary_normalize prec emax n 0 false); intros [= <-]; reflexivity.
Qed.
#[local] Hint Resolve of_int_arithmetic : arithmetic.

Lemma to_int_arithmetic f : arithmetic (to_int f).
Proof. intros e. destruct f; cbn [to_int]; intros [= <-]; reflexivity. Qed.
#[local] Hint Resolve to_int_arithmetic : arithmetic.

Lemma int_truediv_arithmetic a b : arithmetic (int_truediv a b).
Proof.
  unfold int_truediv. intros e.
  destruct (b =? 0); [intros [= <-]; reflexivity|].
  destruct (a =? 0); [discriminate|].
  destruct (SFdiv_core_binary prec emax (Z.abs a) 0 (Z.abs b) 0) as [[q e'] l].
  destruct (binary_round_aux prec emax _ q e' l); intros [= <-]; reflexivity.
Qed.
#[local] Hint Resolve int_truediv_arithmetic : arithmetic.

Lemma pow2_arithmetic f : arithmetic (pow2 f).
Proof.
  intros e. destruct f; cbn [pow2]; try discriminate.
  destruct (mul _ _); intros [= <-]; reflexivity.
Qed.
#[local] Hint Resolve pow2_arithmetic : arithmetic.

Lemma sqrt_arithmetic f : arithmetic (sqrt f).
Proof.
  intros e. destruct f as [s|[]| |[] m e']; cbn [sqrt]; intros [= <-]; reflexivity.
Qed.
#[local] Hint Resolve sqrt_arithmetic : arithmetic.

Lemma int_sub_arithmetic n f : arithmetic (int_sub n f).
Proof. unfold int_sub. arith. Qed.
#[local] Hint Resolve int_sub_arithmetic : arithmetic.

Lemma sub_int_arithmetic f n : arithmetic (sub_int f n).
Proof. unfold sub_int. arith. Qed.
#[local] Hint Resolve sub_int_arithmetic : arithmetic.

Lemma scale_arithmetic c f : arithmetic (scale c f).
Proof.
  unfold scale, int_mul. arith.
Qed.
#[local] Hint Resolve scale_arithmetic : arithmetic.

Lemma far_center_arithmetic size radius : arithmetic (far_center size radius).
Proof.
  unfold far_center. arith.
Qed.
#[local] Hint Resolve far_center_arithmetic : arithmetic.

Lemma in_corner_arithmetic p size radius c : arithmetic (in_corner p size radius c).
Proof.
  unfold in_corner. arith.
Qed.
#[local] Hint Resolve in_corner_arithmetic : arithmetic.

Lemma corner_dist_arithmetic x y cx cy : arithmetic (corner_dist x y cx cy).
Proof.
  unfold corner_dist.
  arith.
Qed.
#[local] Hint Resolve corner_dist_arithmetic : arithmetic.

Lemma corner_scan_arithmetic x y width height radius cs :
  arithmetic (corner_scan x y width height radius cs).
Proof.
  induction cs as [|[cx cy] cs IH]; cbn [corner_scan].
  - apply arithmetic_Ok.
  - arith.
Qed.
#[local] Hint Resolve corner_scan_arithmetic : arithmetic.

Lemma distance_to_corner_arithmetic x y width height radius :
  arithmetic (distance_to_corner x y width height radius).
Proof.
  unfold distance_to_corner, corners.
  arith.
Qed.
#[local] Hint Resolve distance_to_corner_arithmetic : arithmetic.

Lemma get_shadow_factor_arithmetic y height ms :
  arithmetic (get_shadow_factor y height ms).
Proof.
  unfold get_shadow_factor, shadow_start, int_mul.
  arith.
Qed.
#[local] Hint Resolve get_shadow_factor_arithmetic : arithmetic.

Lemma new_pixel_arithmetic width height radius ms y x p :
  arithmetic (new_pixel width height radius ms y x p).
Proof.
  destruct p as [[[b g] r] a]. unfold new_pixel.
  arith.
Qed.

Lemma fold_res_arithmetic {A S} (step : A -> S -> res S) xs :
  (forall a s, arithmetic (step a s)) -> forall s, arithmetic (fold_res step xs s).
Proof.
  intros Hstep. induction xs as [|a xs IH]; intros s; cbn [fold_res].
  - apply arithmetic_Ok.
  - apply arithmetic_bind; [apply Hstep|exact IH].
Qed.

Lemma transform_arithmetic width height radius ms l :
  arithmetic (transform width height radius ms l).
Proof.
  unfold transform. apply fold_res_arithmetic. intros y s.
  unfold row_step. apply fold_res_arithmetic. intros x t.
  unfold pixel_step. destruct (get_pixel _ t).
  - apply arithmetic_bind; [apply new_pixel_arithmetic|intros; apply arithmetic_Ok].
  - intros e [= <-]. reflexivity.
Qed.

End Errors.

(** * Claims about the pixel transformer *)

Section TransformerClaims.
Import PyFloat.

Lemma apply_modifications_result (h : gmap positive (list Z)) pixels width height
    radius max_shadow l out h' :
  h !! pixels = Some l ->
  Z.of_nat (length l) = width * height * 4 ->
  apply_modifications pixels width height radius max_shadow h = (Ok out, h') ->
  exists l',
    transform width height radius max_shadow l = Ok l'
    /\ out = fresh (dom h) /\ h' = <[out := l']> h /\ length l' = length l.
Proof.
  intros Hl Hlen Happ.
  pose proof (apply_modifications_spec h pixels width height radius max_shadow l Hl) as H.
  cbv zeta in H. rewrite Hlen, Z.eqb_refl in H.
  destruct (transform width height radius max_shadow l) as [l'|e].
  - destruct H as [H Hlen']. rewrite H in Happ. injection Happ as <- <-.
    exists l'. auto.
  - destruct H as (l' & H). rewrite H in Happ. discriminate.
Qed.

Lemma transformed_pixel (h : gmap positive (list Z)) pixels width height
    radius max_shadow l out h' y x :
  h !! pixels = Some l ->
  Z.of_nat (length l) = width * height * 4 ->
  0 <= x < width -> 0 <= y < height ->
  apply_modifications pixels width height radius max_shadow h = (Ok out, h') ->
  exists l' p p',
    h' !! out = Some l'
    /\ get_pixel (pixel_index width y x) l = Some p
    /\ new_pixel width height radius max_shadow y x p = Ok p'
    /\ get_pixel (pixel_index width y x) l' = Some p'.
Proof.
  intros Hl Hlen Hx Hy Happ.
  destruct (apply_modifications_result _ _ _ _ _ _ _ _ _ Hl Hlen Happ)
    as (l' & Ht & _ & -> & _).
  destruct (transform_processed width height radius max_shadow l ltac:(lia) Hlen
              l' ltac:(lia) Ht) as (_ & _ & Hdone).
  destruct (Hdone y x Hx ltac:(lia) ltac:(nia)) as (p & p' & Hp & Hn & Hp').
  exists l', p, p'. rewrite lookup_insert_eq. auto.
Qed.

(** C8: for every input list whose length equals width*height*4, the list
    the transformer returns has the length of the input (and on
    well-formed input the transformer does return a list). *)
Theorem C8_length_preserved (h : gmap positive (list Z)) pixels width height
    radius max_shadow l :
  h !! pixels = Some l ->
  Z.of_nat (length l) = width * height * 4 ->
  (well_formed l radius max_shadow = true ->
   exists out h',
     apply_modifications pixels width height radius max_shadow h = (Ok out, h'))
  /\ (forall out h',
        apply_modifications pixels width height radius max_shadow h = (Ok out, h') ->
        exists l', h' !! out = Some l' /\ length l' = length l).
Proof.
  intros Hl Hlen. split.
  - intros Hwf.
    destruct (apply_modifications_total h pixels width height radius max_shadow l
                Hl Hlen Hwf) as (l' & _ & H).
    eauto.
  - intros out h' Happ.
    destruct (apply_modifications_result _ _ _ _ _ _ _ _ _ Hl Hlen Happ)
      as (l' & _ & _ & -> & Hlen').
    exists l'. rewrite lookup_insert_eq. auto.
Qed.

Definition white_4x4 : list Z := repeat 255 64.
Definition store_4x4 : gmap positive (list Z) := {[ 1%positive := white_4x4 ]}.
Definition half : float := S754_finite false 4503599627370496 (-53).   (* 0.5 *)

Lemma C8_length_preserved_witness :
  (well_formed white_4x4 one half = true ->
   exists out h',
     apply_modifications 1%positive 4 4 one half store_4x4 = (Ok out, h'))
  /\ (forall out h',
        apply_modifications 1%positive 4 4 one half store_4x4 = (Ok out, h') ->
        exists l', h' !! out = Some l' /\ length l' = length white_4x4).
Proof.
  apply (C8_length_preserved store_4x4 1%positive 4 4 one half white_4x4).
  - reflexivity.
  - reflexivity.
Defined.


(** C9: the input list is the same after the call as before it, whatever
    the outcome; no list of the store changes and the returned list is a
    new one. *)
Theorem C9_input_not_mutated (h : gmap positive (list Z)) pixels width height
    radius max_shadow l :
  h !! pixels = Some l ->
  let result := apply_modifications pixels width height radius max_shadow h in
  snd result !! pixels = Some l
  /\ (forall k v, h !! k = Some v -> snd result !! k = Some v)
  /\ (forall out, fst result = Ok out -> h !! out = None).
Proof.
  intros Hl result.
  pose proof (apply_modifications_spec h pixels width height radius max_shadow l Hl) as H.
  cbv zeta in H. pose proof (fresh_not_allocated h) as Hfresh.
  assert (Hkeep : forall l' k v, h !! k = Some v ->
                    (<[fresh (dom h) := l']> h) !! k = Some v).
  { intros l' k v Hk. rewrite lookup_insert_ne; [exact Hk|]. congruence. }
  destruct (Z.of_nat (length l) =? width * height * 4).
  - destruct (transform width height radius max_shadow l) as [l'|e].
    + destruct H as [H _]. unfold result. rewrite H. cbn [fst snd].
      split; [apply Hkeep; exact Hl|]. split; [apply Hkeep|].
      intros out [= <-]. exact Hfresh.
    + destruct H as (l' & H). unfold result. rewrite H. cbn [fst snd].
      split; [apply Hkeep; exact Hl|]. split; [apply Hkeep|]. discriminate.
  - unfold result. rewrite H. cbn [fst snd].
    split; [exact Hl|]. split; [auto|discriminate].
Qed.

Lemma C9_input_not_mutated_witness :
  let result := apply_modifications 1%positive 4 4 one half store_4x4 in
  snd result !! 1%positive = Some white_4x4
  /\ (forall k v, store_4x4 !! k = Some v -> snd result !! k = Some v)
  /\ (forall out, fst result = Ok out -> store_4x4 !! out = None).
Proof.
  apply (C9_input_not_mutated store_4x4 1%positive 4 4 one half white_4x4).
  reflexivity.
Defined.

(** C4: a list whose length differs from width*height*4 makes the
    transformer raise the pixel-count error with the store untouched (no
    copy made, no pixel read or written); a list of that length never
    makes it raise this error. *)
Theorem C4_dimension_check (h : gmap positive (list Z)) pixels width height
    radius max_shadow l :
  h !! pixels = Some l ->
  let n := Z.of_nat (length l) in
  (n <> width * height * 4 ->
   apply_modifications pixels width height radius max_shadow h
   = (Raise (ValueError (PixelCount n width height)), h))
  /\ (n = width * height * 4 ->
      forall e h',
        apply_modifications pixels width height radius max_shadow h = (Raise e, h') ->
        is_pixel_count e = false).
Proof.
  intros Hl n.
  pose proof (apply_modifications_spec h pixels width height radius max_shadow l Hl) as H.
  cbv zeta in H. fold n in H. split.
  - intros Hn. apply Z.eqb_neq in Hn. rewrite Hn in H. exact H.
  - intros Hn e h' Happ. rewrite Hn, Z.eqb_refl in H.
    pose proof (transform_arithmetic width height radius max_shadow l) as Ha.
    destruct (transform width height radius max_shadow l) as [l'|e'].
    + destruct H as [H _]. rewrite H in Happ. discriminate.
    + destruct H as (l' & H). rewrite H in Happ. injection Happ as <- <-.
      apply Ha. reflexivity.
Qed.

Lemma C4_dimension_check_witness :
  let n := Z.of_nat (length white_4x4) in
  (n <> 4 * 5 * 4 ->
   apply_modifications 1%positive 4 5 one half store_4x4
   = (Raise (ValueError (PixelCount n 4 5)), store_4x4))
  /\ (n = 4 * 5 * 4 ->
      forall e h',
        apply_modifications 1%positive 4 5 one half store_4x4 = (Raise e, h') ->
        is_pixel_count e = false).
Proof.
  apply (C4_dimension_check store_4x4 1%positive 4 5 one half white_4x4).
  reflexivity.
Defined.

(** C7: a pixel whose corner distance is at least 1.0 has its four
    channels set to 0 in the returned list. *)
Theorem C7_corner_clipped (h : gmap positive (list Z)) pixels width height
    radius max_shadow l y x d :
  h !! pixels = Some l ->
  Z.of_nat (length l) = width * height * 4 ->
  0 <= x < width -> 0 <= y < height ->
  distance_to_corner x y width height radius = Ok d ->
  geb d one = true ->
  (well_formed l radius max_shadow = true ->
   exists out h',
     apply_modifications pixels width height radius max_shadow h = (Ok out, h'))
  /\ (forall out h',
        apply_modifications pixels width height radius max_shadow h = (Ok out, h') ->
        exists l',
          h' !! out = Some l'
          /\ get_pixel (pixel_index width y x) l' = Some (0, 0, 0, 0)).
Proof.
  intros Hl Hlen Hx Hy Hd Hge. split.
  - intros Hwf.
    destruct (apply_modifications_total h pixels width height radius max_shadow l
                Hl Hlen Hwf) as (l' & _ & H).
    eauto.
  - intros out h' Happ.
    destruct (transformed_pixel _ _ _ _ _ _ _ _ _ y x Hl Hlen Hx Hy Happ)
      as (l' & [[[b g] r] a] & p' & Hout & Hp & Hn & Hp').
    exists l'. split; [exact Hout|].
    unfold new_pixel in Hn. rewrite Hd in Hn. cbn [res_bind] in Hn.
    rewrite Hge in Hn. injection Hn as <-. exact Hp'.
Qed.

Lemma C7_corner_clipped_witness :
  (well_formed white_4x4 one half = true ->
   exists out h',
     apply_modifications 1%positive 4 4 one half store_4x4 = (Ok out, h'))
  /\ (forall out h',
        apply_modifications 1%positive 4 4 one half store_4x4 = (Ok out, h') ->
        exists l',
          h' !! out = Some l'
          /\ get_pixel (pixel_index 4 0 0) l' = Some (0, 0, 0, 0)).
Proof.
  apply (C7_corner_clipped store_4x4 1%positive 4 4 one half white_4x4 0 0 one).
  - reflexivity.
  - reflexivity.
  - lia.
  - lia.
  - vm_compute. reflexivity.
  - reflexivity.
Defined.


Lemma compare_cont_flip a b :
  Pos.compare_cont Eq a b = Lt -> PosDef.Pos.compare_cont Eq b a = Gt.
Proof.
  intros H. change (Pos.compare b a = Gt). rewrite Pos.compare_antisym.
  change (Pos.compare a b) with (Pos.compare_cont Eq a b). rewrite H. reflexivity.
Qed.

Lemma ltb_one_not_geb d : ltb d one = true -> geb d one = false.
Proof.
  unfold ltb, geb, SFltb, SFleb, one, SFcompare.
  destruct d as [[]|[]| |[] m e]; try discriminate; try reflexivity.
  destruct (Z.compare_spec e (-52)) as [Heq|Hlt|Hgt]; try discriminate.
  - subst e. change (-52 ?= -52) with Eq.
    destruct (Pos.compare_cont Eq m 4503599627370496) eqn:Hc; try discriminate.
    intros _. rewrite (compare_cont_flip _ _ Hc). reflexivity.
  - intros _. destruct (Z.compare_spec (-52) e); try lia; reflexivity.
Qed.

(** C5: a pixel whose corner distance d satisfies 0 < d < 1 keeps its
    three colour channels and gets the alpha floor(a * (1.0 - d)), which
    is at most the input alpha a.  The product is the binary64 one: the
    new alpha is the floor of [p], the float [a * (1.0 - d)] the code
    computes, and [p] is within [2^-42] of the real number a * (1 - d);
    so the new alpha is the floor of the real product unless that
    product is within [2^-42] of an integer. *)
Theorem C5_alpha_only_fade (h : gmap positive (list Z)) pixels width height
    radius max_shadow l y x d b g r a :
  h !! pixels = Some l ->
  Z.of_nat (length l) = width * height * 4 ->
  0 <= x < width -> 0 <= y < height ->
  distance_to_corner x y width height radius = Ok d ->
  int_ltb 0 d = true -> ltb d one = true ->
  get_pixel (pixel_index width y x) l = Some (b, g, r, a) ->
  is_byte a = true ->
  (well_formed l radius max_shadow = true ->
   exists out h',
     apply_modifications pixels width height radius max_shadow h = (Ok out, h'))
  /\ (forall out h',
        apply_modifications pixels width height radius max_shadow h = (Ok out, h') ->
        exists l' new_alpha,
          h' !! out = Some l'
          /\ scale a (sub one d) = Ok new_alpha
          /\ get_pixel (pixel_index width y x) l' = Some (b, g, r, new_alpha)
          /\ 0 <= new_alpha <= a
          /\ exists af p,
               of_int a = Ok af
               /\ p = B2R (mul af (sub one d))
               /\ (IZR new_alpha <= p < IZR new_alpha + 1)%R
               /\ (Rabs (p - IZR a * (1 - B2R d)) <= bpow (-42))%R).
Proof.
  intros Hl Hlen Hx Hy Hd Hpos Hlt Hp Ha. split.
  - intros Hwf.
    destruct (apply_modifications_total h pixels width height radius max_shadow l
                Hl Hlen Hwf) as (l' & _ & H).
    eauto.
  - intros out h' Happ.
    destruct (transformed_pixel _ _ _ _ _ _ _ _ _ y x Hl Hlen Hx Hy Happ)
      as (l' & p & p' & Hout & Hp0 & Hn & Hp').
    rewrite Hp in Hp0. injection Hp0 as <-.
    pose proof (ltb_one_not_geb d Hlt) as Hge.
    pose proof (distance_to_corner_valid _ _ _ _ _ _ Hd) as Vd.
    destruct (one_minus_fraction d Vd Hpos Hge) as (Vf & Ff & Bf).
    destruct (scale_le a _ Ha Vf Ff Bf) as (k & Hk & Hka).
    unfold new_pixel in Hn. rewrite Hd in Hn. cbn [res_bind] in Hn.
    rewrite Hge, Hpos, Hk in Hn. cbn [res_bind] in Hn. injection Hn as <-.
    exists l', k. repeat (split; [assumption||apply Hka|]).
    exact (fade_product a d k Ha Vd Hpos Hge Hk).
Qed.

Definition two : float := S754_finite false 4503599627370496 (-51).     (* 2.0 *)
Definition white_8x8 : list Z := repeat 255 256.
Definition store_8x8 : gmap positive (list Z) := {[ 1%positive := white_8x8 ]}.
(** The corner distance of pixel (1, 1) of an 8x8 image of radius 2. *)
Definition band_distance : float := S754_finite false 5489669145120700 (-53).

Lemma C5_alpha_only_fade_witness :
  (well_formed white_8x8 two half = true ->
   exists out h',
     apply_modifications 1%positive 8 8 two half store_8x8 = (Ok out, h'))
  /\ (forall out h',
        apply_modifications 1%positive 8 8 two half store_8x8 = (Ok out, h') ->
        exists l' new_alpha,
          h' !! out = Some l'
          /\ scale 255 (sub one band_distance) = Ok new_alpha
          /\ get_pixel (pixel_index 8 1 1) l' = Some (255, 255, 255, new_alpha)
          /\ 0 <= new_alpha <= 255
          /\ exists af p,
               of_int 255 = Ok af
               /\ p = B2R (mul af (sub one band_distance))
               /\ (IZR new_alpha <= p < IZR new_alpha + 1)%R
               /\ (Rabs (p - 255 * (1 - B2R band_distance)) <= bpow (-42))%R).
Proof.
  apply (C5_alpha_only_fade store_8x8 1%positive 8 8 two half white_8x8 1 1
           band_distance 255 255 255 255).
  - reflexivity.
  - reflexivity.
  - lia.
  - lia.
  - vm_compute. reflexivity.
  - reflexivity.
  - reflexivity.
  - reflexivity.
  - reflexivity.
Defined.

End TransformerClaims.

(** * Claims about the geometry helpers *)

Section GeometryClaims.
Import PyFloat.

(** C10: for every height >= 1 the threshold int(height * 0.7) is below
    height, so the divisor height - shadow_start is at least 1 and the
    shadow factor never raises a division by zero.  (The threshold exists
    for every height a float can hold; beyond that the conversion of
    height raises OverflowError before any division.) *)
Theorem C10_shadow_divisor_positive height :
  1 <= height ->
  (height < 2 ^ 1023 -> exists s, shadow_start height = Ok s)
  /\ (forall s, shadow_start height = Ok s -> 0 <= s < height /\ 1 <= height - s)
  /\ (forall y max_darkening,
        get_shadow_factor y height max_darkening <> Raise ZeroDivisionError).
Proof.
  intros Hh. pose proof (shadow_start_spec height Hh) as Hs. split; [|split].
  - intros Hlt. destruct (shadow_start height) as [s|e]; [eauto|].
    exfalso. destruct Hs as [_ Hs].
    pose proof (int_below_fmax height ltac:(lia)). lra.
  - intros s Heq. rewrite Heq in Hs. lia.
  - intros y ms. unfold get_shadow_factor.
    destruct (shadow_start height) as [s|e]; cbn [res_bind].
    + destruct (y <? s); [discriminate|].
      pose proof (int_truediv_arithmetic (y - s) (height - s)) as Ha.
      unfold int_truediv in *.
      destruct (height - s =? 0) eqn:E; [apply Z.eqb_eq in E; lia|].
      destruct (y - s =? 0); [discriminate|].
      destruct (SFdiv_core_binary prec emax _ 0 _ 0) as [[q e] l].
      destruct (binary_round_aux prec emax _ q e l); discriminate.
    + destruct Hs as [-> _]. discriminate.
Qed.

Lemma C10_shadow_divisor_positive_witness :
  (112 < 2 ^ 1023 -> exists s, shadow_start 112 = Ok s)
  /\ (forall s, shadow_start 112 = Ok s -> 0 <= s < 112 /\ 1 <= 112 - s)
  /\ (forall y max_darkening,
        get_shadow_factor y 112 max_darkening <> Raise ZeroDivisionError).
Proof. apply (C10_shadow_divisor_positive 112). lia. Defined.

(** C2 (as stated) fails: at the last row of a 10-row image with
    max_shadow = 0.5 the factor is 1 - (2/3) * 0.5, not 1 - 0.5. *)
Lemma C2_last_row_counterexample :
  unit_interval half = true
  /\ shadow_start 10 = Ok 7
  /\ get_shadow_factor (10 - 1) 10 half
     = Ok (S754_finite false 6004799503160662 (-53))
  /\ get_shadow_factor (10 - 1) 10 half <> Ok (sub one half).
Proof.
  split; [reflexivity|]. split; [reflexivity|]. split; [reflexivity|].
  vm_compute. discriminate.
Qed.

(** C2 (amended): for every height >= 1 and max_shadow in [0, 1], rows
    above the threshold get 1.0; a row y from the threshold on gets
    1.0 - ((y - shadow_start) / (height - shadow_start)) * max_shadow,
    computed without error, which is exactly 1.0 at the threshold row.  At
    the last row the progress is (height - 1 - shadow_start) /
    (height - shadow_start), below 1: the factor there is not
    1.0 - max_shadow. *)
Theorem C2_shadow_factor height max_shadow :
  1 <= height < 2 ^ 1023 ->
  valid max_shadow -> unit_interval max_shadow = true ->
  exists s,
    shadow_start height = Ok s /\ 0 <= s < height
    /\ (forall y, y < s -> get_shadow_factor y height max_shadow = Ok one)
    /\ (forall y, s <= y < height ->
          exists progress,
            int_truediv (y - s) (height - s) = Ok progress
            /\ get_shadow_factor y height max_shadow
               = Ok (sub one (mul progress max_shadow)))
    /\ get_shadow_factor s height max_shadow = Ok one
    /\ (IZR (height - 1 - s) / IZR (height - s) < 1)%R.
Proof.
  intros Hh V U. destruct (unit_interval_spec max_shadow V U) as [Fm _].
  pose proof (shadow_start_spec height ltac:(lia)) as Hs.
  destruct (shadow_start height) as [s|e] eqn:Es.
  2:{ exfalso. destruct Hs as [_ Hs].
      pose proof (int_below_fmax height ltac:(lia)). lra. }
  exists s. split; [reflexivity|]. split; [exact Hs|].
  assert (Hrow : forall y, s <= y < height ->
            exists progress,
              int_truediv (y - s) (height - s) = Ok progress
              /\ get_shadow_factor y height max_shadow
                 = Ok (sub one (mul progress max_shadow))).
  { intros y Hy. unfold get_shadow_factor. rewrite Es. cbn [res_bind].
    destruct (Z.ltb_spec y s); [lia|].
    pose proof (int_truediv_spec (y - s) (height - s) ltac:(lia)) as Hd.
    destruct (int_truediv (y - s) (height - s)) as [p|e]; cbn [res_bind]; [eauto|].
    exfalso. destruct Hd as [_ Hd].
    assert (0 < IZR (height - s))%R by (apply IZR_lt; lia).
    assert (0 <= IZR (y - s))%R by (apply IZR_le; lia).
    assert (IZR (y - s) <= IZR (height - s))%R by (apply IZR_le; lia).
    assert (0 <= IZR (y - s) / IZR (height - s) <= 1)%R.
    { split.
      - apply Rmult_le_pos; [lra|]. apply Rlt_le, Rinv_0_lt_compat. lra.
      - apply Rmult_le_reg_r with (IZR (height - s)); [lra|].
        unfold Rdiv. rewrite Rmult_assoc, Rinv_l by lra. lra. }
    rewrite Rabs_right in Hd by lra. pose proof fmax_big. lra. }
  split; [|split; [exact Hrow|split]].
  - intros y Hy. unfold get_shadow_factor. rewrite Es. cbn [res_bind].
    destruct (Z.ltb_spec y s); [reflexivity|lia].
  - destruct (Hrow s ltac:(lia)) as (p & Hp & ->).
    unfold int_truediv in Hp. replace (s - s) with 0 in Hp by lia.
    destruct (Z.eqb_spec (height - s) 0); [lia|]. cbn [Z.eqb] in Hp.
    destruct (Z.ltb_spec (height - s) 0); [lia|]. injection Hp as <-.
    destruct max_shadow as [sm|sm| |sm m e]; try discriminate; reflexivity.
  - assert (0 < IZR (height - s))%R by (apply IZR_lt; lia).
    apply Rmult_lt_reg_r with (IZR (height - s)); [lra|].
    unfold Rdiv. rewrite Rmult_assoc, Rinv_l by lra.
    rewrite Rmult_1_r, Rmult_1_l. apply IZR_lt. lia.
Qed.

Lemma C2_shadow_factor_witness :
  exists s,
    shadow_start 10 = Ok s /\ 0 <= s < 10
    /\ (forall y, y < s -> get_shadow_factor y 10 half = Ok one)
    /\ (forall y, s <= y < 10 ->
          exists progress,
            int_truediv (y - s) (10 - s) = Ok progress
            /\ get_shadow_factor y 10 half = Ok (sub one (mul progress half)))
    /\ get_shadow_factor s 10 half = Ok one
    /\ (IZR (10 - 1 - s) / IZR (10 - s) < 1)%R.
Proof.
  apply (C2_shadow_factor 10 half).
  - lia.
  - reflexivity.
  - reflexivity.
Defined.


Definition five : float := S754_finite false 5629499534213120 (-50).    (* 5.0 *)

(** C3 (as stated) fails: pixel (1, 2) of a 20x20 image of radius 5 lies
    in the top-left box at distance exactly 5.0 = radius from the centre
    (5, 5), so radius - 1.5 < distance <= radius, and the value returned
    is 1.0, which is not strictly inside (0, 1). *)
Lemma C3_band_counterexample :
  in_corner 1 20 five five = Ok true
  /\ in_corner 2 20 five five = Ok true
  /\ corner_dist 1 2 five five = Ok five
  /\ gtb five (sub five one_point_five) = true
  /\ leb five five = true
  /\ distance_to_corner 1 2 20 20 five = Ok one
  /\ ltb one one = false.
Proof. repeat split; vm_compute; reflexivity. Qed.

(** The pixel lies in the bounding box of the corner of centre [c]. *)
Definition in_box (x y width height : Z) (radius : float) (c : float * float) : Prop :=
  in_corner x width radius (fst c) = Ok true
  /\ in_corner y height radius (snd c) = Ok true.

Lemma corners_far_center width height radius cs :
  corners width height radius = Ok cs ->
  exists fw fh,
    far_center width radius = Ok fw /\ far_center height radius = Ok fh.
Proof.
  unfold corners.
  destruct (far_center width radius) as [fw|]; [|discriminate].
  destruct (far_center height radius) as [fh|]; [|discriminate]. eauto.
Qed.

Lemma corner_scan_skip x y width height radius fw fh c cs :
  far_center width radius = Ok fw -> far_center height radius = Ok fh ->
  ~ in_box x y width height radius c ->
  corner_scan x y width height radius (c :: cs)
  = corner_scan x y width height radius cs.
Proof.
  intros Hfw Hfh Hout. destruct c as [cx cy]. cbn [corner_scan].
  destruct (in_corner_total x width radius cx fw Hfw) as (bx & Hbx).
  destruct (in_corner_total y height radius cy fh Hfh) as (by_ & Hby).
  rewrite Hbx, Hby. cbn [res_bind].
  destruct bx, by_; try reflexivity.
  exfalso. apply Hout. split; assumption.
Qed.

Lemma corner_scan_outside x y width height radius fw fh cs :
  far_center width radius = Ok fw -> far_center height radius = Ok fh ->
  (forall c, c ∈ cs -> ~ in_box x y width height radius c) ->
  corner_scan x y width height radius cs = Ok zero.
Proof.
  intros Hfw Hfh. induction cs as [|c cs IH]; intros Hout; [reflexivity|].
  rewrite (corner_scan_skip x y width height radius fw fh c cs Hfw Hfh).
  - apply IH. intros c' Hc'. apply Hout. apply list_elem_of_further. exact Hc'.
  - apply Hout. apply list_elem_of_here.
Qed.

(** The value decided at a corner at distance [dist]. *)
Definition band_value (radius dist : float) : float :=
  if gtb dist radius then one
  else if gtb dist (sub radius one_point_five) then
    div (sub dist (sub radius one_point_five)) one_point_five
  else zero.

Lemma corner_scan_hit x y width height radius c cs dist :
  in_box x y width height radius c ->
  corner_dist x y (fst c) (snd c) = Ok dist ->
  corner_scan x y width height radius (c :: cs)
  = if gtb dist radius || gtb dist (sub radius one_point_five)
    then Ok (band_value radius dist)
    else corner_scan x y width height radius cs.
Proof.
  intros [Hx Hy] Hd. destruct c as [cx cy]. cbn [fst snd] in *.
  cbn [corner_scan]. rewrite Hx, Hy. cbn [res_bind andb]. rewrite Hd.
  cbn [res_bind]. unfold band_value.
  destruct (gtb dist radius); [reflexivity|].
  destruct (gtb dist (sub radius one_point_five)); reflexivity.
Qed.

Lemma corner_scan_single x y width height radius fw fh c dist cs :
  far_center width radius = Ok fw -> far_center height radius = Ok fh ->
  corner_dist x y (fst c) (snd c) = Ok dist ->
  (forall c', c' ∈ cs -> in_box x y width height radius c' -> c' = c) ->
  (c ∈ cs /\ in_box x y width height radius c
   \/ gtb dist radius || gtb dist (sub radius one_point_five) = false) ->
  corner_scan x y width height radius cs = Ok (band_value radius dist).
Proof.
  intros Hfw Hfh Hd. induction cs as [|c0 cs IH]; intros Huniq Hc.
  - destruct Hc as [[Hin _]|Hc]; [inversion Hin|].
    cbn [corner_scan]. unfold band_value.
    apply orb_false_iff in Hc as [-> ->]. reflexivity.
  - assert (Huniq' : forall c', c' ∈ cs -> in_box x y width height radius c' -> c' = c).
    { intros c' Hc'. apply Huniq. apply list_elem_of_further. exact Hc'. }
    destruct (in_corner_total x width radius (fst c0) fw Hfw) as (bx & Hbx).
    destruct (in_corner_total y height radius (snd c0) fh Hfh) as (by_ & Hby).
    destruct (bx && by_) eqn:Hb.
    + apply andb_true_iff in Hb as [-> ->].
      assert (Hbox : in_box x y width height radius c0) by (split; assumption).
      assert (c0 = c) as -> by (apply Huniq; [apply list_elem_of_here|exact Hbox]).
      rewrite (corner_scan_hit x y width height radius c cs dist Hbox Hd).
      destruct (gtb dist radius || gtb dist (sub radius one_point_five)) eqn:Hg;
        [reflexivity|].
      apply IH; [exact Huniq'|]. right. reflexivity.
    + assert (Hout : ~ in_box x y width height radius c0).
      { intros [H1 H2]. rewrite H1 in Hbx. rewrite H2 in Hby.
        injection Hbx as <-. injection Hby as <-. discriminate. }
      rewrite (corner_scan_skip x y width height radius fw fh c0 cs Hfw Hfh Hout).
      apply IH; [exact Huniq'|].
      destruct Hc as [[Hin Hbox]|Hc]; [|right; exact Hc].
      left. split; [|exact Hbox].
      apply elem_of_cons in Hin as [->|Hin]; [contradiction|exact Hin].
Qed.

(** C3 (amended): a pixel outside every corner bounding box gets 0.0; a
    pixel in the bounding box of exactly one corner, at distance [dist]
    from its centre, gets 1.0 when dist > radius, the fraction
    (dist - (radius - 1.5)) / 1.5 when radius - 1.5 < dist <= radius, and
    0.0 when dist <= radius - 1.5.  The fraction can be exactly 1.0 (at
    dist = radius), so it is not confined to the open interval (0, 1). *)
Theorem C3_corner_distance x y width height radius cs :
  corners width height radius = Ok cs ->
  ((forall c, c ∈ cs -> ~ in_box x y width height radius c) ->
   distance_to_corner x y width height radius = Ok zero)
  /\ (forall c dist,
        c ∈ cs -> in_box x y width height radius c ->
        (forall c', c' ∈ cs -> in_box x y width height radius c' -> c' = c) ->
        corner_dist x y (fst c) (snd c) = Ok dist ->
        (gtb dist radius = true ->
         distance_to_corner x y width height radius = Ok one)
        /\ (gtb dist radius = false ->
            gtb dist (sub radius one_point_five) = true ->
            distance_to_corner x y width height radius
            = Ok (div (sub dist (sub radius one_point_five)) one_point_five))
        /\ (gtb dist radius = false ->
            gtb dist (sub radius one_point_five) = false ->
            distance_to_corner x y width height radius = Ok zero)).
Proof.
  intros Hcs. destruct (corners_far_center _ _ _ _ Hcs) as (fw & fh & Hfw & Hfh).
  unfold distance_to_corner. rewrite Hcs. cbn [res_bind]. split.
  - apply (corner_scan_outside x y width height radius fw fh cs Hfw Hfh).
  - intros c dist Hin Hbox Huniq Hd.
    pose proof (corner_scan_single x y width height radius fw fh c dist cs
                  Hfw Hfh Hd Huniq (or_introl (conj Hin Hbox))) as H.
    rewrite H. unfold band_value. split; [|split].
    + intros ->. reflexivity.
    + intros -> ->. reflexivity.
    + intros -> ->. reflexivity.
Qed.

Lemma C3_corner_distance_witness :
  let cs := [ (five, five); (S754_finite false 7881299347898368 (-49), five);
              (five, S754_finite false 7881299347898368 (-49));
              (S754_finite false 7881299347898368 (-49),
               S754_finite false 7881299347898368 (-49)) ] in
  ((forall c, c ∈ cs -> ~ in_box 1 2 20 20 five c) ->
   distance_to_corner 1 2 20 20 five = Ok zero)
  /\ (forall c dist,
        c ∈ cs -> in_box 1 2 20 20 five c ->
        (forall c', c' ∈ cs -> in_box 1 2 20 20 five c' -> c' = c) ->
        corner_dist 1 2 (fst c) (snd c) = Ok dist ->
        (gtb dist five = true -> distance_to_corner 1 2 20 20 five = Ok one)
        /\ (gtb dist five = false ->
            gtb dist (sub five one_point_five) = true ->
            distance_to_corner 1 2 20 20 five
            = Ok (div (sub dist (sub five one_point_five)) one_point_five))
        /\ (gtb dist five = false ->
            gtb dist (sub five one_point_five) = false ->
            distance_to_corner 1 2 20 20 five = Ok zero)).
Proof.
  apply (C3_corner_distance 1 2 20 20 five). vm_compute. reflexivity.
Defined.

End GeometryClaims.

(** * The regular-expression matcher *)

Section Matching.
Import Re.

(** [matches r m caps]: [r] matches exactly the text [m], recording the
    groups [caps] (the last one closed first). *)
Inductive matches : regex -> list N -> groups -> Prop :=
  | matches_Eps : matches Eps [] []
  | matches_Chr c : matches (Chr c) [c] []
  | matches_Cls (p : N -> bool) c : p c = true -> matches (Cls p) [c] []
  | matches_Star (p : N -> bool) m :
      Forall (fun c => p c = true) m -> matches (Star p) m []
  | matches_Cat r1 r2 m1 m2 caps1 caps2 :
      matches r1 m1 caps1 -> matches r2 m2 caps2 ->
      matches (Cat r1 r2) (m1 ++ m2) (caps2 ++ caps1)
  | matches_Grp n r m caps :
      matches r m caps -> matches (Grp n r) m ((n, m) :: caps).

Lemma star_sound {R} (p : N -> bool) (k : list N -> option R) s res :
  star p k s = Some res ->
  exists m s', s = m ++ s' /\ Forall (fun c => p c = true) m /\ k s' = Some res.
Proof.
  induction s as [|c s IH]; cbn [star]; intros H.
  - exists [], []. split; [reflexivity|]. split; [constructor|exact H].
  - destruct (p c) eqn:Hp.
    + destruct (star p k s) as [r|] eqn:Hs.
      * injection H as <-. destruct (IH eq_refl) as (m & s' & -> & Hm & Hk).
        exists (c :: m), s'. split; [reflexivity|]. split; [|exact Hk].
        constructor; assumption.
      * exists [], (c :: s). split; [reflexivity|]. split; [constructor|exact H].
    + exists [], (c :: s). split; [reflexivity|]. split; [constructor|exact H].
Qed.

Lemma take_app_length_diff (m s' : list N) :
  take (length (m ++ s') - length s') (m ++ s') = m.
Proof.
  rewrite length_app. replace (length m + length s' - length s')%nat with (length m) by lia.
  apply take_app_length.
Qed.

(** Whatever the matcher accepts is a match, followed by what the
    continuation accepts. *)
Lemma run_sound {R} r : forall s gs (k : list N -> groups -> option R) res,
  run r s gs k = Some res ->
  exists m s' caps,
    s = m ++ s' /\ matches r m caps /\ k s' (caps ++ gs) = Some res.
Proof.
  induction r as [|c|p|p|r1 IH1 r2 IH2|n r IH]; intros s gs k res H; cbn [run] in H.
  - exists [], s, []. split; [reflexivity|]. split; [constructor|exact H].
  - destruct s as [|c' s]; [discriminate|].
    destruct (N.eqb_spec c c') as [<-|]; [|discriminate].
    exists [c], s, []. split; [reflexivity|]. split; [constructor|exact H].
  - destruct s as [|c' s]; [discriminate|].
    destruct (p c') eqn:Hp; [|discriminate].
    exists [c'], s, []. split; [reflexivity|]. split; [constructor; exact Hp|exact H].
  - apply star_sound in H as (m & s' & -> & Hm & Hk).
    exists m, s', []. split; [reflexivity|]. split; [constructor; exact Hm|exact Hk].
  - apply IH1 in H as (m1 & s1 & caps1 & -> & Hm1 & H).
    apply IH2 in H as (m2 & s2 & caps2 & -> & Hm2 & H).
    exists (m1 ++ m2), s2, (caps2 ++ caps1).
    split; [rewrite <- app_assoc; reflexivity|].
    split; [constructor; assumption|]. rewrite <- app_assoc. exact H.
  - apply IH in H as (m & s' & caps & -> & Hm & H).
    rewrite take_app_length_diff in H.
    exists m, s', ((n, m) :: caps). split; [reflexivity|].
    split; [constructor; exact Hm|exact H].
Qed.

Lemma match_at_sound r s gs rest :
  match_at r s = Some (gs, rest) ->
  exists m caps, s = m ++ rest /\ matches r m caps /\ gs = (0%nat, m) :: caps.
Proof.
  unfold match_at. intros H. apply run_sound in H as (m & s' & caps & -> & Hm & H).
  injection H as <- <-. inversion Hm; subst.
  exists m, caps0. rewrite app_nil_r. auto.
Qed.

(** Inversion of the derived forms. *)
Lemma matches_Lit t m caps : matches (Lit t) m caps -> m = t /\ caps = [].
Proof.
  revert m caps. induction t as [|c t IH]; intros m caps H; cbn in H.
  - inversion H. auto.
  - inversion H as [| | | |r1 r2 m1 m2 caps1 caps2 H1 H2|]; subst.
    inversion H1; subst. apply IH in H2 as [-> ->]. auto.
Qed.

Lemma matches_Plus (p : N -> bool) m caps :
  matches (Plus p) m caps ->
  m <> [] /\ Forall (fun c => p c = true) m /\ caps = [].
Proof.
  unfold Plus. intros H.
  inversion H as [| | | |r1 r2 m1 m2 caps1 caps2 H1 H2|]; subst.
  inversion H1; subst. inversion H2; subst.
  split; [discriminate|]. split; [constructor; assumption|reflexivity].
Qed.

Lemma matches_Star_inv (p : N -> bool) m caps :
  matches (Star p) m caps -> Forall (fun c => p c = true) m /\ caps = [].
Proof. intros H. inversion H; subst. auto. Qed.

Lemma matches_Cat_inv r1 r2 m caps :
  matches (Cat r1 r2) m caps ->
  exists m1 m2 caps1 caps2,
    m = m1 ++ m2 /\ caps = caps2 ++ caps1 /\ matches r1 m1 caps1 /\ matches r2 m2 caps2.
Proof. intros H. inversion H; subst. eauto 10. Qed.

Lemma matches_Grp_inv n r m caps :
  matches (Grp n r) m caps -> exists caps', caps = (n, m) :: caps' /\ matches r m caps'.
Proof. intros H. inversion H; subst. eauto. Qed.

Lemma matches_Eps_inv m caps : matches Eps m caps -> m = [] /\ caps = [].
Proof. intros H. inversion H. auto. Qed.

(** [re.search]: the match found is the leftmost one. *)
Lemma search_Some r s pre gs rest :
  search r s = Some (pre, gs, rest) ->
  exists m,
    s = pre ++ m /\ match_at r m = Some (gs, rest)
    /\ (forall p1 p2, pre = p1 ++ p2 -> p2 <> [] -> match_at r (p2 ++ m) = None).
Proof.
  revert pre. induction s as [|c s IH]; intros pre; cbn [search].
  - destruct (match_at r []) as [[gs' rest']|] eqn:Hm; [|discriminate].
    intros [= <- <- <-]. exists []. split; [reflexivity|]. split; [exact Hm|].
    intros p1 p2 Hp Hne. destruct p1, p2; try discriminate. contradiction.
  - destruct (match_at r (c :: s)) as [[gs' rest']|] eqn:Hm.
    + intros [= <- <- <-]. exists (c :: s). split; [reflexivity|]. split; [exact Hm|].
      intros p1 p2 Hp Hne. destruct p1, p2; try discriminate. contradiction.
    + destruct (search r s) as [[[pre' gs'] rest']|] eqn:Hs; [|discriminate].
      intros [= <- <- <-].
      destruct (IH pre' eq_refl) as (m & -> & Hmatch & Hfirst).
      exists m. split; [reflexivity|]. split; [exact Hmatch|].
      intros p1 p2 Hp Hne. destruct p1 as [|c1 p1].
      * cbn in Hp. subst p2. exact Hm.
      * injection Hp as <- ->. apply Hfirst with p1; [reflexivity|exact Hne].
Qed.

Lemma search_None r s :
  search r s = None -> forall s1 s2, s = s1 ++ s2 -> match_at r s2 = None.
Proof.
  induction s as [|c s IH]; cbn [search].
  - destruct (match_at r []) as [[gs' rest']|] eqn:Hm; [discriminate|].
    intros _ s1 s2 Hs. destruct s1, s2; try discriminate. exact Hm.
  - destruct (match_at r (c :: s)) as [[gs' rest']|] eqn:Hm; [discriminate|].
    destruct (search r s) as [[[pre' gs'] rest']|] eqn:Hs; [discriminate|].
    intros _ s1 s2 Heq. destruct s1 as [|c1 s1].
    + cbn in Heq. subst s2. exact Hm.
    + injection Heq as <- ->. apply (IH eq_refl s1). reflexivity.
Qed.

End Matching.

(** * The serializer's substitution *)

(** A declaration header, [uint8_t\s+[a-zA-Z0-9_]+\[\]\s*=\s*\{]. *)
Definition is_header (hdr : list N) : Prop :=
  exists ws name ws1 ws2,
    hdr = text "uint8_t" ++ ws ++ name ++ text "[]" ++ ws1
          ++ text "=" ++ ws2 ++ text "{"
    /\ ws <> [] /\ Forall (fun c => Re.is_space c = true) ws
    /\ name <> [] /\ Forall (fun c => Re.is_word c = true) name
    /\ Forall (fun c => Re.is_space c = true) ws1
    /\ Forall (fun c => Re.is_space c = true) ws2.

(** A declaration body, [[^}]+]. *)
Definition is_body (body : list N) : Prop :=
  body <> [] /\ Forall (fun c => Re.not_rbrace c = true) body.

(** A declaration in a file, with the text between it and the previous
    one. *)
Record decl := Decl { gap : list N; header : list N; body : list N }.

Definition is_decl (d : decl) : Prop := is_header (header d) /\ is_body (body d).

(** The file made of the declarations [ds] and the text [rest] after the
    last one, with [f] applied to every body. *)
Definition splice (f : list N -> list N) (ds : list decl) (rest : list N)
    : list N :=
  concat (map (fun d => gap d ++ header d ++ f (body d) ++ text "}") ds) ++ rest.

(** [ds] are all the declarations of the file: no match of the pattern
    starts in a gap or after the last declaration. *)
Fixpoint leftmost (ds : list decl) (rest : list N) : Prop :=
  match ds with
  | [] => forall s1 s2, rest = s1 ++ s2 -> Re.match_at body_pattern s2 = None
  | d :: ds' =>
      (forall p1 p2, gap d = p1 ++ p2 -> p2 <> [] ->
         Re.match_at body_pattern
           (p2 ++ header d ++ body d ++ text "}" ++ splice (fun b => b) ds' rest) = None)
      /\ leftmost ds' rest
  end.

(** A text without backslash stands for itself in a template. *)
Definition plain (t : list N) : Prop := Forall (fun c => c <> 92%N) t.

Section Substitution.
Import Re.

Lemma match_at_body_pattern s gs rest :
  match_at body_pattern s = Some (gs, rest) ->
  exists hdr b,
    s = hdr ++ b ++ text "}" ++ rest /\ is_header hdr /\ is_body b
    /\ group gs 1 = Some hdr /\ group gs 2 = Some (text "}").
Proof.
  intros H. apply match_at_sound in H as (m & caps & -> & Hm & ->).
  unfold body_pattern in Hm. cbn [cat foldr] in Hm.
  apply matches_Cat_inv in Hm as (hdr & m1 & c1 & c2 & -> & -> & Hh & Hm).
  apply matches_Grp_inv in Hh as (c1' & -> & Hh).
  apply matches_Cat_inv in Hm as (b & m2 & c3 & c4 & -> & -> & Hb & Hm).
  apply matches_Plus in Hb as (Hbne & Hb & ->).
  apply matches_Cat_inv in Hm as (cl & m3 & c5 & c6 & -> & -> & Hc & Hm).
  apply matches_Eps_inv in Hm as [-> ->].
  apply matches_Grp_inv in Hc as (c5' & -> & Hc).
  apply matches_Lit in Hc as [-> ->].
  apply matches_Cat_inv in Hh as (t1 & h1 & d1 & d2 & -> & -> & Ht1 & Hh).
  apply matches_Lit in Ht1 as [-> ->].
  apply matches_Cat_inv in Hh as (ws & h2 & d3 & d4 & -> & -> & Hws & Hh).
  apply matches_Plus in Hws as (Hwsne & Hws & ->).
  apply matches_Cat_inv in Hh as (name & h3 & d5 & d6 & -> & -> & Hname & Hh).
  apply matches_Plus in Hname as (Hnamene & Hname & ->).
  apply matches_Cat_inv in Hh as (t2 & h4 & d7 & d8 & -> & -> & Ht2 & Hh).
  apply matches_Lit in Ht2 as [-> ->].
  apply matches_Cat_inv in Hh as (ws1 & h5 & d9 & d10 & -> & -> & Hws1 & Hh).
  apply matches_Star_inv in Hws1 as [Hws1 ->].
  apply matches_Cat_inv in Hh as (t3 & h6 & d11 & d12 & -> & -> & Ht3 & Hh).
  apply matches_Lit in Ht3 as [-> ->].
  apply matches_Cat_inv in Hh as (ws2 & h7 & d13 & d14 & -> & -> & Hws2 & Hh).
  apply matches_Star_inv in Hws2 as [Hws2 ->].
  apply matches_Cat_inv in Hh as (t4 & h8 & d15 & d16 & -> & -> & Ht4 & Hh).
  apply matches_Lit in Ht4 as [-> ->].
  apply matches_Eps_inv in Hh as [-> ->].
  rewrite !app_nil_r.
  exists (text "uint8_t" ++ ws ++ name ++ text "[]" ++ ws1
          ++ text "=" ++ ws2 ++ text "{"), b.
  split; [rewrite <- !app_assoc; reflexivity|].
  split; [exists ws, name, ws1, ws2; auto 10|].
  split; [split; assumption|].
  split; reflexivity.
Qed.

Lemma is_header_length hdr : is_header hdr -> (0 < length hdr)%nat.
Proof.
  intros (ws & name & ws1 & ws2 & -> & _). rewrite length_app. cbn. lia.
Qed.

Lemma splice_cons f d ds rest :
  splice f (d :: ds) rest
  = gap d ++ header d ++ f (body d) ++ text "}" ++ splice f ds rest.
Proof. unfold splice. cbn [map concat]. rewrite <- !app_assoc. reflexivity. Qed.

(** The matches [finditer] returns are the declarations of the text. *)
Lemma finditer_body_pattern fuel : forall s ms rest,
  (length s < fuel)%nat ->
  finditer fuel body_pattern s = (ms, rest) ->
  exists ds,
    s = splice (fun b => b) ds rest /\ Forall is_decl ds /\ leftmost ds rest
    /\ Forall2 (fun m d =>
                  fst m = gap d /\ group (snd m) 1 = Some (header d)
                  /\ group (snd m) 2 = Some (text "}")) ms ds.
Proof.
  induction fuel as [|fuel IH]; intros s ms rest Hlen; [lia|].
  cbn [finditer].
  destruct (search body_pattern s) as [[[pre gs] rest']|] eqn:Hs.
  - destruct (finditer fuel body_pattern rest') as [ms' tl] eqn:Hf.
    intros [= <- <-].
    apply search_Some in Hs as (m & -> & Hm & Hfirst).
    apply match_at_body_pattern in Hm as (hdr & b & -> & Hh & Hb & Hg1 & Hg2).
    apply IH in Hf as (ds & -> & Hds & Hleft & Hms).
    + exists (Decl pre hdr b :: ds). rewrite splice_cons. cbn [gap header body].
      split; [reflexivity|]. split; [constructor; [split; assumption|assumption]|].
      split; [split; [exact Hfirst|exact Hleft]|].
      constructor; [cbn [fst snd gap header]; auto|exact Hms].
    + pose proof (is_header_length _ Hh). rewrite !length_app in Hlen. lia.
  - intros [= <- <-]. exists [].
    split; [reflexivity|]. split; [constructor|].
    split; [|constructor]. cbn [leftmost]. apply search_None. exact Hs.
Qed.

(** ** The replacement template *)

Lemma parse_template_plain c t :
  c <> 92%N ->
  parse_template (c :: t) = let? out := parse_template t in Ok (Chars c :: out).
Proof.
  intros Hc. destruct c as [|p]; [reflexivity|].
  do 7 (destruct p as [p|p|]; try reflexivity). all: congruence.
Qed.

Lemma parse_template_app b t out :
  plain b -> parse_template t = Ok out ->
  parse_template (b ++ t) = Ok (map Chars b ++ out).
Proof.
  intros Hb Ht. induction Hb as [|c b Hc Hb IH]; [exact Ht|].
  cbn [app map]. rewrite parse_template_plain by exact Hc. rewrite IH. reflexivity.
Qed.

Lemma parse_template_template b :
  plain b ->
  parse_template (template b)
  = Ok (Ref 1 :: Chars 10 :: map Chars b ++ [Chars 10; Ref 2]).
Proof.
  intros Hb. unfold template.
  assert (Ht : parse_template (b ++ newline ++ text "\2")
               = Ok (map Chars b ++ [Chars 10; Ref 2])).
  { apply parse_template_app; [exact Hb|]. reflexivity. }
  change (text "\1\n" ++ b ++ newline ++ text "\2")
    with (92 :: 49 :: 92 :: 110 :: b ++ newline ++ text "\2")%N.
  cbn [parse_template]. rewrite Ht. reflexivity.
Qed.

Lemma expand_chars gs b : expand gs (map Chars b) = b.
Proof. unfold expand. induction b as [|c b IH]; [reflexivity|]. cbn. f_equal. exact IH. Qed.

Lemma expand_template gs b h c :
  group gs 1 = Some h -> group gs 2 = Some c ->
  expand gs (Ref 1 :: Chars 10 :: map Chars b ++ [Chars 10; Ref 2])
  = h ++ newline ++ b ++ newline ++ c.
Proof.
  intros H1 H2. unfold expand. cbn [map concat]. rewrite H1. cbn [default].
  f_equal. cbn [app]. f_equal. rewrite map_app, concat_app.
  fold (expand gs (map Chars b)). rewrite expand_chars.
  cbn [map concat]. rewrite H2. cbn. rewrite app_nil_r. reflexivity.
Qed.

(** ** The rendered array has no backslash *)

Lemma plain_app a b : plain a -> plain b -> plain (a ++ b).
Proof. apply Forall_app_2. Qed.

Lemma plain_join sep parts : plain sep -> Forall plain parts -> plain (join sep parts).
Proof.
  intros Hsep Hparts. induction Hparts as [|p parts Hp Hparts IH]; [constructor|].
  cbn [join]. destruct parts as [|q parts]; [exact Hp|].
  apply plain_app; [exact Hp|]. apply plain_app; [exact Hsep|exact IH].
Qed.

Lemma plain_text_check (t : list N) : forallb (fun c => negb (c =? 92)%N) t = true -> plain t.
Proof.
  induction t as [|c t IH]; cbn [forallb]; intros H; [constructor|].
  apply andb_true_iff in H as [Hc H]. constructor; [|apply IH; exact H].
  apply negb_true_iff, N.eqb_neq in Hc. exact Hc.
Qed.

Lemma hex_digit_plain n : hex_digit (n mod 16) <> 92%N.
Proof.
  pose proof (Z.mod_pos_bound n 16 ltac:(lia)) as Hn. unfold hex_digit.
  destruct (Z.ltb_spec (n mod 16) 10); lia.
Qed.

Lemma hex_digits_plain fuel : forall n acc, plain acc -> plain (hex_digits fuel n acc).
Proof.
  induction fuel as [|fuel IH]; intros n acc Hacc; cbn [hex_digits].
  - constructor; [apply hex_digit_plain|exact Hacc].
  - destruct (n / 16 =? 0).
    + constructor; [apply hex_digit_plain|exact Hacc].
    + apply IH. constructor; [apply hex_digit_plain|exact Hacc].
Qed.

Lemma format_02x_plain b : plain (format_02x b).
Proof.
  unfold format_02x.
  pose proof (hex_digits_plain (Z.to_nat (Z.log2 (Z.abs b))) (Z.abs b) [] ltac:(constructor)) as H.
  destruct (b <? 0); [constructor; [lia|exact H]|].
  destruct (_ <? 2)%nat; [constructor; [lia|exact H]|exact H].
Qed.

Lemma format_pixel_plain b g r a : plain (format_pixel b g r a).
Proof.
  unfold format_pixel.
  repeat (apply plain_app; [first [apply format_02x_plain | apply plain_text_check; reflexivity]|]).
  apply format_02x_plain.
Qed.

Lemma format_line_plain lp : Forall plain lp -> plain (format_line lp).
Proof.
  intros H. unfold format_line.
  apply plain_app; [apply plain_text_check; reflexivity|].
  apply plain_app; [|apply plain_text_check; reflexivity].
  apply plain_join; [apply plain_text_check; reflexivity|exact H].
Qed.

Lemma format_step_plain pixels width lines lp i lines' lp' :
  Forall plain lines -> Forall plain lp ->
  format_step pixels width (lines, lp) i = Ok (lines', lp') ->
  Forall plain lines' /\ Forall plain lp'.
Proof.
  intros Hl Hp. unfold format_step.
  destruct (if 0 <? i then if width =? 0 then Raise ZeroDivisionError
                           else Ok ((i / 4) mod width =? 0) else Ok false)
    as [new_line|e]; [|discriminate].
  cbn [res_bind].
  assert (Hst : Forall plain (fst (if new_line then (lines ++ [format_line lp], [])
                                   else (lines, lp)))
              /\ Forall plain (snd (if new_line then (lines ++ [format_line lp], [])
                                    else (lines, lp)))).
  { destruct new_line; cbn [fst snd]; [|auto].
    split; [|constructor]. apply Forall_app_2; [exact Hl|].
    constructor; [apply format_line_plain; exact Hp|constructor]. }
  destruct (if new_line then _ else _) as [l1 p1]. cbn [fst snd] in Hst.
  destruct Hst as [Hl1 Hp1].
  destruct (slice pixels i (i + 4)) as [|b [|g [|r [|a [|? ?]]]]]; try discriminate.
  intros [= <- <-]. split; [exact Hl1|].
  apply Forall_app_2; [exact Hp1|]. constructor; [apply format_pixel_plain|constructor].
Qed.

Lemma format_loop_plain pixels width indices : forall lines lp lines' lp',
  Forall plain lines -> Forall plain lp ->
  format_loop pixels width indices (lines, lp) = Ok (lines', lp') ->
  Forall plain lines' /\ Forall plain lp'.
Proof.
  induction indices as [|i indices IH]; intros lines lp lines' lp' Hl Hp; cbn [format_loop].
  - intros [= <- <-]. auto.
  - destruct (format_step pixels width (lines, lp) i) as [[l1 p1]|e] eqn:Hs; [|discriminate].
    cbn [res_bind]. apply format_step_plain in Hs as [Hl1 Hp1]; [|assumption..].
    apply IH; assumption.
Qed.

Lemma array_content_plain pixels width t :
  array_content pixels width = Ok t -> plain t.
Proof.
  unfold array_content.
  destruct (format_loop _ _ _ _) as [[lines lp]|e] eqn:Hloop; [|discriminate].
  cbn [res_bind]. intros [= <-].
  apply format_loop_plain in Hloop as [Hl Hp]; [|constructor..].
  apply plain_join; [apply plain_text_check; reflexivity|].
  destruct lp as [|p lp]; [exact Hl|].
  apply Forall_app_2; [exact Hl|].
  constructor; [apply format_line_plain; exact Hp|constructor].
Qed.

(** ** What [format_output] returns *)

Lemma sub_body_pattern b content :
  plain b ->
  exists ds rest,
    content = splice (fun b => b) ds rest /\ Forall is_decl ds /\ leftmost ds rest
    /\ sub body_pattern (template b) content
       = Ok (splice (fun _ => newline ++ b ++ newline) ds rest).
Proof.
  intros Hb. unfold sub. rewrite parse_template_template by exact Hb.
  cbn [res_bind].
  destruct (finditer (S (length content)) body_pattern content) as [ms rest] eqn:Hf.
  apply finditer_body_pattern in Hf as (ds & Hc & Hds & Hleft & Hms); [|lia].
  exists ds, rest. split; [exact Hc|]. split; [exact Hds|]. split; [exact Hleft|].
  f_equal. unfold splice. f_equal. f_equal. clear Hc Hds Hleft.
  induction Hms as [|m d ms ds (Hg & H1 & H2) Hms IH]; [reflexivity|].
  cbn [map]. rewrite IH. f_equal.
  rewrite (expand_template _ _ _ _ H1 H2), Hg.
  rewrite <- !app_assoc. reflexivity.
Qed.

End Substitution.

(** ** The serializer's claims *)

Section SerializerClaims.

Definition two_arrays : list N :=
  text "uint8_t a[] = {0x00}; uint8_t b[] = {0x11};".

Definition one_pixel_body : list N :=
  newline ++ text "  0x01, 0x02, 0x03, 0x04," ++ newline.

(** C1 (as stated: only the first declaration is replaced) fails: on a file
    with two declarations the serializer rewrites the body of both. *)
Lemma C1_second_declaration_counterexample :
  format_output [1; 2; 3; 4] two_arrays 1
  = Ok (text "uint8_t a[] = {" ++ one_pixel_body
        ++ text "}; uint8_t b[] = {" ++ one_pixel_body ++ text "};")
  /\ format_output [1; 2; 3; 4] two_arrays 1
     <> Ok (text "uint8_t a[] = {" ++ one_pixel_body
            ++ text "}; uint8_t b[] = {0x11};").
Proof. split; [vm_compute; reflexivity|vm_compute; discriminate]. Qed.

(** C1 (amended): the serializer substitutes the new array text, between
    two newlines, for the body of every declaration matching the pattern;
    the text before, between and after the declarations, their headers and
    their closing braces are unchanged. *)
Theorem C1_every_declaration_rewritten pixels content width new_body :
  array_content pixels width = Ok new_body ->
  exists ds rest,
    content = splice (fun b => b) ds rest
    /\ Forall is_decl ds
    /\ leftmost ds rest
    /\ format_output pixels content width
       = Ok (splice (fun _ => newline ++ new_body ++ newline) ds rest).
Proof.
  intros Hbody. unfold format_output. rewrite Hbody. cbn [res_bind].
  apply sub_body_pattern. eapply array_content_plain. exact Hbody.
Qed.

Lemma C1_every_declaration_rewritten_witness :
  exists ds rest,
    two_arrays = splice (fun b => b) ds rest
    /\ Forall is_decl ds
    /\ leftmost ds rest
    /\ format_output [1; 2; 3; 4] two_arrays 1
       = Ok (splice (fun _ => newline ++ text "  0x01, 0x02, 0x03, 0x04," ++ newline)
               ds rest).
Proof.
  apply (C1_every_declaration_rewritten [1; 2; 3; 4] two_arrays 1
           (text "  0x01, 0x02, 0x03, 0x04,")).
  vm_compute. reflexivity.
Defined.

End SerializerClaims.

(** * Reading the rendered array back *)

(** The literals [re.findall] takes out of a text for the hex pattern,
    read off the text from left to right. *)
Fixpoint scan (s : list N) : list (list N) :=
  match s with
  | [] => []
  | c :: s' =>
      match s' with
      | x :: h1 :: h2 :: rest =>
          if ((48 =? c) && (120 =? x))%N && Re.is_hex h1 && Re.is_hex h2
          then [c; x; h1; h2] :: scan rest
          else scan s'
      | _ => scan s'
      end
  end.

(** [t] holds the literals [ts] and nothing of a literal that would go
    on into the text after it. *)
Definition renders (t : list N) (ts : list (list N)) : Prop :=
  forall rest, scan (t ++ rest) = ts ++ scan rest.

(** [f"0x{b:02x}"] *)
Definition token (b : Z) : list N := text "0x" ++ format_02x b.

Definition token_ok (b : Z) : bool :=
  match token b with
  | [c; x; h1; h2] => ((48 =? c) && (120 =? x))%N && Re.is_hex h1 && Re.is_hex h2
  | _ => false
  end
  && match int_base16 (token b) with
     | Ok v => v =? b
     | Raise _ => false
     end.

Section ReadBack.
Import Re.

Lemma match_at_hex_pattern s :
  match_at hex_pattern s
  = match s with
    | c :: x :: h1 :: h2 :: rest =>
        if ((48 =? c) && (120 =? x))%N && is_hex h1 && is_hex h2
        then Some ([(0%nat, [c; x; h1; h2])], rest)
        else None
    | _ => None
    end.
Proof.
  unfold match_at, hex_pattern. cbn [cat foldr Lit text map list_ascii_of_string run].
  change (N_of_ascii "0") with 48%N. change (N_of_ascii "x") with 120%N.
  destruct s as [|c [|x [|h1 [|h2 rest]]]]; try reflexivity.
  - destruct (48 =? c)%N; reflexivity.
  - destruct (48 =? c)%N; [|reflexivity]. destruct (120 =? x)%N; reflexivity.
  - destruct (48 =? c)%N; [|reflexivity]. destruct (120 =? x)%N; [|reflexivity].
    destruct (is_hex h1); reflexivity.
  - destruct (48 =? c)%N; [|reflexivity]. destruct (120 =? x)%N; [|reflexivity].
    destruct (is_hex h1); [|reflexivity]. destruct (is_hex h2); [|reflexivity].
    cbn [andb].
    pose proof (take_app_length_diff [c; x; h1; h2] rest) as Ht.
    cbn [app] in Ht. rewrite Ht. reflexivity.
Qed.

Definition found (ms : list (list N * groups)) : list (list N) :=
  omap (fun m => group (snd m) 0) ms.

Lemma finditer_hex_pattern fuel : forall s,
  (length s < fuel)%nat -> found (fst (finditer fuel hex_pattern s)) = scan s.
Proof.
  induction fuel as [|fuel IHf]; intros s Hlen; [lia|].
  induction s as [|c s IHs].
  - reflexivity.
  - cbn [finditer search]. rewrite match_at_hex_pattern.
    assert (Hskip : found (fst (match
               match search hex_pattern s with
               | Some (pre, gs, rest) => Some (c :: pre, gs, rest)
               | None => None
               end
             with
             | Some (pre, gs, rest) =>
                 let '(ms, tl) := finditer fuel hex_pattern rest in
                 ((pre, gs) :: ms, tl)
             | None => ([], c :: s)
             end)) = scan s).
    { rewrite <- IHs by (cbn in Hlen; lia). cbn [finditer].
      destruct (search hex_pattern s) as [[[pre gs] rest]|]; [|reflexivity].
      destruct (finditer fuel hex_pattern rest) as [ms tl]. reflexivity. }
    destruct s as [|x [|h1 [|h2 rest]]]; try exact Hskip.
    cbn [scan].
    destruct (((48 =? c) && (120 =? x))%N && is_hex h1 && is_hex h2); [|exact Hskip].
    specialize (IHf rest ltac:(cbn in Hlen; lia)).
    destruct (finditer fuel hex_pattern rest) as [ms tl]. cbn [fst] in *.
    unfold found in *. cbn. rewrite IHf. reflexivity.
Qed.

Lemma findall_hex_pattern s : findall hex_pattern s = scan s.
Proof. unfold findall. apply finditer_hex_pattern. lia. Qed.

End ReadBack.

Section RoundTrip.
Import Re.

Lemma renders_nil : renders [] [].
Proof. intros rest. reflexivity. Qed.

Lemma renders_app a b ta tb :
  renders a ta -> renders b tb -> renders (a ++ b) (ta ++ tb).
Proof.
  intros Ha Hb rest. rewrite <- !app_assoc, Ha, Hb. reflexivity.
Qed.

Lemma renders_app_l a b tb : renders a [] -> renders b tb -> renders (a ++ b) tb.
Proof. apply (renders_app a b [] tb). Qed.

Lemma renders_app_r a b ta : renders a ta -> renders b [] -> renders (a ++ b) ta.
Proof.
  intros Ha Hb rest. rewrite <- !app_assoc, Ha, Hb. reflexivity.
Qed.

Lemma renders_scan t ts : renders t ts -> scan t = ts.
Proof. intros H. specialize (H []). rewrite !app_nil_r in H. exact H. Qed.

Lemma renders_char c : (48 =? c)%N = false -> renders [c] [].
Proof.
  intros Hc rest. cbn [app scan]. rewrite Hc.
  destruct rest as [|x [|h1 [|h2 rest]]]; reflexivity.
Qed.

Lemma renders_text t :
  forallb (fun c => negb (48 =? c)%N) t = true -> renders t [].
Proof.
  induction t as [|c t IH]; cbn [forallb]; intros H; [apply renders_nil|].
  apply andb_true_iff in H as [Hc H]. apply negb_true_iff in Hc.
  apply (renders_app_l [c] t); [apply renders_char; exact Hc|apply IH; exact H].
Qed.

Lemma renders_concat parts tss :
  Forall2 renders parts tss -> renders (concat parts) (concat tss).
Proof.
  induction 1 as [|p ts parts tss Hp _ IH]; [apply renders_nil|].
  cbn [concat]. apply renders_app; assumption.
Qed.

Lemma renders_join sep parts tss :
  renders sep [] -> Forall2 renders parts tss ->
  renders (join sep parts) (concat tss).
Proof.
  intros Hsep. induction 1 as [|p ts parts tss Hp Hparts IH]; [apply renders_nil|].
  cbn [join concat]. destruct parts as [|q parts].
  - inversion Hparts; subst. cbn [concat]. rewrite app_nil_r. exact Hp.
  - apply renders_app; [exact Hp|].
    apply renders_app_l; [exact Hsep|exact IH].
Qed.

(** ** One byte *)

Lemma forallb_elem_of {A} (f : A -> bool) (l : list A) x :
  forallb f l = true -> x ∈ l -> f x = true.
Proof.
  induction l as [|y l IH]; cbn [forallb]; intros H Hx.
  - inversion Hx.
  - apply andb_true_iff in H as [Hy H]. apply elem_of_cons in Hx as [->|Hx]; auto.
Qed.

Lemma forallb_take {A} (f : A -> bool) (l : list A) n :
  forallb f l = true -> forallb f (take n l) = true.
Proof.
  revert n. induction l as [|y l IH]; intros [|n]; cbn [forallb take]; auto.
  intros H. apply andb_true_iff in H as [Hy H]. rewrite Hy. cbn [andb]. auto.
Qed.

Lemma forallb_drop {A} (f : A -> bool) (l : list A) n :
  forallb f l = true -> forallb f (drop n l) = true.
Proof.
  revert n. induction l as [|y l IH]; intros [|n]; cbn [forallb drop]; auto.
  intros H. apply andb_true_iff in H as [Hy H]. auto.
Qed.

Lemma token_ok_all : forallb token_ok (seqZ 0 256) = true.
Proof. vm_compute. reflexivity. Qed.

Lemma token_ok_byte b : is_byte b = true -> token_ok b = true.
Proof.
  intros Hb. apply is_byte_spec in Hb.
  apply (forallb_elem_of _ _ _ token_ok_all). apply elem_of_seqZ. lia.
Qed.

Lemma renders_token b : is_byte b = true -> renders (token b) [token b].
Proof.
  intros Hb. apply token_ok_byte in Hb. unfold token_ok in Hb.
  apply andb_true_iff in Hb as [Hb _].
  destruct (token b) as [|c [|x [|h1 [|h2 [|? ?]]]]]; try discriminate.
  intros rest. cbn [app scan]. rewrite Hb. reflexivity.
Qed.

Lemma int_base16_token b : is_byte b = true -> int_base16 (token b) = Ok b.
Proof.
  intros Hb. apply token_ok_byte in Hb. unfold token_ok in Hb.
  apply andb_true_iff in Hb as [_ Hb].
  destruct (int_base16 (token b)) as [v|e]; [|discriminate].
  apply Z.eqb_eq in Hb. subst v. reflexivity.
Qed.

Lemma map_res_tokens pixels :
  forallb is_byte pixels = true -> map_res int_base16 (map token pixels) = Ok pixels.
Proof.
  induction pixels as [|b pixels IH]; cbn [forallb map map_res]; intros H; [reflexivity|].
  apply andb_true_iff in H as [Hb H]. rewrite (int_base16_token _ Hb). cbn [res_bind].
  rewrite (IH H). reflexivity.
Qed.

(** ** One pixel, one line *)

Lemma format_pixel_tokens b g r a :
  format_pixel b g r a
  = token b ++ text ", " ++ token g ++ text ", " ++ token r ++ text ", " ++ token a.
Proof.
  unfold format_pixel, token.
  change (text ", 0x") with (text ", " ++ text "0x").
  rewrite <- !app_assoc. reflexivity.
Qed.

Lemma renders_format_pixel b g r a :
  is_byte b = true -> is_byte g = true -> is_byte r = true -> is_byte a = true ->
  renders (format_pixel b g r a) (map token [b; g; r; a]).
Proof.
  intros Hb Hg Hr Ha. rewrite format_pixel_tokens.
  pose proof (renders_text (text ", ") eq_refl) as Hsep.
  apply (renders_app _ _ [token b] [token g; token r; token a]); [apply renders_token; exact Hb|].
  apply renders_app_l; [exact Hsep|].
  apply (renders_app _ _ [token g] [token r; token a]); [apply renders_token; exact Hg|].
  apply renders_app_l; [exact Hsep|].
  apply (renders_app _ _ [token r] [token a]); [apply renders_token; exact Hr|].
  apply renders_app_l; [exact Hsep|].
  apply renders_token; exact Ha.
Qed.

Lemma renders_format_line lp tp :
  Forall2 renders lp tp -> renders (format_line lp) (concat tp).
Proof.
  intros H. unfold format_line.
  apply renders_app_l; [apply renders_text; reflexivity|].
  apply renders_app_r; [|apply renders_text; reflexivity].
  apply renders_join; [apply renders_text; reflexivity|exact H].
Qed.

(** ** The loop *)

Section Loop.
Variables (pixels : list Z) (width : Z).
Hypothesis Hbytes : forallb is_byte pixels = true.

(** After the first [n] values: the lines and the pixels of the line
    under way hold their literals, in order. *)
Definition rendered (n : nat) (st : list (list N) * list (list N)) : Prop :=
  exists tl tp,
    Forall2 renders (fst st) tl /\ Forall2 renders (snd st) tp
    /\ concat tl ++ concat tp = map token (take n pixels).

Lemma slice_bytes n b g r a :
  slice pixels (Z.of_nat n) (Z.of_nat n + 4) = [b; g; r; a] ->
  take (n + 4) pixels = take n pixels ++ [b; g; r; a]
  /\ is_byte b = true /\ is_byte g = true /\ is_byte r = true /\ is_byte a = true.
Proof.
  unfold slice. rewrite Nat2Z.id.
  replace (Z.to_nat (Z.of_nat n + 4 - Z.of_nat n)) with 4%nat by lia.
  intros Hs. split; [rewrite <- take_take_drop, Hs; reflexivity|].
  assert (Hall : forallb is_byte (take 4 (drop n pixels)) = true).
  { apply forallb_take, forallb_drop. exact Hbytes. }
  rewrite Hs in Hall. cbn [forallb] in Hall.
  repeat (apply andb_true_iff in Hall as [? Hall]). auto.
Qed.

Lemma format_step_rendered n st st' :
  rendered n st ->
  format_step pixels width st (Z.of_nat n) = Ok st' ->
  rendered (n + 4) st'.
Proof.
  intros (tl & tp & Hl & Hp & Hcat). destruct st as [lines lp]. cbn [fst snd] in *.
  unfold format_step.
  destruct (if 0 <? Z.of_nat n then if width =? 0 then Raise ZeroDivisionError
                           else Ok ((Z.of_nat n / 4) mod width =? 0) else Ok false)
    as [new_line|e]; [|discriminate].
  cbn [res_bind].
  assert (Hst : rendered n (if new_line then (lines ++ [format_line lp], [])
                            else (lines, lp))).
  { destruct new_line.
    - exists (tl ++ [concat tp]), []. cbn [fst snd]. split.
      + apply Forall2_app; [exact Hl|].
        constructor; [apply renders_format_line; exact Hp|constructor].
      + split; [constructor|]. rewrite concat_app. cbn [concat].
        rewrite !app_nil_r. exact Hcat.
    - exists tl, tp. auto. }
  destruct (if new_line then _ else _) as [l1 p1].
  destruct Hst as (tl1 & tp1 & Hl1 & Hp1 & Hcat1). cbn [fst snd] in *.
  destruct (slice pixels (Z.of_nat n) (Z.of_nat n + 4))
    as [|b [|g [|r [|a [|? ?]]]]] eqn:Hs; try discriminate.
  intros [= <-]. apply slice_bytes in Hs as (Htake & Hb & Hg & Hr & Ha).
  exists tl1, (tp1 ++ [map token [b; g; r; a]]). cbn [fst snd].
  split; [exact Hl1|]. split.
  - apply Forall2_app; [exact Hp1|].
    constructor; [apply renders_format_pixel; assumption|constructor].
  - rewrite concat_app. cbn [concat]. rewrite app_nil_r, app_assoc, Hcat1, Htake.
    rewrite map_app. reflexivity.
Qed.

Lemma format_loop_rendered cnt : forall m st st',
  rendered (4 * m) st ->
  format_loop pixels width ((fun k => k * 4) <$> seqZ (Z.of_nat m) (Z.of_nat cnt)) st
  = Ok st' ->
  rendered (4 * (m + cnt)) st'.
Proof.
  induction cnt as [|cnt IH]; intros m st st' Hst.
  - rewrite seqZ_nil by lia. cbn [fmap list_fmap format_loop]. intros [= <-].
    replace (4 * (m + 0))%nat with (4 * m)%nat by lia. exact Hst.
  - rewrite seqZ_cons by lia. cbn [fmap list_fmap format_loop].
    destruct (format_step pixels width st (Z.of_nat m * 4)) as [st1|e] eqn:Hs; [|discriminate].
    cbn [res_bind]. intros Hloop.
    replace (Z.of_nat m * 4) with (Z.of_nat (4 * m)) in Hs by lia.
    apply format_step_rendered in Hs; [|exact Hst].
    replace (Z.succ (Z.of_nat m)) with (Z.of_nat (S m)) in Hloop by lia.
    replace (Z.pred (Z.of_nat (S cnt))) with (Z.of_nat cnt) in Hloop by lia.
    apply IH in Hloop.
    + replace (4 * (m + S cnt))%nat with (4 * (S m + cnt))%nat by lia. exact Hloop.
    + replace (4 * S m)%nat with (4 * m + 4)%nat by lia. exact Hs.
Qed.

Lemma array_content_renders t :
  array_content pixels width = Ok t -> renders t (map token pixels).
Proof.
  unfold array_content, range_step.
  destruct (format_loop _ _ _ _) as [[lines lp]|e] eqn:Hloop; [|discriminate].
  cbn [res_bind]. intros [= <-].
  set (cnt := Z.to_nat ((Z.of_nat (length pixels) + 4 - 1) / 4)).
  assert (Hcnt : (Z.of_nat (length pixels) + 4 - 1) / 4 = Z.of_nat cnt).
  { unfold cnt. rewrite Z2Nat.id; [reflexivity|]. apply Z.div_pos; lia. }
  rewrite Hcnt in Hloop.
  apply (format_loop_rendered cnt 0) in Hloop.
  - destruct Hloop as (tl & tp & Hl & Hp & Hcat). cbn [fst snd] in *.
    rewrite take_ge in Hcat.
    + rewrite <- Hcat.
      destruct lp as [|p lp].
      * inversion Hp; subst. cbn [concat]. rewrite app_nil_r.
        apply renders_join; [apply renders_text; reflexivity|exact Hl].
      * replace (concat tl ++ concat tp) with (concat (tl ++ [concat tp]))
          by (rewrite concat_app; cbn [concat]; rewrite app_nil_r; reflexivity).
        apply renders_join; [apply renders_text; reflexivity|].
        apply Forall2_app; [exact Hl|].
        constructor; [apply renders_format_line; exact Hp|constructor].
    + cbn [Nat.add]. pose proof (Z.mul_div_le (Z.of_nat (length pixels) + 4 - 1) 4 ltac:(lia)).
      pose proof (Z.mod_pos_bound (Z.of_nat (length pixels) + 4 - 1) 4 ltac:(lia)).
      pose proof (Z.div_mod (Z.of_nat (length pixels) + 4 - 1) 4 ltac:(lia)). lia.
  - exists [], []. cbn. split; [constructor|]. split; [constructor|reflexivity].
Qed.

End Loop.

End RoundTrip.

Section RoundTripClaim.
Import Re.

Lemma slice_four (pixels : list Z) n :
  (n + 4 <= length pixels)%nat ->
  exists b g r a, slice pixels (Z.of_nat n) (Z.of_nat n + 4) = [b; g; r; a].
Proof.
  intros Hn. unfold slice. rewrite Nat2Z.id.
  replace (Z.to_nat (Z.of_nat n + 4 - Z.of_nat n)) with 4%nat by lia.
  assert (Hlen : length (take 4 (drop n pixels)) = 4%nat).
  { rewrite length_take, length_drop. lia. }
  destruct (take 4 (drop n pixels)) as [|b [|g [|r [|a [|? ?]]]]]; try discriminate.
  eauto.
Qed.

Lemma format_step_total pixels width st n :
  width <> 0 -> (n + 4 <= length pixels)%nat ->
  exists st', format_step pixels width st (Z.of_nat n) = Ok st'.
Proof.
  intros Hw Hn. destruct st as [lines lp]. unfold format_step.
  destruct (slice_four pixels n Hn) as (b & g & r & a & Hs).
  apply Z.eqb_neq in Hw. rewrite Hw.
  destruct (0 <? Z.of_nat n); cbn [res_bind].
  - rewrite Hs. destruct ((Z.of_nat n / 4) mod width =? 0); eauto.
  - rewrite Hs. eauto.
Qed.

Lemma format_loop_total pixels width cnt : forall m st,
  width <> 0 -> (4 * (m + cnt) <= length pixels)%nat ->
  exists st',
    format_loop pixels width
      ((fun k => k * 4) <$> seqZ (Z.of_nat m) (Z.of_nat cnt)) st = Ok st'.
Proof.
  induction cnt as [|cnt IH]; intros m st Hw Hlen.
  - rewrite seqZ_nil by lia. cbn [fmap list_fmap format_loop]. eauto.
  - rewrite seqZ_cons by lia. cbn [fmap list_fmap format_loop].
    replace (Z.of_nat m * 4) with (Z.of_nat (4 * m)) by lia.
    destruct (format_step_total pixels width st (4 * m) Hw ltac:(lia)) as [st1 ->].
    cbn [res_bind].
    replace (Z.succ (Z.of_nat m)) with (Z.of_nat (S m)) by lia.
    replace (Z.pred (Z.of_nat (S cnt))) with (Z.of_nat cnt) by lia.
    apply IH; [exact Hw|lia].
Qed.

Lemma array_content_total pixels width :
  Z.of_nat (length pixels) mod 4 = 0 -> width <> 0 ->
  exists t, array_content pixels width = Ok t.
Proof.
  intros Hmod Hw. unfold array_content, range_step.
  apply Z.mod_divide in Hmod as [q Hq]; [|lia].
  replace ((Z.of_nat (length pixels) + 4 - 1) / 4) with (Z.of_nat (Z.to_nat q)).
  - destruct (format_loop_total pixels width (Z.to_nat q) 0 ([], []) Hw ltac:(lia))
      as [[lines lp] Hloop].
    change (Z.of_nat 0) with 0 in Hloop. rewrite Hloop.
    cbn [res_bind]. eauto.
  - rewrite Hq. replace (q * 4 + 4 - 1) with (3 + q * 4) by lia.
    rewrite Z.div_add by lia. change (3 / 4) with 0. lia.
Qed.

Definition two_pixels : list Z := [0; 17; 171; 255; 10; 160; 9; 128].



(** The same on a whole file: extracting from the serializer's output and
    serializing again leaves the file as it is. *)
Example round_trip_file :
  exists out,
    format_output two_pixels two_arrays 1 = Ok out
    /\ parse_c_file out = Ok (two_pixels, out, text "a")
    /\ format_output two_pixels out 1 = Ok out.
Proof. eexists. split; [vm_compute; reflexivity|]. split; vm_compute; reflexivity. Qed.

End RoundTripClaim.

(** * The matcher finds every match *)

Section Completeness.
Import Re.

Lemma star_found {R} (p : N -> bool) (k : list N -> option R) s res :
  k s = Some res -> exists res', star p k s = Some res'.
Proof.
  intros Hk. destruct s as [|c s]; cbn [star]; [eauto|].
  destruct (p c); [|eauto]. destruct (star p k s); eauto.
Qed.

Lemma star_complete {R} (p : N -> bool) (k : list N -> option R) m s' res :
  Forall (fun c => p c = true) m -> k s' = Some res ->
  exists res', star p k (m ++ s') = Some res'.
Proof.
  intros Hm Hk. induction Hm as [|c m Hc Hm IH]; [eapply star_found; exact Hk|].
  cbn [app star]. rewrite Hc. destruct IH as [res' ->]. eauto.
Qed.

(** If [r] matches [m] and the continuation accepts what follows, the
    matcher returns a match (the first one in its search order). *)
Lemma run_complete {R} r m caps :
  matches r m caps ->
  forall s' gs (k : list N -> groups -> option R) res,
    k s' (caps ++ gs) = Some res ->
    exists res', run r (m ++ s') gs k = Some res'.
Proof.
  induction 1 as [|c|p c Hp|p m Hm|r1 r2 m1 m2 caps1 caps2 _ IH1 _ IH2|n r m caps _ IH];
    intros s' gs k res Hk; cbn [run app].
  - eauto.
  - rewrite N.eqb_refl. eauto.
  - rewrite Hp. eauto.
  - eapply (star_complete p (fun s'' => k s'' gs)); [exact Hm|exact Hk].
  - rewrite <- app_assoc in *.
    destruct (IH2 s' (caps1 ++ gs) k res Hk) as [res2 H2].
    eapply IH1. exact H2.
  - eapply IH. rewrite take_app_length_diff. exact Hk.
Qed.

Lemma match_at_complete r m caps rest :
  matches r m caps -> exists gs rest', match_at r (m ++ rest) = Some (gs, rest').
Proof.
  intros Hm. unfold match_at.
  destruct (run_complete (Grp 0 r) m ((0%nat, m) :: caps) (matches_Grp _ _ _ _ Hm)
              rest [] (fun s' gs => Some (gs, s')) _ eq_refl) as [[gs rest'] H].
  eauto.
Qed.

(** Building matches of the derived forms. *)
Lemma matches_Lit_intro t : matches (Lit t) t [].
Proof.
  induction t as [|c t IH]; [constructor|].
  apply (matches_Cat (Chr c) (Lit t) [c] t [] []); [constructor|exact IH].
Qed.

Lemma matches_Plus_intro (p : N -> bool) m :
  m <> [] -> Forall (fun c => p c = true) m -> matches (Plus p) m [].
Proof.
  intros Hne Hm. destruct Hm as [|c m Hc Hm]; [contradiction|].
  apply (matches_Cat (Cls p) (Star p) [c] m [] []); constructor; assumption.
Qed.

Lemma matches_Cat_eq r1 r2 m1 m2 m caps1 caps2 caps :
  matches r1 m1 caps1 -> matches r2 m2 caps2 ->
  m = m1 ++ m2 -> caps = caps2 ++ caps1 -> matches (Cat r1 r2) m caps.
Proof. intros H1 H2 -> ->. constructor; assumption. Qed.

End Completeness.

(** * Declarations *)

(** The text of a declaration:
    [uint8_t<ws><name>[]<ws1>=<ws2>{<data>}]. *)
Definition header_text (ws name ws1 ws2 : list N) : list N :=
  text "uint8_t" ++ ws ++ name ++ text "[]" ++ ws1 ++ text "=" ++ ws2 ++ text "{".

Definition declaration (ws name ws1 ws2 data : list N) : list N :=
  header_text ws name ws1 ws2 ++ data ++ text "}".

Definition header_shape (ws name ws1 ws2 : list N) : Prop :=
  ws <> [] /\ Forall (fun c => Re.is_space c = true) ws
  /\ name <> [] /\ Forall (fun c => Re.is_word c = true) name
  /\ Forall (fun c => Re.is_space c = true) ws1
  /\ Forall (fun c => Re.is_space c = true) ws2.

(** [p] fails on the first character of [x], if there is one. *)
Definition stops (p : N -> bool) (x : list N) : Prop :=
  match x with
  | [] => True
  | c :: _ => p c = false
  end.

Section Declarations.
Import Re.

Lemma is_header_text ws name ws1 ws2 :
  header_shape ws name ws1 ws2 -> is_header (header_text ws name ws1 ws2).
Proof.
  intros (H1 & H2 & H3 & H4 & H5 & H6). exists ws, name, ws1, ws2.
  unfold header_text. auto 10.
Qed.

Lemma is_header_inv hdr :
  is_header hdr ->
  exists ws name ws1 ws2, hdr = header_text ws name ws1 ws2 /\ header_shape ws name ws1 ws2.
Proof.
  intros (ws & name & ws1 & ws2 & -> & H). exists ws, name, ws1, ws2.
  split; [reflexivity|exact H].
Qed.

Lemma matches_header ws name ws1 ws2 :
  header_shape ws name ws1 ws2 ->
  matches (cat [ Lit (text "uint8_t"); Plus is_space; Plus is_word;
                 Lit (text "[]"); Star is_space; Lit (text "=");
                 Star is_space; Lit (text "{") ])
    (header_text ws name ws1 ws2) [].
Proof.
  intros (H1 & H2 & H3 & H4 & H5 & H6). unfold header_text. cbn [cat foldr].
  apply (matches_Cat _ _ _ _ [] []); [apply matches_Lit_intro|].
  apply (matches_Cat _ _ _ _ [] []); [apply matches_Plus_intro; assumption|].
  apply (matches_Cat _ _ _ _ [] []); [apply matches_Plus_intro; assumption|].
  apply (matches_Cat _ _ _ _ [] []); [apply matches_Lit_intro|].
  apply (matches_Cat _ _ _ _ [] []); [constructor; assumption|].
  apply (matches_Cat _ _ _ _ [] []); [apply matches_Lit_intro|].
  apply (matches_Cat _ _ _ _ [] []); [constructor; assumption|].
  eapply matches_Cat_eq; [apply matches_Lit_intro|constructor| |reflexivity].
  rewrite app_nil_r. reflexivity.
Qed.

(** The serializer's pattern matches every declaration... *)
Lemma matches_body_pattern hdr b :
  is_header hdr -> is_body b ->
  matches body_pattern (hdr ++ b ++ text "}") [(2%nat, text "}"); (1%nat, hdr)].
Proof.
  intros Hh [Hne Hb]. apply is_header_inv in Hh as (ws & name & ws1 & ws2 & -> & Hs).
  unfold body_pattern. cbn [cat foldr].
  eapply matches_Cat_eq; [ | |reflexivity| ]; [apply matches_Grp, matches_header; exact Hs| | ].
  eapply matches_Cat_eq; [ | |reflexivity| ]; [apply matches_Plus_intro; assumption| | ].
  eapply matches_Cat_eq;
    [apply matches_Grp, matches_Lit_intro|constructor| |].
  all: try reflexivity.
  all: rewrite app_nil_r; reflexivity.
Qed.

(** ... and so does the extractor's. *)
Lemma matches_array_pattern ws name ws1 ws2 data :
  header_shape ws name ws1 ws2 -> is_body data ->
  matches array_pattern (declaration ws name ws1 ws2 data)
    [(2%nat, data); (1%nat, name)].
Proof.
  intros (H1 & H2 & H3 & H4 & H5 & H6) [Hne Hb].
  unfold declaration, header_text, array_pattern. cbn [cat foldr].
  rewrite <- !app_assoc.
  eapply matches_Cat_eq; [ | |reflexivity| ]; [apply matches_Lit_intro| | ].
  eapply matches_Cat_eq; [ | |reflexivity| ]; [apply matches_Plus_intro; assumption| | ].
  eapply matches_Cat_eq; [ | |reflexivity| ]; [apply matches_Grp, matches_Plus_intro; assumption| | ].
  eapply matches_Cat_eq; [ | |reflexivity| ]; [apply matches_Lit_intro| | ].
  eapply matches_Cat_eq; [ | |reflexivity| ]; [constructor; assumption| | ].
  eapply matches_Cat_eq; [ | |reflexivity| ]; [apply matches_Lit_intro| | ].
  eapply matches_Cat_eq; [ | |reflexivity| ]; [constructor; assumption| | ].
  eapply matches_Cat_eq; [ | |reflexivity| ]; [apply matches_Lit_intro| | ].
  eapply matches_Cat_eq; [ | |reflexivity| ]; [apply matches_Grp, matches_Plus_intro; assumption| | ].
  eapply matches_Cat_eq; [apply matches_Lit_intro|constructor| |].
  all: try reflexivity.
  all: rewrite app_nil_r; reflexivity.
Qed.

(** What the extractor's pattern matches is a declaration; group 1 is its
    name and group 2 its data. *)
Lemma match_at_array_pattern s gs rest :
  match_at array_pattern s = Some (gs, rest) ->
  exists ws name ws1 ws2 data,
    s = declaration ws name ws1 ws2 data ++ rest
    /\ header_shape ws name ws1 ws2 /\ is_body data
    /\ group gs 1 = Some name /\ group gs 2 = Some data.
Proof.
  intros H. apply match_at_sound in H as (m & caps & -> & Hm & ->).
  unfold array_pattern in Hm. cbn [cat foldr] in Hm.
  apply matches_Cat_inv in Hm as (t1 & h1 & d1 & d2 & -> & -> & Ht1 & Hh).
  apply matches_Lit in Ht1 as [-> ->].
  apply matches_Cat_inv in Hh as (ws & h2 & d3 & d4 & -> & -> & Hws & Hh).
  apply matches_Plus in Hws as (Hwsne & Hws & ->).
  apply matches_Cat_inv in Hh as (name & h3 & d5 & d6 & -> & -> & Hname & Hh).
  apply matches_Grp_inv in Hname as (d5' & -> & Hname).
  apply matches_Plus in Hname as (Hnamene & Hname & ->).
  apply matches_Cat_inv in Hh as (t2 & h4 & d7 & d8 & -> & -> & Ht2 & Hh).
  apply matches_Lit in Ht2 as [-> ->].
  apply matches_Cat_inv in Hh as (ws1 & h5 & d9 & d10 & -> & -> & Hws1 & Hh).
  apply matches_Star_inv in Hws1 as [Hws1 ->].
  apply matches_Cat_inv in Hh as (t3 & h6 & d11 & d12 & -> & -> & Ht3 & Hh).
  apply matches_Lit in Ht3 as [-> ->].
  apply matches_Cat_inv in Hh as (ws2 & h7 & d13 & d14 & -> & -> & Hws2 & Hh).
  apply matches_Star_inv in Hws2 as [Hws2 ->].
  apply matches_Cat_inv in Hh as (t4 & h8 & d15 & d16 & -> & -> & Ht4 & Hh).
  apply matches_Lit in Ht4 as [-> ->].
  apply matches_Cat_inv in Hh as (data & h9 & d17 & d18 & -> & -> & Hd & Hh).
  apply matches_Grp_inv in Hd as (d17' & -> & Hd).
  apply matches_Plus in Hd as (Hdne & Hd & ->).
  apply matches_Cat_inv in Hh as (t5 & h10 & d19 & d20 & -> & -> & Ht5 & Hh).
  apply matches_Lit in Ht5 as [-> ->].
  apply matches_Eps_inv in Hh as [-> ->].
  exists ws, name, ws1, ws2, data.
  split; [unfold declaration, header_text; rewrite <- !app_assoc, ?app_nil_r; reflexivity|].
  split; [unfold header_shape; auto 10|].
  split; [split; assumption|]. split; reflexivity.
Qed.

(** ** A text is a declaration in one way only *)

Lemma span_unique (p : N -> bool) a : forall a' x x',
  Forall (fun c => p c = true) a -> Forall (fun c => p c = true) a' ->
  stops p x -> stops p x' ->
  a ++ x = a' ++ x' -> a = a' /\ x = x'.
Proof.
  induction a as [|c a IH]; intros a' x x' Ha Ha' Hx Hx' Heq.
  - destruct a' as [|c' a']; [auto|]. cbn in Heq. subst x. cbn in Hx.
    inversion Ha'; subst. congruence.
  - destruct a' as [|c' a'].
    + cbn in Heq. subst x'. cbn in Hx'. inversion Ha; subst. congruence.
    + injection Heq as <- Heq. inversion Ha; inversion Ha'; subst.
      destruct (IH a' x x') as [-> ->]; auto.
Qed.

Lemma is_word_small c : is_word c = true -> (c <= 122)%N.
Proof.
  unfold is_word, is_digit.
  rewrite !orb_true_iff, !andb_true_iff, !N.leb_le, N.eqb_eq. lia.
Qed.

Lemma forallb_below (f : N -> bool) n c :
  forallb f (map N.of_nat (seq 0 n)) = true -> (c < N.of_nat n)%N -> f c = true.
Proof.
  intros H Hc. rewrite forallb_forall in H. apply H.
  apply in_map_iff. exists (N.to_nat c). split; [lia|]. apply in_seq. lia.
Qed.

Lemma is_word_not_space c : is_word c = true -> is_space c = false.
Proof.
  intros Hw. pose proof (is_word_small c Hw) as Hc.
  assert (H : negb (is_word c && is_space c) = true).
  { apply (forallb_below (fun c => negb (is_word c && is_space c)) 123);
      [vm_compute; reflexivity|lia]. }
  rewrite Hw in H. cbn in H. apply negb_true_iff in H. exact H.
Qed.

Lemma stops_word_space name x :
  name <> [] -> Forall (fun c => is_word c = true) name -> stops is_space (name ++ x).
Proof.
  intros Hne Hn. destruct Hn as [|c name Hc Hn]; [contradiction|].
  cbn. apply is_word_not_space. exact Hc.
Qed.

Lemma header_unique ws name ws1 ws2 x ws' name' ws1' ws2' x' :
  header_shape ws name ws1 ws2 -> header_shape ws' name' ws1' ws2' ->
  header_text ws name ws1 ws2 ++ x = header_text ws' name' ws1' ws2' ++ x' ->
  ws = ws' /\ name = name' /\ ws1 = ws1' /\ ws2 = ws2' /\ x = x'.
Proof.
  intros (H1 & H2 & H3 & H4 & H5 & H6) (H1' & H2' & H3' & H4' & H5' & H6').
  unfold header_text. rewrite <- !app_assoc. intros Heq.
  apply app_inv_head in Heq.
  apply (span_unique is_space) in Heq as [<- Heq];
    [|assumption|assumption|apply stops_word_space; assumption..].
  apply (span_unique is_word) in Heq as [<- Heq];
    [|assumption|assumption|reflexivity|reflexivity].
  apply app_inv_head in Heq.
  apply (span_unique is_space) in Heq as [<- Heq];
    [|assumption|assumption|reflexivity|reflexivity].
  apply app_inv_head in Heq.
  apply (span_unique is_space) in Heq as [<- Heq];
    [|assumption|assumption|reflexivity|reflexivity].
  apply app_inv_head in Heq. auto.
Qed.

Lemma decl_unique hdr b r hdr' b' r' :
  is_header hdr -> is_body b -> is_header hdr' -> is_body b' ->
  hdr ++ b ++ text "}" ++ r = hdr' ++ b' ++ text "}" ++ r' ->
  hdr = hdr' /\ b = b' /\ r = r'.
Proof.
  intros Hh [_ Hb] Hh' [_ Hb'] Heq.
  apply is_header_inv in Hh as (ws & name & ws1 & ws2 & -> & Hs).
  apply is_header_inv in Hh' as (ws' & name' & ws1' & ws2' & -> & Hs').
  apply (header_unique _ _ _ _ _ _ _ _ _ _ Hs Hs') in Heq as (<- & <- & <- & <- & Heq).
  split; [reflexivity|].
  apply (span_unique not_rbrace) in Heq as [<- Heq];
    [|assumption|assumption|reflexivity|reflexivity].
  apply app_inv_head in Heq. auto.
Qed.

(** The serializer's pattern, at a declaration, matches that declaration. *)
Lemma match_at_declaration hdr b rest :
  is_header hdr -> is_body b ->
  exists gs,
    match_at body_pattern (hdr ++ b ++ text "}" ++ rest) = Some (gs, rest)
    /\ group gs 1 = Some hdr /\ group gs 2 = Some (text "}").
Proof.
  intros Hh Hb.
  destruct (match_at_complete body_pattern _ _ rest (matches_body_pattern hdr b Hh Hb))
    as (gs & rest' & Hm).
  rewrite <- !app_assoc in Hm.
  destruct (match_at_body_pattern _ _ _ Hm) as (hdr' & b' & Heq & Hh' & Hb' & Hg1 & Hg2).
  apply decl_unique in Heq as (<- & <- & <-); try assumption.
  exists gs. auto.
Qed.

End Declarations.

(** * The extractor *)

(** A declaration starts at the beginning of [s]. *)
Definition declared_at (s : list N) : Prop :=
  exists ws name ws1 ws2 data rest,
    s = declaration ws name ws1 ws2 data ++ rest
    /\ header_shape ws name ws1 ws2 /\ is_body data.

(** [0x] and two hexadecimal digits. *)
Definition hex_literal (t : list N) : Prop :=
  exists h1 h2, t = [48%N; 120%N; h1; h2] /\ Re.is_hex h1 = true /\ Re.is_hex h2 = true.

Section ExtractorSpec.
Import Re.

Lemma declared_at_header s :
  declared_at s <-> exists hdr b rest, s = hdr ++ b ++ text "}" ++ rest /\ is_header hdr /\ is_body b.
Proof.
  split.
  - intros (ws & name & ws1 & ws2 & data & rest & -> & Hs & Hb).
    exists (header_text ws name ws1 ws2), data, rest.
    split; [unfold declaration; rewrite <- !app_assoc; reflexivity|].
    split; [apply is_header_text; exact Hs|exact Hb].
  - intros (hdr & b & rest & -> & Hh & Hb).
    apply is_header_inv in Hh as (ws & name & ws1 & ws2 & -> & Hs).
    exists ws, name, ws1, ws2, b, rest.
    split; [unfold declaration; rewrite <- !app_assoc; reflexivity|auto].
Qed.

Lemma match_at_array_pattern_None s :
  match_at array_pattern s = None <-> ~ declared_at s.
Proof.
  split.
  - intros Hn (ws & name & ws1 & ws2 & data & rest & -> & Hs & Hb).
    destruct (match_at_complete array_pattern _ _ rest
                (matches_array_pattern ws name ws1 ws2 data Hs Hb)) as (gs & rest' & H).
    congruence.
  - intros Hn. destruct (match_at array_pattern s) as [[gs rest]|] eqn:Hm; [|reflexivity].
    exfalso. apply Hn.
    apply match_at_array_pattern in Hm as (ws & name & ws1 & ws2 & data & -> & Hs & Hb & _).
    exists ws, name, ws1, ws2, data, rest. auto.
Qed.

Lemma match_at_body_pattern_None s :
  match_at body_pattern s = None <-> ~ declared_at s.
Proof.
  rewrite declared_at_header. split.
  - intros Hn (hdr & b & rest & -> & Hh & Hb).
    destruct (match_at_declaration hdr b rest Hh Hb) as (gs & H & _). congruence.
  - intros Hn. destruct (match_at body_pattern s) as [[gs rest]|] eqn:Hm; [|reflexivity].
    exfalso. apply Hn.
    apply match_at_body_pattern in Hm as (hdr & b & -> & Hh & Hb & _).
    exists hdr, b, rest. auto.
Qed.

(** ** The literals *)

Lemma scan_literals_bounded n : forall s,
  (length s <= n)%nat -> Forall hex_literal (scan s).
Proof.
  induction n as [|n IH]; intros s Hlen.
  - destruct s; [constructor|cbn in Hlen; lia].
  - destruct s as [|c s]; [constructor|]. cbn [scan].
    assert (Hs : Forall hex_literal (scan s)) by (apply IH; cbn in Hlen; lia).
    destruct s as [|x [|h1 [|h2 rest]]]; try exact Hs.
    destruct (((48 =? c) && (120 =? x))%N && is_hex h1 && is_hex h2) eqn:Hc; [|exact Hs].
    apply andb_true_iff in Hc as [Hc H2]. apply andb_true_iff in Hc as [Hc H1].
    apply andb_true_iff in Hc as [Hc0 Hx].
    apply N.eqb_eq in Hc0, Hx. subst c x.
    constructor; [exists h1, h2; auto|]. apply IH. cbn in Hlen |- *. lia.
Qed.

Lemma scan_literals s : Forall hex_literal (scan s).
Proof. apply (scan_literals_bounded (length s)). lia. Qed.

Lemma hex_value_digit c :
  is_hex c = true -> exists v, hex_value c = Some v /\ 0 <= v < 16.
Proof.
  unfold is_hex, hex_value, is_digit. intros H.
  destruct ((48 <=? c) && (c <=? 57))%N eqn:Hd.
  - apply andb_true_iff in Hd as [H1 H2]. apply N.leb_le in H1, H2.
    eexists. split; [reflexivity|lia].
  - cbn [orb] in H. destruct ((97 <=? c) && (c <=? 102))%N eqn:Hl.
    + apply andb_true_iff in Hl as [H1 H2]. apply N.leb_le in H1, H2.
      eexists. split; [reflexivity|lia].
    + cbn [orb] in H. rewrite H.
      apply andb_true_iff in H as [H1 H2]. apply N.leb_le in H1, H2.
      eexists. split; [reflexivity|lia].
Qed.

Lemma int_base16_literal t :
  hex_literal t -> exists v, int_base16 t = Ok v /\ is_byte v = true.
Proof.
  intros (h1 & h2 & -> & H1 & H2).
  destruct (hex_value_digit h1 H1) as (v1 & E1 & B1).
  destruct (hex_value_digit h2 H2) as (v2 & E2 & B2).
  exists (v1 * 16 + v2). split.
  - unfold int_base16. cbn [N.eqb Pos.eqb orb foldl res_bind].
    rewrite E1. cbn [res_bind]. rewrite E2. reflexivity.
  - unfold is_byte. apply andb_true_iff. split; [apply Z.leb_le|apply Z.leb_le]; lia.
Qed.

Lemma map_res_literals ts :
  Forall hex_literal ts ->
  exists values,
    map_res int_base16 ts = Ok values /\ forallb is_byte values = true
    /\ length values = length ts.
Proof.
  induction 1 as [|t ts Ht _ (values & IH & Hb & Hl)]; [exists []; auto|].
  destruct (int_base16_literal t Ht) as (v & Hv & Hvb).
  exists (v :: values). cbn [map_res]. rewrite Hv. cbn [res_bind]. rewrite IH.
  cbn [res_bind forallb length]. rewrite Hvb, Hb, Hl. auto.
Qed.

(** ** What [parse_c_file] returns *)

Lemma parse_c_file_search content :
  match search array_pattern content with
  | Some (pre, gs, rest) =>
      exists values,
        parse_c_file content = Ok (values, content, default [] (group gs 1))
        /\ map_res int_base16 (findall hex_pattern (default [] (group gs 2))) = Ok values
        /\ forallb is_byte values = true
  | None => parse_c_file content = Raise (ValueError NoArrayDefinition)
  end.
Proof.
  unfold parse_c_file.
  destruct (search array_pattern content) as [[[pre gs] rest]|]; [|reflexivity].
  destruct (map_res_literals (findall hex_pattern (default [] (group gs 2))))
    as (values & Hv & Hb & _).
  { rewrite findall_hex_pattern. apply scan_literals. }
  exists values. rewrite Hv. auto.
Qed.

(** The extractor returns the text as it is, the name of the leftmost
    declaration and the values of the two-digit hex literals of its data,
    in order. *)
Lemma parse_c_file_leftmost content values text' name :
  parse_c_file content = Ok (values, text', name) ->
  text' = content
  /\ exists pre ws ws1 ws2 data rest,
       content = pre ++ declaration ws name ws1 ws2 data ++ rest
       /\ header_shape ws name ws1 ws2 /\ is_body data
       /\ (forall p1 p2, pre = p1 ++ p2 -> p2 <> [] ->
             ~ declared_at (p2 ++ declaration ws name ws1 ws2 data ++ rest))
       /\ map_res int_base16 (findall hex_pattern data) = Ok values.
Proof.
  intros Hp. pose proof (parse_c_file_search content) as Hs.
  destruct (search array_pattern content) as [[[pre gs] rest]|] eqn:Hsearch;
    [|congruence].
  destruct Hs as (values' & Hp' & Hv & _). rewrite Hp in Hp'.
  injection Hp' as -> -> ->. split; [reflexivity|].
  apply search_Some in Hsearch as (m & -> & Hm & Hfirst).
  apply match_at_array_pattern in Hm
    as (ws & name & ws1 & ws2 & data & -> & Hshape & Hb & Hg1 & Hg2).
  rewrite Hg1, Hg2 in *. cbn [default] in *.
  exists pre, ws, ws1, ws2, data, rest.
  split; [reflexivity|]. split; [exact Hshape|]. split; [exact Hb|].
  split; [|exact Hv].
  intros p1 p2 Hpre Hne. apply match_at_array_pattern_None.
  apply (Hfirst p1 p2 Hpre Hne).
Qed.

(** The extractor fails exactly on the texts in which no declaration
    starts anywhere. *)
Lemma parse_c_file_missing content :
  parse_c_file content = Raise (ValueError NoArrayDefinition)
  <-> forall s1 s2, content = s1 ++ s2 -> ~ declared_at s2.
Proof.
  pose proof (parse_c_file_search content) as Hs. split.
  - intros Hp s1 s2 Hc. apply match_at_array_pattern_None.
    destruct (search array_pattern content) as [[[pre gs] rest]|] eqn:Hsearch.
    + destruct Hs as (values & Hp' & _). congruence.
    + apply (search_None _ _ Hsearch s1 s2 Hc).
  - intros Hno.
    destruct (search array_pattern content) as [[[pre gs] rest]|] eqn:Hsearch;
      [|exact Hs].
    exfalso. apply search_Some in Hsearch as (m & -> & Hm & _).
    pose proof (Hno pre m eq_refl) as Hn.
    apply match_at_array_pattern_None in Hn. congruence.
Qed.

End ExtractorSpec.

(** * The characters of the array text *)

(** Lowercase hexadecimal digits, [x], comma, space, newline and the minus
    sign of a negative value. *)
Definition array_char (c : N) : bool :=
  ((c =? 10) || (c =? 32) || (c =? 44) || (c =? 45) || (c =? 120)
   || Re.is_digit c || (97 <=? c) && (c <=? 102))%N.

Definition array_text (t : list N) : Prop := Forall (fun c => array_char c = true) t.

Section ArrayText.
Import Re.

Lemma array_text_app a b : array_text a -> array_text b -> array_text (a ++ b).
Proof. apply Forall_app_2. Qed.

Lemma array_text_join sep parts :
  array_text sep -> Forall array_text parts -> array_text (join sep parts).
Proof.
  intros Hsep Hparts. induction Hparts as [|p parts Hp Hparts IH]; [constructor|].
  cbn [join]. destruct parts as [|q parts]; [exact Hp|].
  apply array_text_app; [exact Hp|]. apply array_text_app; [exact Hsep|exact IH].
Qed.

Lemma array_text_check (t : list N) : forallb array_char t = true -> array_text t.
Proof.
  induction t as [|c t IH]; cbn [forallb]; intros H; [constructor|].
  apply andb_true_iff in H as [Hc H]. constructor; [exact Hc|apply IH; exact H].
Qed.

Lemma hex_digit_array_char n : array_char (hex_digit (n mod 16)) = true.
Proof.
  pose proof (Z.mod_pos_bound n 16 ltac:(lia)) as Hn.
  apply (forallb_elem_of (fun d => array_char (hex_digit d)) (seqZ 0 16));
    [vm_compute; reflexivity|apply elem_of_seqZ; lia].
Qed.

Lemma hex_digits_array_text fuel : forall n acc,
  array_text acc -> array_text (hex_digits fuel n acc).
Proof.
  induction fuel as [|fuel IH]; intros n acc Hacc; cbn [hex_digits].
  - constructor; [apply hex_digit_array_char|exact Hacc].
  - destruct (n / 16 =? 0).
    + constructor; [apply hex_digit_array_char|exact Hacc].
    + apply IH. constructor; [apply hex_digit_array_char|exact Hacc].
Qed.

Lemma format_02x_array_text b : array_text (format_02x b).
Proof.
  unfold format_02x.
  pose proof (hex_digits_array_text (Z.to_nat (Z.log2 (Z.abs b))) (Z.abs b) []
                ltac:(constructor)) as H.
  destruct (b <? 0); [constructor; [reflexivity|exact H]|].
  destruct (_ <? 2)%nat; [constructor; [reflexivity|exact H]|exact H].
Qed.

Lemma format_pixel_array_text b g r a : array_text (format_pixel b g r a).
Proof.
  unfold format_pixel.
  repeat (apply array_text_app;
          [first [apply format_02x_array_text | apply array_text_check; reflexivity]|]).
  apply format_02x_array_text.
Qed.

Lemma format_line_array_text lp : Forall array_text lp -> array_text (format_line lp).
Proof.
  intros H. unfold format_line.
  apply array_text_app; [apply array_text_check; reflexivity|].
  apply array_text_app; [|apply array_text_check; reflexivity].
  apply array_text_join; [apply array_text_check; reflexivity|exact H].
Qed.

Lemma format_step_array_text pixels width lines lp i lines' lp' :
  Forall array_text lines -> Forall array_text lp ->
  format_step pixels width (lines, lp) i = Ok (lines', lp') ->
  Forall array_text lines' /\ Forall array_text lp'.
Proof.
  intros Hl Hp. unfold format_step.
  destruct (if 0 <? i then if width =? 0 then Raise ZeroDivisionError
                           else Ok ((i / 4) mod width =? 0) else Ok false)
    as [new_line|e]; [|discriminate].
  cbn [res_bind].
  assert (Hst : Forall array_text (fst (if new_line then (lines ++ [format_line lp], [])
                                        else (lines, lp)))
              /\ Forall array_text (snd (if new_line then (lines ++ [format_line lp], [])
                                         else (lines, lp)))).
  { destruct new_line; cbn [fst snd]; [|auto].
    split; [|constructor]. apply Forall_app_2; [exact Hl|].
    constructor; [apply format_line_array_text; exact Hp|constructor]. }
  destruct (if new_line then _ else _) as [l1 p1]. cbn [fst snd] in Hst.
  destruct Hst as [Hl1 Hp1].
  destruct (slice pixels i (i + 4)) as [|b [|g [|r [|a [|? ?]]]]]; try discriminate.
  intros [= <- <-]. split; [exact Hl1|].
  apply Forall_app_2; [exact Hp1|].
  constructor; [apply format_pixel_array_text|constructor].
Qed.

Lemma format_loop_array_text pixels width indices : forall lines lp lines' lp',
  Forall array_text lines -> Forall array_text lp ->
  format_loop pixels width indices (lines, lp) = Ok (lines', lp') ->
  Forall array_text lines' /\ Forall array_text lp'.
Proof.
  induction indices as [|i indices IH]; intros lines lp lines' lp' Hl Hp; cbn [format_loop].
  - intros [= <- <-]. auto.
  - destruct (format_step pixels width (lines, lp) i) as [[l1 p1]|e] eqn:Hs; [|discriminate].
    cbn [res_bind]. apply format_step_array_text in Hs as [Hl1 Hp1]; [|assumption..].
    apply IH; assumption.
Qed.

Lemma array_content_array_text pixels width t :
  array_content pixels width = Ok t -> array_text t.
Proof.
  unfold array_content.
  destruct (format_loop _ _ _ _) as [[lines lp]|e] eqn:Hloop; [|discriminate].
  cbn [res_bind]. intros [= <-].
  apply format_loop_array_text in Hloop as [Hl Hp]; [|constructor..].
  apply array_text_join; [apply array_text_check; reflexivity|].
  destruct lp as [|p lp]; [exact Hl|].
  apply Forall_app_2; [exact Hl|].
  constructor; [apply format_line_array_text; exact Hp|constructor].
Qed.

Lemma array_char_small c : array_char c = true -> (c <= 120)%N.
Proof.
  unfold array_char, is_digit.
  rewrite !orb_true_iff, !andb_true_iff, !N.leb_le, !N.eqb_eq. lia.
Qed.

Lemma array_char_not_rbrace c : array_char c = true -> not_rbrace c = true.
Proof.
  intros H. apply array_char_small in H. unfold not_rbrace.
  apply negb_true_iff, N.eqb_neq. lia.
Qed.

(** The body the serializer writes between the braces is a body. *)
Lemma is_body_new_body pixels width t :
  array_content pixels width = Ok t -> is_body (newline ++ t ++ newline).
Proof.
  intros Ht. split; [discriminate|].
  apply array_content_array_text in Ht.
  apply Forall_app_2; [repeat constructor|].
  apply Forall_app_2; [|repeat constructor].
  eapply Forall_impl; [exact Ht|]. apply array_char_not_rbrace.
Qed.

End ArrayText.

(** * Serializing twice *)

Section Idempotence.
Import Re.

Lemma search_leftmost r pre : forall m gs rest,
  (forall p1 p2, pre = p1 ++ p2 -> p2 <> [] -> match_at r (p2 ++ m) = None) ->
  match_at r m = Some (gs, rest) ->
  search r (pre ++ m) = Some (pre, gs, rest).
Proof.
  induction pre as [|c pre IH]; intros m gs rest Hfirst Hm.
  - cbn [app]. destruct m; cbn [search]; rewrite Hm; reflexivity.
  - pose proof (Hfirst [] (c :: pre) eq_refl ltac:(discriminate)) as H0.
    cbn [app search] in *. rewrite H0.
    rewrite (IH m gs rest); [reflexivity| |exact Hm].
    intros p1 p2 Hp Hne. apply (Hfirst (c :: p1) p2); [rewrite Hp; reflexivity|exact Hne].
Qed.

Lemma search_nothing r s :
  (forall s1 s2, s = s1 ++ s2 -> match_at r s2 = None) -> search r s = None.
Proof.
  induction s as [|c s IH]; intros H; cbn [search].
  - rewrite (H [] [] eq_refl). reflexivity.
  - rewrite (H [] (c :: s) eq_refl). rewrite IH; [reflexivity|].
    intros s1 s2 Hs. apply (H (c :: s1) s2). rewrite Hs. reflexivity.
Qed.

Lemma length_splice_cons f d ds rest :
  is_header (header d) ->
  (length (splice f ds rest) < length (splice f (d :: ds) rest))%nat.
Proof.
  intros Hh. rewrite splice_cons, !length_app.
  pose proof (is_header_length _ Hh). lia.
Qed.

(** A text cut into its declarations is matched declaration by
    declaration. *)
Lemma finditer_declarations ds : forall fuel rest,
  (length (splice (fun b => b) ds rest) < fuel)%nat ->
  Forall is_decl ds -> leftmost ds rest ->
  exists ms,
    finditer fuel body_pattern (splice (fun b => b) ds rest) = (ms, rest)
    /\ Forall2 (fun m d =>
                  fst m = gap d /\ group (snd m) 1 = Some (header d)
                  /\ group (snd m) 2 = Some (text "}")) ms ds.
Proof.
  induction ds as [|d ds IH]; intros fuel rest Hlen Hds Hleft.
  - destruct fuel as [|fuel]; [lia|]. cbn [finditer].
    unfold splice. cbn [map concat app].
    rewrite (search_nothing _ _ Hleft). exists []. split; [reflexivity|constructor].
  - destruct fuel as [|fuel]; [lia|]. cbn [finditer].
    inversion Hds as [|? ? [Hh Hb] Hds']; subst. destruct Hleft as [Hfirst Hleft].
    rewrite splice_cons.
    destruct (match_at_declaration (header d) (body d) (splice (fun b => b) ds rest) Hh Hb)
      as (gs & Hm & Hg1 & Hg2).
    rewrite (search_leftmost _ _ _ _ _ Hfirst Hm).
    destruct (IH fuel rest) as (ms & Hf & Hms); [|exact Hds'|exact Hleft|].
    { pose proof (length_splice_cons (fun b => b) d ds rest Hh). lia. }
    rewrite Hf. exists ((gap d, gs) :: ms). split; [reflexivity|].
    constructor; [cbn [fst snd]; auto|exact Hms].
Qed.

Lemma sub_declarations b ds rest :
  plain b -> Forall is_decl ds -> leftmost ds rest ->
  sub body_pattern (template b) (splice (fun b => b) ds rest)
  = Ok (splice (fun _ => newline ++ b ++ newline) ds rest).
Proof.
  intros Hb Hds Hleft. unfold sub. rewrite parse_template_template by exact Hb.
  cbn [res_bind].
  destruct (finditer_declarations ds (S (length (splice (fun b => b) ds rest))) rest
              ltac:(lia) Hds Hleft) as (ms & -> & Hms).
  f_equal. unfold splice. f_equal. f_equal.
  induction Hms as [|m d ms ds' (Hg & H1 & H2) Hms IH]; [reflexivity|].
  cbn [map]. inversion Hds; subst. destruct Hleft as [_ Hleft].
  rewrite IH by assumption. f_equal.
  rewrite (expand_template _ _ _ _ H1 H2), Hg.
  rewrite <- !app_assoc. reflexivity.
Qed.

(** ** Changing a body does not move the declarations *)

Lemma span_split (p : N -> bool) k :
  exists k1 k2, k = k1 ++ k2 /\ Forall (fun c => p c = true) k1 /\ stops p k2.
Proof.
  induction k as [|c k (k1 & k2 & -> & H1 & H2)].
  - exists [], []. split; [reflexivity|]. split; constructor.
  - destruct (p c) eqn:Hc.
    + exists (c :: k1), k2. split; [reflexivity|]. split; [constructor; assumption|exact H2].
    + exists [], (c :: k1 ++ k2). split; [reflexivity|]. split; [constructor|exact Hc].
Qed.

Lemma header_text_snoc ws name ws1 ws2 :
  header_text ws name ws1 ws2
  = (text "uint8_t" ++ ws ++ name ++ text "[]" ++ ws1 ++ text "=" ++ ws2) ++ [123%N].
Proof. unfold header_text. rewrite <- !app_assoc. reflexivity. Qed.

Lemma space_not_lbrace c : is_space c = true -> c <> 123%N.
Proof. intros H ->. discriminate. Qed.

Lemma word_not_lbrace c : is_word c = true -> c <> 123%N.
Proof. intros H ->. discriminate. Qed.

(** The opening brace is the only one of a header. *)
Lemma is_header_brace hdr :
  is_header hdr -> exists h0, hdr = h0 ++ [123%N] /\ Forall (fun c => c <> 123%N) h0.
Proof.
  intros Hh. apply is_header_inv in Hh as (ws & name & ws1 & ws2 & -> & Hs).
  destruct Hs as (H1 & H2 & H3 & H4 & H5 & H6).
  eexists. split; [apply header_text_snoc|].
  repeat apply Forall_app_2;
    try (eapply Forall_impl; [eassumption|first [apply space_not_lbrace|apply word_not_lbrace]]);
    repeat (constructor; [discriminate|]); constructor.
Qed.

Lemma snoc_inv (a b : list N) x y : a ++ [x] = b ++ [y] -> a = b /\ x = y.
Proof. intros H. apply app_inj_tail in H. exact H. Qed.

(** If a declaration starts at [p2] when the body of the declaration
    after it is [b'], one starts there whatever that body is. *)
Lemma declared_at_body p2 hdr b b' R R' :
  is_header hdr -> is_body b ->
  declared_at (p2 ++ hdr ++ b' ++ text "}" ++ R') ->
  declared_at (p2 ++ hdr ++ b ++ text "}" ++ R).
Proof.
  intros Hh [Hbne Hb] Hd. apply declared_at_header in Hd
    as (hdr1 & b1 & R1 & Heq & Hh1 & [Hb1ne Hb1]).
  apply declared_at_header.
  assert (Hcase : exists k, p2 ++ hdr = hdr1 ++ k
                            /\ b1 ++ text "}" ++ R1 = k ++ b' ++ text "}" ++ R').
  { rewrite app_assoc in Heq. apply app_eq_inv in Heq as [(k & Hk1 & Hk2)|(k & Hk1 & Hk2)].
    - exists k. auto.
    - (* the header found cannot go beyond [hdr] *)
      destruct k as [|c k] using rev_ind.
      + exists []. rewrite app_nil_r in *. cbn [app] in *. auto.
      + clear IHk. exfalso.
        destruct (is_header_brace _ Hh) as (g0 & -> & _).
        destruct (is_header_brace _ Hh1) as (h0 & -> & Hh0).
        rewrite !app_assoc in Hk1. apply snoc_inv in Hk1 as [Hk1 _].
        rewrite Hk1 in Hh0. rewrite <- !app_assoc in Hh0.
        apply Forall_app in Hh0 as [_ Hh0]. apply Forall_app in Hh0 as [_ Hh0].
        apply Forall_app in Hh0 as [Hh0 _]. inversion Hh0; subst. congruence. }
  destruct Hcase as (k & HA & Hrest).
  destruct (span_split not_rbrace k) as (k1 & k2 & -> & Hk1 & Hk2).
  destruct k2 as [|c k2].
  - (* no closing brace before the body: the body found goes on into [b] *)
    rewrite app_nil_r in *.
    exists hdr1, (k1 ++ b), R. split.
    + rewrite app_assoc, HA, <- !app_assoc. reflexivity.
    + split; [exact Hh1|]. split; [destruct k1; [exact Hbne|discriminate]|].
      apply Forall_app_2; assumption.
  - (* the body found ends at a closing brace before [hdr] ends *)
    cbn [stops] in Hk2. unfold not_rbrace in Hk2.
    apply negb_false_iff, N.eqb_eq in Hk2. subst c.
    rewrite <- !app_assoc in Hrest.
    apply (span_unique not_rbrace) in Hrest as [-> _];
      [|assumption|assumption|reflexivity|reflexivity].
    exists hdr1, k1, (k2 ++ b ++ text "}" ++ R). split.
    + rewrite app_assoc, HA, <- !app_assoc. reflexivity.
    + split; [exact Hh1|]. split; assumption.
Qed.

Definition with_body (b : list N) (d : decl) : decl := Decl (gap d) (header d) b.

Lemma splice_with_body b ds rest :
  splice (fun b => b) (map (with_body b) ds) rest = splice (fun _ => b) ds rest.
Proof.
  unfold splice. f_equal. f_equal. rewrite map_map. reflexivity.
Qed.

Lemma leftmost_with_body b ds rest :
  is_body b -> Forall is_decl ds -> leftmost ds rest ->
  Forall is_decl (map (with_body b) ds) /\ leftmost (map (with_body b) ds) rest.
Proof.
  intros Hb Hds. induction Hds as [|d ds [Hh Hd] Hds IH]; intros Hleft.
  - split; [constructor|exact Hleft].
  - destruct Hleft as [Hfirst Hleft]. destruct (IH Hleft) as [IH1 IH2].
    split; [constructor; [split; assumption|exact IH1]|].
    split; [|exact IH2].
    intros p1 p2 Hp Hne. cbn [with_body gap header body] in *.
    apply match_at_body_pattern_None. intros Hdecl.
    specialize (Hfirst p1 p2 Hp Hne). apply match_at_body_pattern_None in Hfirst.
    apply Hfirst. eapply declared_at_body; [exact Hh|exact Hd|exact Hdecl].
Qed.

(** What [format_output] returns, with the declarations of its result. *)
Lemma format_output_declarations pixels content width out :
  format_output pixels content width = Ok out ->
  exists t ds rest,
    array_content pixels width = Ok t
    /\ content = splice (fun b => b) ds rest
    /\ Forall is_decl ds /\ leftmost ds rest
    /\ out = splice (fun b => b) (map (with_body (newline ++ t ++ newline)) ds) rest
    /\ Forall is_decl (map (with_body (newline ++ t ++ newline)) ds)
    /\ leftmost (map (with_body (newline ++ t ++ newline)) ds) rest.
Proof.
  unfold format_output.
  destruct (array_content pixels width) as [t|e] eqn:Ht; [|discriminate].
  cbn [res_bind]. intros Hsub.
  destruct (sub_body_pattern t content (array_content_plain _ _ _ Ht))
    as (ds & rest & Hc & Hds & Hleft & Hsub').
  rewrite Hsub in Hsub'. injection Hsub' as ->.
  destruct (leftmost_with_body _ ds rest (is_body_new_body _ _ _ Ht) Hds Hleft) as [H1 H2].
  exists t, ds, rest. rewrite splice_with_body. auto 10.
Qed.

(** A text without a declaration comes back unchanged. *)
Lemma format_output_unchanged pixels content width t :
  array_content pixels width = Ok t ->
  (forall s1 s2, content = s1 ++ s2 -> ~ declared_at s2) ->
  format_output pixels content width = Ok content.
Proof.
  intros Ht Hno. unfold format_output. rewrite Ht. cbn [res_bind].
  pose proof (sub_declarations t [] content (array_content_plain _ _ _ Ht)
                ltac:(constructor)) as H.
  unfold splice in H. cbn [map concat app] in H. apply H.
  cbn [leftmost]. intros s1 s2 Hs. apply match_at_body_pattern_None. eauto.
Qed.

End Idempotence.

(** * Reading back what was written *)

Section FileRoundTrip.
Import Re.

Lemma declaration_unique ws name ws1 ws2 data rest ws' name' ws1' ws2' data' rest' :
  header_shape ws name ws1 ws2 -> is_body data ->
  header_shape ws' name' ws1' ws2' -> is_body data' ->
  declaration ws name ws1 ws2 data ++ rest
  = declaration ws' name' ws1' ws2' data' ++ rest' ->
  ws = ws' /\ name = name' /\ ws1 = ws1' /\ ws2 = ws2' /\ data = data' /\ rest = rest'.
Proof.
  intros Hs [_ Hd] Hs' [_ Hd'] Heq. unfold declaration in Heq.
  rewrite <- !app_assoc in Heq.
  apply (header_unique _ _ _ _ _ _ _ _ _ _ Hs Hs') in Heq as (<- & <- & <- & <- & Heq).
  apply (span_unique not_rbrace) in Heq as [<- Heq];
    [|assumption|assumption|reflexivity|reflexivity].
  apply app_inv_head in Heq. auto 10.
Qed.

(** The extractor's pattern, at a declaration, matches that declaration. *)
Lemma match_at_array_declaration ws name ws1 ws2 data rest :
  header_shape ws name ws1 ws2 -> is_body data ->
  exists gs,
    match_at array_pattern (declaration ws name ws1 ws2 data ++ rest) = Some (gs, rest)
    /\ group gs 1 = Some name /\ group gs 2 = Some data.
Proof.
  intros Hs Hd.
  destruct (match_at_complete array_pattern _ _ rest
              (matches_array_pattern ws name ws1 ws2 data Hs Hd)) as (gs & rest' & Hm).
  destruct (match_at_array_pattern _ _ _ Hm)
    as (ws' & name' & ws1' & ws2' & data' & Heq & Hs' & Hd' & Hg1 & Hg2).
  apply declaration_unique in Heq as (<- & <- & <- & <- & <- & <-); try assumption.
  exists gs. auto.
Qed.

(** The leftmost declaration of a text is at one place only. *)
Lemma leftmost_unique pre : forall m pre' m',
  pre ++ m = pre' ++ m' ->
  declared_at m -> declared_at m' ->
  (forall p1 p2, pre = p1 ++ p2 -> p2 <> [] -> ~ declared_at (p2 ++ m)) ->
  (forall p1 p2, pre' = p1 ++ p2 -> p2 <> [] -> ~ declared_at (p2 ++ m')) ->
  pre = pre' /\ m = m'.
Proof.
  intros m pre' m' Heq Hm Hm' Hfirst Hfirst'.
  apply app_eq_inv in Heq as [(k & Hk1 & Hk2)|(k & Hk1 & Hk2)].
  - destruct k as [|c k].
    + rewrite app_nil_r in Hk1. cbn in Hk2. auto.
    + exfalso. subst m'. apply (Hfirst pre' (c :: k)); [exact Hk1|discriminate|].
      exact Hm'.
  - destruct k as [|c k].
    + rewrite app_nil_r in Hk1. cbn in Hk2. auto.
    + exfalso. subst m. apply (Hfirst' pre (c :: k)); [exact Hk1|discriminate|].
      exact Hm.
Qed.

Lemma findall_new_body pixels width t :
  forallb is_byte pixels = true ->
  array_content pixels width = Ok t ->
  map_res int_base16 (findall hex_pattern (newline ++ t ++ newline)) = Ok pixels.
Proof.
  intros Hbytes Ht. rewrite findall_hex_pattern.
  assert (Hr : renders (newline ++ t ++ newline) (map token pixels)).
  { apply renders_app_l; [apply renders_text; reflexivity|].
    apply renders_app_r; [|apply renders_text; reflexivity].
    apply (array_content_renders pixels width Hbytes t Ht). }
  rewrite (renders_scan _ _ Hr). apply map_res_tokens. exact Hbytes.
Qed.

(** After the serializer has written byte values into a text that has a
    declaration, the extractor reads these values back, under the same
    name. *)
Lemma parse_format_read_back pixels content width out values0 text0 name :
  forallb is_byte pixels = true ->
  parse_c_file content = Ok (values0, text0, name) ->
  format_output pixels content width = Ok out ->
  parse_c_file out = Ok (pixels, out, name).
Proof.
  intros Hbytes Hparse Hout.
  apply parse_c_file_leftmost in Hparse
    as (_ & pre & ws & ws1 & ws2 & data & rest0 & Hc & Hs & Hd & Hfirst & _).
  destruct (format_output_declarations _ _ _ _ Hout)
    as (t & ds & rest & Ht & Hc' & Hds & Hleft & -> & Hds' & Hleft').
  destruct ds as [|d ds].
  { (* the text has a declaration *)
    exfalso. unfold splice in Hc'. cbn [map concat app] in Hc'. rewrite Hc' in Hc.
    cbn [leftmost] in Hleft. specialize (Hleft pre _ Hc).
    apply match_at_body_pattern_None in Hleft. apply Hleft.
    exists ws, name, ws1, ws2, data, rest0. auto. }
  pose proof (Forall_inv Hds) as [Hh Hb].
  destruct Hleft as [Hgap Hleft].
  rewrite splice_cons in Hc'.
  (* the two leftmost declarations of [content] are the same *)
  assert (Hsame : pre = gap d
                  /\ declaration ws name ws1 ws2 data ++ rest0
                     = header d ++ body d ++ text "}" ++ splice (fun b => b) ds rest).
  { apply leftmost_unique.
    - rewrite <- Hc'. symmetry. exact Hc.
    - exists ws, name, ws1, ws2, data, rest0. auto.
    - apply declared_at_header. exists (header d), (body d), (splice (fun b => b) ds rest). auto.
    - exact Hfirst.
    - intros p1 p2 Hp Hne. apply match_at_body_pattern_None. apply (Hgap p1 p2 Hp Hne). }
  destruct Hsame as [-> Hm].
  apply is_header_inv in Hh as (ws' & name' & ws1' & ws2' & Hhdr & Hs').
  rewrite Hhdr in Hm. unfold declaration in Hm. rewrite <- !app_assoc in Hm.
  apply (header_unique _ _ _ _ _ _ _ _ _ _ Hs Hs') in Hm as (<- & <- & <- & <- & _).
  (* the leftmost declaration of the output *)
  cbn [map]. rewrite splice_cons. cbn [with_body gap header body].
  destruct Hleft' as [Hgap' _]. cbn [with_body gap header body] in Hgap'.
  set (new := newline ++ t ++ newline) in *.
  set (R := splice (fun b => b) (map (with_body new) ds) rest) in *.
  destruct (match_at_array_declaration ws name ws1 ws2 new R Hs
              (is_body_new_body _ _ _ Ht)) as (gs & Hmatch & Hg1 & Hg2).
  assert (Hsearch : search array_pattern (gap d ++ header d ++ new ++ text "}" ++ R)
                    = Some (gap d, gs, R)).
  { replace (header d ++ new ++ text "}" ++ R)
      with (declaration ws name ws1 ws2 new ++ R)
      by (rewrite Hhdr; unfold declaration; rewrite <- !app_assoc; reflexivity).
    apply search_leftmost; [|exact Hmatch].
    intros p1 p2 Hp Hne. apply match_at_array_pattern_None.
    specialize (Hgap' p1 p2 Hp Hne). apply match_at_body_pattern_None in Hgap'.
    intros Hdecl. apply Hgap'.
    replace (header d ++ new ++ text "}" ++ R)
      with (declaration ws name ws1 ws2 new ++ R)
      by (rewrite Hhdr; unfold declaration; rewrite <- !app_assoc; reflexivity).
    exact Hdecl. }
  pose proof (findall_new_body pixels width t Hbytes Ht) as Hvalues. fold new in Hvalues.
  unfold parse_c_file. rewrite Hsearch, Hg1, Hg2. cbn [default from_option].
  unfold Datatypes.id. rewrite Hvalues. reflexivity.
Qed.

End FileRoundTrip.

(** * The serializer's errors and line wrapping *)

(** [f"0x{b:02x}, 0x{g:02x}, 0x{r:02x}, 0x{a:02x}"] for every four
    values. *)
Fixpoint pixel_texts (pixels : list Z) : list (list N) :=
  match pixels with
  | b :: g :: r :: a :: rest => format_pixel b g r a :: pixel_texts rest
  | _ => []
  end.

Section SerializerLoop.

Lemma format_loop_app pixels width l1 l2 st :
  format_loop pixels width (l1 ++ l2) st
  = let? st' := format_loop pixels width l1 st in format_loop pixels width l2 st'.
Proof.
  revert st. induction l1 as [|i l1 IH]; intros st; cbn [app format_loop]; [reflexivity|].
  destruct (format_step pixels width st i) as [st1|e]; cbn [res_bind]; [apply IH|reflexivity].
Qed.

Lemma slice_short (pixels : list Z) n :
  (length pixels < n + 4)%nat ->
  (length (slice pixels (Z.of_nat n) (Z.of_nat n + 4)) < 4)%nat.
Proof.
  intros Hn. unfold slice. rewrite Nat2Z.id.
  replace (Z.to_nat (Z.of_nat n + 4 - Z.of_nat n)) with 4%nat by lia.
  rewrite length_take, length_drop. lia.
Qed.

Lemma format_step_short pixels width st n :
  width <> 0 -> (length pixels < n + 4)%nat ->
  format_step pixels width st (Z.of_nat n) = Raise (ValueError NotEnoughValues).
Proof.
  intros Hw Hn. destruct st as [lines lp]. unfold format_step.
  pose proof (slice_short pixels n Hn) as Hs.
  apply Z.eqb_neq in Hw. rewrite Hw.
  destruct (0 <? Z.of_nat n); cbn [res_bind].
  - destruct ((Z.of_nat n / 4) mod width =? 0);
      destruct (slice pixels (Z.of_nat n) (Z.of_nat n + 4)) as [|b [|g [|r [|a [|? ?]]]]];
      try reflexivity; cbn in Hs; lia.
  - destruct (slice pixels (Z.of_nat n) (Z.of_nat n + 4)) as [|b [|g [|r [|a [|? ?]]]]];
      try reflexivity; cbn in Hs; lia.
Qed.

Lemma range_step_4 (n : nat) :
  range_step (Z.of_nat n) 4 = (fun k => k * 4) <$> seqZ 0 (Z.of_nat ((n + 3) / 4)).
Proof.
  unfold range_step. f_equal. f_equal.
  rewrite Nat2Z.inj_div. f_equal. lia.
Qed.

(** A sequence that does not end on a whole pixel is rejected, when the
    width is not zero. *)
Lemma array_content_short pixels width :
  width <> 0 -> Z.of_nat (length pixels) mod 4 <> 0 ->
  array_content pixels width = Raise (ValueError NotEnoughValues).
Proof.
  intros Hw Hmod. unfold array_content. rewrite range_step_4.
  set (n := length pixels) in *.
  pose proof (Z.div_mod (Z.of_nat n) 4 ltac:(lia)) as Hdm.
  pose proof (Z.mod_pos_bound (Z.of_nat n) 4 ltac:(lia)) as Hpos.
  set (q := Z.to_nat (Z.of_nat n / 4)).
  assert (Hqz : Z.of_nat q = Z.of_nat n / 4).
  { unfold q. apply Z2Nat.id. apply Z.div_pos; lia. }
  assert (Hq : ((n + 3) / 4 = S q)%nat).
  { symmetry. apply Nat.div_unique with (Z.to_nat (Z.of_nat n mod 4 - 1)); lia. }
  rewrite Hq, Nat2Z.inj_succ.
  replace (Z.succ (Z.of_nat q)) with (Z.of_nat q + 1) by lia.
  rewrite seqZ_app by lia. rewrite fmap_app, format_loop_app.
  destruct (format_loop_total pixels width q 0 ([], []) Hw ltac:(fold n; lia)) as [st Hloop].
  change (Z.of_nat 0) with 0 in Hloop. rewrite Hloop. cbn [res_bind].
  change (seqZ (0 + Z.of_nat q) 1) with [0 + Z.of_nat q].
  cbn [fmap list_fmap format_loop].
  replace ((0 + Z.of_nat q) * 4) with (Z.of_nat (4 * q)) by lia.
  rewrite format_step_short; [reflexivity|exact Hw|]. fold n. lia.
Qed.

(** With width 0 the second pixel makes the line test divide by zero. *)
Lemma array_content_zero_width pixels :
  (4 < length pixels)%nat -> array_content pixels 0 = Raise ZeroDivisionError.
Proof.
  intros Hlen. unfold array_content. rewrite range_step_4.
  assert (Hk : (2 <= (length pixels + 3) / 4)%nat)
    by (apply Nat.div_le_lower_bound; lia).
  destruct ((length pixels + 3) / 4)%nat as [|[|k]]; [lia|lia|].
  - rewrite seqZ_cons by lia. rewrite (seqZ_cons (Z.succ 0)) by lia.
    cbn [fmap list_fmap format_loop].
    destruct (slice_four pixels 0 ltac:(lia)) as (b & g & r & a & Hs).
    unfold format_step at 1. change (0 * 4) with (Z.of_nat 0).
    change (0 <? Z.of_nat 0) with false. cbn [res_bind]. rewrite Hs.
    cbn [res_bind]. reflexivity.
Qed.

Lemma array_content_zero_width_short pixels :
  (0 < length pixels < 4)%nat ->
  array_content pixels 0 = Raise (ValueError NotEnoughValues).
Proof.
  intros Hlen. unfold array_content. rewrite range_step_4.
  replace ((length pixels + 3) / 4)%nat with 1%nat.
  - change (seqZ 0 (Z.of_nat 1)) with [0]. cbn [fmap list_fmap format_loop].
    unfold format_step. change (0 * 4) with (Z.of_nat 0).
    change (0 <? Z.of_nat 0) with false. cbn [res_bind].
    pose proof (slice_short pixels 0 ltac:(lia)) as Hs.
    destruct (slice pixels (Z.of_nat 0) (Z.of_nat 0 + 4)) as [|b [|g [|r [|a [|? ?]]]]];
      try reflexivity; cbn in Hs; lia.
  - apply Nat.div_unique with (length pixels - 1)%nat; lia.
Qed.

Lemma array_content_zero_width_one pixels :
  (length pixels = 0 \/ length pixels = 4)%nat ->
  exists t, array_content pixels 0 = Ok t.
Proof.
  intros [Hlen|Hlen]; unfold array_content; rewrite range_step_4, Hlen.
  - cbn. eauto.
  - change (seqZ 0 (Z.of_nat ((4 + 3) / 4))) with [0]. cbn [fmap list_fmap format_loop].
    unfold format_step. change (0 * 4) with (Z.of_nat 0).
    change (0 <? Z.of_nat 0) with false. cbn [res_bind].
    destruct (slice_four pixels 0 ltac:(lia)) as (b & g & r & a & Hs).
    rewrite Hs. cbn [res_bind]. eauto.
Qed.

(** The outcome of rendering the array, by the length of the sequence and
    the width: a text, [ZeroDivisionError] when the width is zero and
    there is more than one pixel, or [ValueError] (not enough values to
    unpack) when the sequence does not end on a whole pixel. *)
Lemma array_content_cases pixels width :
  let n := Z.of_nat (length pixels) in
  match array_content pixels width with
  | Ok _ => n mod 4 = 0 /\ (width <> 0 \/ n <= 4)
  | Raise e =>
      e = ZeroDivisionError /\ width = 0 /\ 4 < n
      \/ e = ValueError NotEnoughValues /\ n mod 4 <> 0 /\ (width <> 0 \/ n < 4)
  end.
Proof.
  intros n. unfold n.
  destruct (Z.eq_dec width 0) as [->|Hw].
  - destruct (Nat.lt_ge_cases 4%nat (length pixels)) as [Hlt|Hle].
    + rewrite (array_content_zero_width pixels Hlt). left. split; [reflexivity|lia].
    + destruct (Nat.eq_dec (length pixels) 0%nat) as [H0|H0].
      * destruct (array_content_zero_width_one pixels (or_introl H0)) as [t ->].
        rewrite H0. split; [reflexivity|lia].
      * destruct (Nat.eq_dec (length pixels) 4%nat) as [H4|H4].
        -- destruct (array_content_zero_width_one pixels (or_intror H4)) as [t ->].
           rewrite H4. split; [reflexivity|lia].
        -- rewrite (array_content_zero_width_short pixels ltac:(lia)). right.
           split; [reflexivity|]. split; [|lia].
           assert (Hn : 0 < Z.of_nat (length pixels) < 4) by lia.
           rewrite Z.mod_small by lia. lia.
  - destruct (Z.eq_dec (Z.of_nat (length pixels) mod 4) 0) as [Hm|Hm].
    + destruct (array_content_total pixels width Hm Hw) as [t ->]. auto.
    + rewrite (array_content_short pixels width Hw Hm). right. auto.
Qed.

End SerializerLoop.

Section LineWrapping.

Lemma format_loop_invariant (I : nat -> list (list N) * list (list N) -> Prop)
    pixels width :
  (forall k st st', I k st ->
     format_step pixels width st (Z.of_nat (4 * k)) = Ok st' -> I (S k) st') ->
  forall cnt m st st',
    I m st ->
    format_loop pixels width ((fun k => k * 4) <$> seqZ (Z.of_nat m) (Z.of_nat cnt)) st
    = Ok st' ->
    I (m + cnt)%nat st'.
Proof.
  intros Hstep. induction cnt as [|cnt IH]; intros m st st' Hst.
  - rewrite seqZ_nil by lia. cbn [fmap list_fmap format_loop]. intros [= <-].
    rewrite Nat.add_0_r. exact Hst.
  - rewrite seqZ_cons by lia. cbn [fmap list_fmap format_loop].
    destruct (format_step pixels width st (Z.of_nat m * 4)) as [st1|e] eqn:Hs; [|discriminate].
    cbn [res_bind]. intros Hloop.
    replace (Z.of_nat m * 4) with (Z.of_nat (4 * m)) in Hs by lia.
    apply Hstep in Hs; [|exact Hst].
    replace (Z.succ (Z.of_nat m)) with (Z.of_nat (S m)) in Hloop by lia.
    replace (Z.pred (Z.of_nat (S cnt))) with (Z.of_nat cnt) in Hloop by lia.
    apply IH in Hloop; [|exact Hs].
    replace (m + S cnt)%nat with (S m + cnt)%nat by lia. exact Hloop.
Qed.

Lemma pixel_texts_app m : forall l l',
  length l = (4 * m)%nat -> pixel_texts (l ++ l') = pixel_texts l ++ pixel_texts l'.
Proof.
  induction m as [|m IH]; intros l l' Hlen.
  - destruct l; [reflexivity|cbn in Hlen; lia].
  - destruct l as [|b [|g [|r [|a l]]]]; try (cbn in Hlen; lia).
    cbn [app pixel_texts]. rewrite (IH l l'); [reflexivity|]. cbn in Hlen. lia.
Qed.

Lemma slice_take (pixels : list Z) n b g r a :
  slice pixels (Z.of_nat n) (Z.of_nat n + 4) = [b; g; r; a] ->
  take (n + 4) pixels = take n pixels ++ [b; g; r; a] /\ (n + 4 <= length pixels)%nat.
Proof.
  unfold slice. rewrite Nat2Z.id.
  replace (Z.to_nat (Z.of_nat n + 4 - Z.of_nat n)) with 4%nat by lia.
  intros Hs. split; [rewrite <- take_take_drop, Hs; reflexivity|].
  apply (f_equal length) in Hs. rewrite length_take, length_drop in Hs. cbn [length] in Hs. lia.
Qed.

Lemma format_step_eq pixels width lines lp i :
  width <> 0 ->
  format_step pixels width (lines, lp) i
  = let '(lines', lp') :=
      if (if 0 <? i then (i / 4) mod width =? 0 else false)
      then (lines ++ [format_line lp], [])
      else (lines, lp) in
    match slice pixels i (i + 4) with
    | [b; g; r; a] => Ok (lines', lp' ++ [format_pixel b g r a])
    | _ => Raise (ValueError NotEnoughValues)
    end.
Proof.
  intros Hw. unfold format_step. apply Z.eqb_neq in Hw. rewrite Hw.
  destruct (0 <? i); reflexivity.
Qed.

Section Rows.
Variables (pixels : list Z) (width : Z).
Hypothesis Hw : width <> 0.

Let w : nat := Z.to_nat (Z.abs width).

(** After [k] pixels: the finished lines are full rows, the line under
    way holds the pixels since the last full row, at least one. *)
Definition in_rows (k : nat) (st : list (list N) * list (list N)) : Prop :=
  exists full,
    fst st = map format_line full
    /\ Forall (fun row => length row = w) full
    /\ concat full ++ snd st = pixel_texts (take (4 * k) pixels)
    /\ (length (snd st) <= w)%nat
    /\ (0 < k -> 0 < length (snd st))%nat
    /\ k = (w * length full + length (snd st))%nat.

Lemma new_line_test k f l :
  (0 < l <= w)%nat -> k = (w * f + l)%nat ->
  ((Z.of_nat (4 * k) / 4) mod width =? 0) = (l =? w)%nat.
Proof using Hw.
  intros Hl Hk.
  replace (Z.of_nat (4 * k) / 4) with (Z.of_nat k)
    by (rewrite Nat2Z.inj_mul, Z.mul_comm, Z.div_mul; lia).
  assert (Hwz : Z.of_nat w = Z.abs width) by (unfold w; lia).
  destruct (Nat.eqb_spec l w) as [->|Hne].
  - apply Z.eqb_eq. apply Z.mod_divide; [exact Hw|].
    apply Z.divide_abs_l. rewrite <- Hwz. exists (Z.of_nat f + 1). lia.
  - apply Z.eqb_neq. intros Hm. apply Z.mod_divide in Hm; [|exact Hw].
    apply Z.divide_abs_l in Hm. rewrite <- Hwz in Hm. destruct Hm as [c Hc].
    assert (Hl' : Z.of_nat l = (c - Z.of_nat f) * Z.of_nat w) by lia.
    assert (c - Z.of_nat f = 1) by nia. lia.
Qed.

Lemma format_step_in_rows k st st' :
  in_rows k st -> format_step pixels width st (Z.of_nat (4 * k)) = Ok st' ->
  in_rows (S k) st'.
Proof using Hw.
  intros (full & Hlines & Hfull & Hcat & Hle & Hpos & Hk) Hstep.
  destruct st as [lines lp]. cbn [fst snd] in *. subst lines.
  assert (Hw0 : (0 < w)%nat) by (unfold w; lia).
  rewrite format_step_eq in Hstep by exact Hw.
  assert (Hflush : exists full' lp',
             (if (if 0 <? Z.of_nat (4 * k)
                  then (Z.of_nat (4 * k) / 4) mod width =? 0 else false)
              then (map format_line full ++ [format_line lp], [])
              else (map format_line full, lp)) = (map format_line full', lp')
             /\ Forall (fun row => length row = w) full'
             /\ concat full' ++ lp' = pixel_texts (take (4 * k) pixels)
             /\ (length lp' < w)%nat
             /\ k = (w * length full' + length lp')%nat).
  { destruct (0 <? Z.of_nat (4 * k)) eqn:Hk0.
    - apply Z.ltb_lt in Hk0.
      rewrite (new_line_test k (length full) (length lp)) by lia.
      destruct (Nat.eqb_spec (length lp) w) as [Hl|Hl].
      + exists (full ++ [lp]), []. rewrite map_app, concat_app, length_app.
        cbn [map concat length]. rewrite !app_nil_r.
        split; [reflexivity|]. split; [apply Forall_app_2; auto|].
        split; [exact Hcat|]. split; lia.
      + exists full, lp. split; [reflexivity|]. split; [exact Hfull|].
        split; [exact Hcat|]. split; lia.
    - apply Z.ltb_ge in Hk0. assert (k = 0%nat) by lia. subst k.
      exists full, lp. split; [reflexivity|]. split; [exact Hfull|].
      split; [exact Hcat|]. split; lia. }
  destruct Hflush as (full' & lp' & Hst & Hfull' & Hcat' & Hlt' & Hk').
  rewrite Hst in Hstep.
  destruct (slice pixels (Z.of_nat (4 * k)) (Z.of_nat (4 * k) + 4))
    as [|b [|g [|r [|a [|? ?]]]]] eqn:Hs; try discriminate.
  injection Hstep as <-.
  apply slice_take in Hs as [Htake Hlen].
  exists full'. cbn [fst snd].
  split; [reflexivity|]. split; [exact Hfull'|].
  split; [|rewrite length_app; cbn [length]; split; [lia|split; lia]].
  replace (4 * S k)%nat with (4 * k + 4)%nat by lia.
  rewrite Htake, (pixel_texts_app k) by (rewrite length_take; lia).
  rewrite app_assoc, Hcat'. reflexivity.
Qed.

Lemma array_content_in_rows t :
  array_content pixels width = Ok t ->
  exists rows,
    t = join newline (map format_line rows)
    /\ concat rows = pixel_texts pixels
    /\ (rows = [] /\ pixels = []
        \/ exists full last,
             rows = full ++ [last]
             /\ Forall (fun row => length row = w) full
             /\ (0 < length last <= w)%nat).
Proof using Hw.
  intros Ht. pose proof (array_content_cases pixels width) as Hout.
  cbv zeta in Hout. rewrite Ht in Hout. destruct Hout as [Hmod _].
  revert Ht. unfold array_content. rewrite range_step_4.
  destruct (format_loop _ _ _ _) as [[lines lp]|e] eqn:Hloop; [|discriminate].
  cbn [res_bind]. intros [= <-].
  apply (format_loop_invariant in_rows pixels width format_step_in_rows _ 0) in Hloop.
  - destruct Hloop as (full & Hlines & Hfull & Hcat & Hle & Hpos & Hk).
    cbn [fst snd Nat.add] in *.
    assert (Hlen : (4 * ((length pixels + 3) / 4) = length pixels)%nat).
    { apply Z.mod_divide in Hmod as [q Hq]; [|lia].
      replace ((length pixels + 3) / 4)%nat with (Z.to_nat q); [lia|].
      apply Nat.div_unique with 3%nat; lia. }
    rewrite take_ge in Hcat by lia.
    destruct lp as [|p lp].
    + exists full. rewrite app_nil_r in Hcat. split; [rewrite Hlines; reflexivity|].
      split; [exact Hcat|]. left.
      cbn [length] in *. assert (Hk0 : ((length pixels + 3) / 4 = 0)%nat) by lia.
      assert (length pixels = 0%nat) by lia.
      destruct full as [|row full]; [|cbn [length] in Hk; inversion Hfull; subst; nia].
      split; [reflexivity|]. destruct pixels; [reflexivity|discriminate].
    + exists (full ++ [p :: lp]). rewrite map_app, concat_app. cbn [map concat].
      rewrite app_nil_r. split; [rewrite Hlines; reflexivity|].
      split; [exact Hcat|]. right. exists full, (p :: lp).
      split; [reflexivity|]. split; [exact Hfull|]. cbn [length] in *. lia.
  - exists []. cbn [fst snd map concat length app Nat.mul]. rewrite Nat.mul_0_r, take_0.
    split; [reflexivity|]. split; [constructor|]. split; [reflexivity|].
    split; [lia|]. split; lia.
Qed.

End Rows.

End LineWrapping.

(** * What the transformer does to the channels *)

Section Channels.
Import PyFloat.

Lemma to_int_small f :
  is_finite f = true -> (Rabs (B2R f) < 1)%R -> to_int f = Ok 0.
Proof.
  destruct f as [s|s| |s m e]; try discriminate; intros _ H; [reflexivity|].
  rewrite Rabs_B2R_finite in H. cbn [to_int].
  destruct (shiftl_F2R (Zpos m) e ltac:(lia)) as [H0 Hle].
  assert (Hk : (IZR (Z.shiftl (Zpos m) e) < IZR 1)%R) by lra.
  apply lt_IZR in Hk. assert (Z.shiftl (Zpos m) e = 0) as -> by lia.
  destruct s; reflexivity.
Qed.

(** A factor just below zero scales a byte to 0. *)
Lemma scale_nonpositive c f :
  is_byte c = true -> valid f -> is_finite f = true ->
  (- / 1000 <= B2R f <= 0)%R -> scale c f = Ok 0.
Proof.
  intros Hc V F B. unfold scale, int_mul.
  destruct (of_int_byte c Hc) as (cf & -> & Vc & Fc & Bc). cbn [res_bind].
  apply is_byte_spec in Hc.
  assert (H1 : (IZR c <= 255)%R) by (apply IZR_le; lia).
  pose proof (mul_spec cf f Vc V Fc F) as Hm.
  pose proof fmax_big. pose proof eta_tiny. pose proof eps_tiny.
  assert (Hp : (Rabs (B2R cf * B2R f) <= / 2)%R).
  { rewrite Rabs_mult, (Rabs_right (B2R cf)), (Rabs_left1 (B2R f)) by lra. nra. }
  assert (Hfin : is_finite (mul cf f) = true).
  { apply (approx_finite _ _ Hm). lra. }
  destruct (approx_bound _ _ Hm Hfin) as (Hb & _).
  apply to_int_small; [exact Hfin|].
  assert (Rabs (B2R cf * B2R f) * eps <= / 2 * / 1048576)%R.
  { pose proof (Rabs_pos (B2R cf * B2R f)). apply Rmult_le_compat; lra. }
  lra.
Qed.

Lemma ltb_one_lt f :
  valid f -> is_finite f = true -> ltb f one = true -> (B2R f < 1)%R.
Proof.
  intros V F Hlt. pose proof (ltb_one_not_geb f Hlt) as Hge.
  destruct f as [s|s| |s m e]; try discriminate.
  - cbn [B2R]. lra.
  - destruct s.
    + cbn [B2R]. rewrite F2R_cond_Zopp.
      pose proof (F2R_pos (Zpos m) e ltac:(lia)). lra.
    + apply (not_geb_one_lt _ V Hge eq_refl eq_refl).
Qed.

(** The shadow factor is, up to rounding, between 0 and 1. *)
Lemma shadow_factor_bounds y height ms sf :
  1 <= height < 2 ^ 1023 -> 0 <= y < height ->
  valid ms -> unit_interval ms = true ->
  get_shadow_factor y height ms = Ok sf ->
  valid sf /\ is_finite sf = true /\ (- / 1000 <= B2R sf <= 1 + / 1000)%R.
Proof.
  intros Hh Hy V U. destruct (unit_interval_spec ms V U) as [Fm Bm].
  pose proof fmax_big as Hbig. pose proof eta_tiny. pose proof eps_tiny.
  unfold get_shadow_factor.
  pose proof (shadow_start_spec height ltac:(lia)) as Hs.
  destruct (shadow_start height) as [s|e]; cbn [res_bind]; [|discriminate].
  destruct (y <? s) eqn:Hys.
  { intros [= <-]. destruct within_one as (V1 & F1 & _).
    split; [exact V1|]. split; [exact F1|].
    replace (B2R one) with 1%R; [lra|]. symmetry. apply B2R_one. }
  apply Z.ltb_ge in Hys.
  pose proof (int_truediv_spec (y - s) (height - s) ltac:(lia)) as Hd.
  assert (Hv : (0 <= IZR (y - s) / IZR (height - s) <= 1)%R).
  { assert (0 < IZR (height - s))%R by (apply IZR_lt; lia).
    assert (0 <= IZR (y - s))%R by (apply IZR_le; lia).
    assert (IZR (y - s) <= IZR (height - s))%R by (apply IZR_le; lia).
    split.
    - apply Rmult_le_pos; [lra|]. apply Rlt_le, Rinv_0_lt_compat. lra.
    - apply Rmult_le_reg_r with (IZR (height - s)); [lra|].
      unfold Rdiv. rewrite Rmult_assoc, Rinv_l by lra. lra. }
  destruct (int_truediv (y - s) (height - s)) as [p|e]; cbn [res_bind]; [|discriminate].
  destruct Hd as [Ha Fp]. intros Heq.
  assert (Esf : sf = sub one (mul p ms)) by congruence. clear Heq. rewrite Esf.
  pose proof (approx_valid _ _ Ha) as Vp.
  destruct (approx_bound _ _ Ha Fp) as (Bp & Pp & _).
  specialize (Pp ltac:(lra)). rewrite !Rabs_right in Bp by lra.
  assert (Bp' : (B2R p <= 1 + / 500000)%R).
  { assert (IZR (y - s) / IZR (height - s) * eps <= 1 * / 1048576)%R
      by (apply Rmult_le_compat; lra). lra. }
  pose proof (mul_spec p ms Vp V Fp Fm) as Hm.
  assert (Hpm : (0 <= B2R p * B2R ms <= 1 + / 500000)%R) by nra.
  assert (Fpm : is_finite (mul p ms) = true).
  { apply (approx_finite _ _ Hm). rewrite Rabs_right by lra. lra. }
  pose proof (approx_valid _ _ Hm) as Vpm.
  destruct (approx_bound _ _ Hm Fpm) as (Bpm & Ppm & _).
  specialize (Ppm ltac:(lra)). rewrite !Rabs_right in Bpm by lra.
  assert (Bpm' : (B2R (mul p ms) <= 1 + / 100000)%R).
  { assert (B2R p * B2R ms * eps <= 2 * / 1048576)%R
      by (apply Rmult_le_compat; lra). lra. }
  destruct within_one as (V1 & F1 & _).
  pose proof (sub_spec one (mul p ms) V1 Vpm F1 Fpm) as Hsub.
  replace (B2R one) with 1%R in Hsub by (symmetry; apply B2R_one).
  assert (Habs : (Rabs (1 - B2R (mul p ms)) <= 1)%R).
  { apply Rabs_le. lra. }
  assert (Fs : is_finite (sub one (mul p ms)) = true).
  { apply (approx_finite _ _ Hsub). lra. }
  split; [exact (approx_valid _ _ Hsub)|]. split; [exact Fs|].
  destruct (approx_bound _ _ Hsub Fs) as (Bs & Ps & Ns).
  assert (Rabs (1 - B2R (mul p ms)) * eps <= 1 * / 1048576)%R.
  { pose proof (Rabs_pos (1 - B2R (mul p ms))). apply Rmult_le_compat; lra. }
  destruct (Rle_dec 0 (1 - B2R (mul p ms))) as [Hpos|Hneg].
  - specialize (Ps Hpos). rewrite (Rabs_right (B2R _)) in Bs by lra. lra.
  - specialize (Ns ltac:(lra)). rewrite (Rabs_left1 (B2R _)) in Bs by lra.
    rewrite (Rabs_left1 (1 - _)) in * by lra. lra.
Qed.

(** Darkening a byte: the result is between 0 and the byte. *)
Lemma shadow_scale_le c y height ms sf :
  1 <= height < 2 ^ 1023 -> 0 <= y < height ->
  valid ms -> unit_interval ms = true ->
  get_shadow_factor y height ms = Ok sf -> ltb sf one = true ->
  is_byte c = true ->
  exists k, scale c sf = Ok k /\ 0 <= k <= c.
Proof.
  intros Hh Hy V U Hsf Hlt Hc.
  destruct (shadow_factor_bounds y height ms sf Hh Hy V U Hsf) as (Vs & Fs & Bs).
  pose proof (ltb_one_lt sf Vs Fs Hlt) as H1.
  destruct (Rle_dec 0 (B2R sf)) as [Hpos|Hneg].
  - apply scale_le; try assumption. lra.
  - exists 0. split; [apply scale_nonpositive; try assumption; lra|].
    apply is_byte_spec in Hc. lia.
Qed.

(** No channel of a pixel grows, and none becomes negative. *)
Lemma new_pixel_le width height radius max_shadow y x b g r a b' g' r' a' :
  0 <= y < height -> height < 2 ^ 1023 ->
  valid max_shadow -> unit_interval max_shadow = true ->
  is_byte b = true -> is_byte g = true -> is_byte r = true -> is_byte a = true ->
  new_pixel width height radius max_shadow y x (b, g, r, a) = Ok (b', g', r', a') ->
  0 <= b' <= b /\ 0 <= g' <= g /\ 0 <= r' <= r /\ 0 <= a' <= a.
Proof.
  intros Hy Hh Vs Us Bb Bg Br Ba. unfold new_pixel.
  pose proof (is_byte_spec _ Bb). pose proof (is_byte_spec _ Bg).
  pose proof (is_byte_spec _ Br). pose proof (is_byte_spec _ Ba).
  destruct (distance_to_corner x y width height radius) as [d|e] eqn:Hd; [|discriminate].
  cbn [res_bind]. pose proof (distance_to_corner_valid _ _ _ _ _ _ Hd) as Vd.
  destruct (geb d one) eqn:Hge; [intros [= <- <- <- <-]; lia|].
  destruct (int_ltb 0 d) eqn:Hpos.
  { destruct (one_minus_fraction d Vd Hpos Hge) as (Vf & Ff & Bf).
    destruct (scale_le a _ Ba Vf Ff Bf) as (k & -> & Hk). cbn [res_bind].
    intros [= <- <- <- <-]. lia. }
  destruct (get_shadow_factor y height max_shadow) as [sf|e] eqn:Hsf; [|discriminate].
  cbn [res_bind]. destruct (ltb sf one) eqn:Hlt; [|intros [= <- <- <- <-]; lia].
  destruct (shadow_scale_le b y height max_shadow sf ltac:(lia) Hy Vs Us Hsf Hlt Bb)
    as (nb & -> & Hb).
  destruct (shadow_scale_le g y height max_shadow sf ltac:(lia) Hy Vs Us Hsf Hlt Bg)
    as (ng & -> & Hg).
  destruct (shadow_scale_le r y height max_shadow sf ltac:(lia) Hy Vs Us Hsf Hlt Br)
    as (nr & -> & Hr).
  cbn [res_bind]. intros [= <- <- <- <-]. lia.
Qed.

Lemma transform_no_rows width height radius max_shadow l :
  height <= 0 -> transform width height radius max_shadow l = Ok l.
Proof.
  intros Hh. unfold transform, range. rewrite seqZ_nil by lia. reflexivity.
Qed.

Lemma get_pixel_lookup i (l : list Z) b g r a c :
  get_pixel i l = Some (b, g, r, a) -> (c < 4)%nat ->
  l !! (i + c)%nat = Some (nth c [b; g; r; a] 0).
Proof.
  intros H Hc. apply get_pixel_Some in H as (Hb & Hg & Hr & Ha).
  destruct c as [|[|[|[|c]]]]; try lia; cbn [nth].
  - rewrite Nat.add_0_r. exact Hb.
  - replace (i + 1)%nat with (S i) by lia. exact Hg.
  - replace (i + 2)%nat with (S (S i)) by lia. exact Hr.
  - replace (i + 3)%nat with (S (S (S i))) by lia. exact Ha.
Qed.

(** Every value of the returned list is between 0 and the value at the
    same place of the input: the transformer only darkens and fades, and
    bytes stay bytes. *)
Lemma apply_modifications_bounded (h : gmap positive (list Z)) pixels
    width height radius max_shadow l :
  h !! pixels = Some l ->
  Z.of_nat (length l) = width * height * 4 ->
  well_formed l radius max_shadow = true ->
  exists out h' l',
    apply_modifications pixels width height radius max_shadow h = (Ok out, h')
    /\ h' !! out = Some l'
    /\ length l' = length l
    /\ forall (i : nat) v v', l !! i = Some v -> l' !! i = Some v' -> 0 <= v' <= v.
Proof.
  intros Hl Hlen Hwf.
  destruct (apply_modifications_total h pixels width height radius max_shadow l
              Hl Hlen Hwf) as (l' & Ht & Happ).
  destruct (apply_modifications_result _ _ _ _ _ _ _ _ _ Hl Hlen Happ)
    as (l'' & Ht' & _ & _ & Hlen').
  rewrite Ht in Ht'. injection Ht' as <-.
  exists (fresh (dom h)), (<[fresh (dom h) := l']> h), l'.
  split; [exact Happ|]. split; [apply lookup_insert_eq|]. split; [exact Hlen'|].
  apply well_formed_spec in Hwf as (Hb & Hl63 & Vr & Mr & Vs & Us).
  intros i v v' Hv Hv'.
  assert (Hbyte : 0 <= v <= 255).
  { apply is_byte_spec. apply (Forall_lookup_1 _ _ _ _ Hb Hv). }
  destruct (Z_le_gt_dec width 0) as [Hw|Hw].
  { rewrite transform_no_columns in Ht by exact Hw. injection Ht as <-.
    rewrite Hv in Hv'. injection Hv' as <-. lia. }
  destruct (Z_le_gt_dec height 0) as [Hh|Hh].
  { rewrite transform_no_rows in Ht by exact Hh. injection Ht as <-.
    rewrite Hv in Hv'. injection Hv' as <-. lia. }
  apply lookup_lt_Some in Hv as Hi.
  set (q := Z.of_nat i / 4). set (c := Z.of_nat i mod 4).
  set (y := q / width). set (x := q mod width).
  pose proof (Z.div_mod (Z.of_nat i) 4 ltac:(lia)) as Hq.
  pose proof (Z.mod_pos_bound (Z.of_nat i) 4 ltac:(lia)) as Hc.
  pose proof (Z.div_mod q width ltac:(lia)) as Hyx.
  pose proof (Z.mod_pos_bound q width ltac:(lia)) as Hx.
  fold q c in Hq, Hc. fold y x in Hyx, Hx.
  assert (Hq0 : 0 <= q) by (apply Z.div_pos; lia).
  assert (Hy0 : 0 <= y) by (apply Z.div_pos; lia).
  assert (Hqlt : q < width * height) by lia.
  assert (Hy : 0 <= y < height) by nia.
  destruct (transformed_pixel _ _ _ _ _ _ _ _ _ y x Hl Hlen Hx Hy Happ)
    as (l'' & [[[b g] r] a] & [[[b' g'] r'] a'] & Hout & Hp & Hn & Hp').
  rewrite lookup_insert_eq in Hout. injection Hout as <-.
  destruct (get_pixel_bytes _ _ _ _ _ _ Hb Hp) as (Bb & Bg & Br & Ba).
  pose proof (new_pixel_le _ _ _ _ _ _ _ _ _ _ _ _ _ _ Hy ltac:(nia) Vs Us
                Bb Bg Br Ba Hn) as (Lb & Lg & Lr & La).
  assert (Hidx : i = (pixel_index width y x + Z.to_nat c)%nat).
  { unfold pixel_index. nia. }
  pose proof (get_pixel_lookup _ _ _ _ _ _ (Z.to_nat c) Hp ltac:(lia)) as E.
  pose proof (get_pixel_lookup _ _ _ _ _ _ (Z.to_nat c) Hp' ltac:(lia)) as E'.
  rewrite <- Hidx in E, E'. rewrite Hv in E. rewrite Hv' in E'.
  injection E as ->. injection E' as ->.
  destruct (Z.to_nat c) as [|[|[|[|n]]]]; cbn [nth]; lia.
Qed.

(** A pixel outside the corner masks whose row gets no darkening keeps its
    four channels. *)
Lemma apply_modifications_interior (h : gmap positive (list Z)) pixels
    width height radius max_shadow l y x d sf p out h' :
  h !! pixels = Some l ->
  Z.of_nat (length l) = width * height * 4 ->
  0 <= x < width -> 0 <= y < height ->
  distance_to_corner x y width height radius = Ok d ->
  geb d one = false -> int_ltb 0 d = false ->
  get_shadow_factor y height max_shadow = Ok sf -> ltb sf one = false ->
  get_pixel (pixel_index width y x) l = Some p ->
  apply_modifications pixels width height radius max_shadow h = (Ok out, h') ->
  exists l', h' !! out = Some l' /\ get_pixel (pixel_index width y x) l' = Some p.
Proof.
  intros Hl Hlen Hx Hy Hd Hge Hpos Hsf Hlt Hp Happ.
  destruct (transformed_pixel _ _ _ _ _ _ _ _ _ y x Hl Hlen Hx Hy Happ)
    as (l' & p0 & p' & Hout & Hp0 & Hn & Hp').
  rewrite Hp in Hp0. injection Hp0 as <-. destruct p as [[[b g] r] a].
  unfold new_pixel in Hn. rewrite Hd in Hn. cbn [res_bind] in Hn.
  rewrite Hge, Hpos, Hsf in Hn. cbn [res_bind] in Hn. rewrite Hlt in Hn.
  injection Hn as <-. eauto.
Qed.

(** A pixel outside the corner masks in a darkened row: the three colour
    channels are scaled by the shadow factor, each ending between 0 and
    its input value, and alpha is kept.  Each new channel is the binary64
    product of the channel and the factor, truncated. *)
Lemma apply_modifications_shadow (h : gmap positive (list Z)) pixels
    width height radius max_shadow l y x d sf b g r a out h' :
  h !! pixels = Some l ->
  Z.of_nat (length l) = width * height * 4 ->
  0 <= x < width -> 0 <= y < height -> height < 2 ^ 1023 ->
  valid max_shadow -> unit_interval max_shadow = true ->
  distance_to_corner x y width height radius = Ok d ->
  geb d one = false -> int_ltb 0 d = false ->
  get_shadow_factor y height max_shadow = Ok sf -> ltb sf one = true ->
  get_pixel (pixel_index width y x) l = Some (b, g, r, a) ->
  is_byte b = true -> is_byte g = true -> is_byte r = true ->
  apply_modifications pixels width height radius max_shadow h = (Ok out, h') ->
  exists l' nb ng nr,
    h' !! out = Some l'
    /\ scale b sf = Ok nb /\ scale g sf = Ok ng /\ scale r sf = Ok nr
    /\ get_pixel (pixel_index width y x) l' = Some (nb, ng, nr, a)
    /\ 0 <= nb <= b /\ 0 <= ng <= g /\ 0 <= nr <= r
    /\ int_of_product b sf nb /\ int_of_product g sf ng /\ int_of_product r sf nr.
Proof.
  intros Hl Hlen Hx Hy Hh Vs Us Hd Hge Hpos Hsf Hlt Hp Bb Bg Br Happ.
  destruct (transformed_pixel _ _ _ _ _ _ _ _ _ y x Hl Hlen Hx Hy Happ)
    as (l' & p0 & p' & Hout & Hp0 & Hn & Hp').
  rewrite Hp in Hp0. injection Hp0 as <-.
  destruct (shadow_scale_le b y height max_shadow sf ltac:(lia) Hy Vs Us Hsf Hlt Bb)
    as (nb & Enb & Hb).
  destruct (shadow_scale_le g y height max_shadow sf ltac:(lia) Hy Vs Us Hsf Hlt Bg)
    as (ng & Eng & Hg).
  destruct (shadow_scale_le r y height max_shadow sf ltac:(lia) Hy Vs Us Hsf Hlt Br)
    as (nr & Enr & Hr).
  unfold new_pixel in Hn. rewrite Hd in Hn. cbn [res_bind] in Hn.
  rewrite Hge, Hpos, Hsf in Hn. cbn [res_bind] in Hn.
  rewrite Hlt, Enb, Eng, Enr in Hn. cbn [res_bind] in Hn. injection Hn as <-.
  destruct (shadow_factor_bounds y height max_shadow sf ltac:(lia) Hy Vs Us Hsf)
    as (Vsf & Fsf & Bsf).
  assert (B2 : (Rabs (B2R sf) <= 2)%R) by (apply Rabs_le; lra).
  exists l', nb, ng, nr.
  repeat (split; [assumption|]).
  split; [|split]; apply scale_int_of_product; assumption.
Qed.

End Channels.

(** * Errors of the geometry helpers *)

Section GeometryErrors.
Import PyFloat.

Lemma to_int_nonpositive f :
  is_finite f = true -> (B2R f <= 0)%R ->
  exists k, to_int f = Ok k /\ k <= 0 /\ (B2R f <= IZR k)%R.
Proof.
  destruct f as [s|s| |s m e]; try discriminate; intros _ H.
  - exists 0. cbn [to_int B2R]. split; [reflexivity|]. split; [lia|lra].
  - cbn [to_int B2R] in *. eexists. split; [reflexivity|].
    destruct (shiftl_F2R (Zpos m) e ltac:(lia)) as [Hk Hle].
    pose proof (F2R_pos (Zpos m) e ltac:(lia)).
    rewrite F2R_cond_Zopp in *. destruct s; cbn [cond_Zopp]; [|lra].
    split; [lia|]. rewrite opp_IZR. lra.
Qed.

(** [int(height * 0.7)] for a negative height lies above the height. *)
Lemma shadow_start_negative height :
  height <= -1 ->
  match shadow_start height with
  | Ok s => height < s <= 0
  | Raise e => e = OverflowError IntTooLargeForFloat
  end.
Proof.
  intros Hh. unfold shadow_start, int_mul.
  pose proof (of_int_spec height) as Hof.
  assert (Hhr : (IZR height <= -1)%R) by (apply IZR_le; exact Hh).
  destruct (of_int height) as [f|e]; cbn [res_bind]; [|apply Hof].
  destruct Hof as [Ha Hf].
  pose proof (approx_valid _ _ Ha) as Hv.
  destruct (approx_bound _ _ Ha Hf) as (Hb & _ & Hneg).
  specialize (Hneg ltac:(lra)).
  rewrite (Rabs_left1 (IZR height)) in Hb by lra.
  rewrite (Rabs_left1 (B2R f)) in Hb by lra.
  pose proof (mul_spec f zero_point_seven Hv valid_zero_point_seven Hf eq_refl) as Hm.
  rewrite B2R_zero_point_seven in Hm.
  pose proof (valid_le_fmax f Hv) as Hmax.
  rewrite (Rabs_left1 (B2R f)) in Hmax by lra.
  pose proof fmax_pos. pose proof eta_small. pose proof eta_pos. pose proof eps_small.
  set (c := (6305039478318694 / 9007199254740992)%R) in *.
  assert (Hc : (0 < c < 71 / 100)%R) by (unfold c; lra).
  assert (Hfin : is_finite (mul f zero_point_seven) = true).
  { apply (approx_finite _ _ Hm). rewrite Rabs_left1 by nra. nra. }
  destruct (approx_bound _ _ Hm Hfin) as (Hb2 & _ & Hneg2).
  specialize (Hneg2 ltac:(nra)).
  rewrite (Rabs_left1 (B2R f * c)) in Hb2 by nra.
  rewrite (Rabs_left1 (B2R (mul f zero_point_seven))) in Hb2 by lra.
  destruct (to_int_nonpositive _ Hfin Hneg2) as (k & -> & Hk0 & Hkle).
  split; [|exact Hk0]. apply lt_IZR.
  assert (A1 : (- IZR height * eps <= - IZR height * / 1024)%R) by nra.
  assert (A2 : (- B2R f * c <= - B2R f * (71 / 100))%R) by nra.
  assert (A4 : (0 <= - (B2R f * c))%R) by nra.
  assert (A3 : (- (B2R f * c) * eps <= - (B2R f * c) * / 1024)%R)
    by (apply Rmult_le_compat_l; lra).
  lra.
Qed.

Lemma int_truediv_not_zero_division a b :
  b <> 0 -> int_truediv a b <> Raise ZeroDivisionError.
Proof.
  intros Hb. pose proof (int_truediv_spec a b Hb) as H.
  destruct (int_truediv a b) as [f|e]; [discriminate|].
  destruct H as [-> _]. discriminate.
Qed.

End GeometryErrors.

(** * The three stages together *)

Section Pipeline.
Import PyFloat.

Lemma forallb_lookup {A} (f : A -> bool) (l : list A) :
  (forall (i : nat) v, l !! i = Some v -> f v = true) -> forallb f l = true.
Proof.
  induction l as [|x l IH]; intros H; [reflexivity|]. cbn [forallb].
  rewrite (H 0%nat x eq_refl). cbn [andb]. apply IH.
  intros i v Hv. apply (H (S i) v). exact Hv.
Qed.

Lemma format_output_total pixels content width :
  Z.of_nat (length pixels) mod 4 = 0 ->
  width <> 0 \/ pixels = [] ->
  exists out, format_output pixels content width = Ok out.
Proof.
  intros Hmod Hw.
  assert (Ht : exists t, array_content pixels width = Ok t).
  { destruct Hw as [Hw| ->]; [apply array_content_total; assumption|].
    exists []. reflexivity. }
  destruct Ht as [t Ht]. unfold format_output. rewrite Ht. cbn [res_bind].
  destruct (sub_body_pattern t content (array_content_plain _ _ _ Ht))
    as (ds & rest & _ & _ & _ & ->).
  eauto.
Qed.

(** Extraction, transformation and serialization in a row: on a text
    whose leftmost declaration holds [width * height * 4] values, with a
    radius and a shadow strength in range, the transformer and the
    serializer return, and the text written reads back as the transformed
    values under the same name. *)
Lemma pipeline_read_back (h : gmap positive (list Z)) loc content pixels text0 name
    width height radius max_shadow :
  parse_c_file content = Ok (pixels, text0, name) ->
  h !! loc = Some pixels ->
  Z.of_nat (length pixels) = width * height * 4 ->
  well_formed pixels radius max_shadow = true ->
  exists out h' modified new_content,
    apply_modifications loc width height radius max_shadow h = (Ok out, h')
    /\ h' !! out = Some modified
    /\ format_output modified text0 width = Ok new_content
    /\ parse_c_file new_content = Ok (modified, new_content, name).
Proof.
  intros Hparse Hl Hlen Hwf.
  destruct (apply_modifications_bounded h loc width height radius max_shadow pixels
              Hl Hlen Hwf) as (out & h' & modified & Happ & Hout & Hlen' & Hle).
  assert (Hbytes : forallb is_byte modified = true).
  { apply well_formed_spec in Hwf as (Hb & _).
    apply forallb_lookup. intros i v' Hv'.
    destruct (lookup_lt_is_Some_2 pixels i) as [v Hv].
    { rewrite <- Hlen'. apply lookup_lt_Some in Hv'. exact Hv'. }
    pose proof (Hle i v v' Hv Hv') as Hvv.
    pose proof (is_byte_spec _ (Forall_lookup_1 _ _ _ _ Hb Hv)) as Hbv.
    unfold is_byte. apply andb_true_iff. split; apply Z.leb_le; lia. }
  assert (Htext : text0 = content).
  { apply parse_c_file_leftmost in Hparse as [-> _]. reflexivity. }
  subst text0.
  destruct (format_output_total modified content width) as [new_content Hnew].
  { rewrite Hlen', Hlen. apply Z.mod_mul. lia. }
  { destruct (Z.eq_dec width 0) as [->|Hw]; [right|left; exact Hw].
    destruct modified; [reflexivity|]. cbn [length] in Hlen'. lia. }
  exists out, h', modified, new_content.
  split; [exact Happ|]. split; [exact Hout|]. split; [exact Hnew|].
  apply (parse_format_read_back modified content width new_content pixels content name
           Hbytes Hparse Hnew).
Qed.

End Pipeline.

(** * The command-line program *)

(** The arguments, as [parse_args] returns them. *)
Record arguments := Arguments {
  input_file : list N;
  output : option (list N);           (* [None] without [--output] *)
  width : Z;
  height : Z;
  radius : PyFloat.float;
  shadow : PyFloat.float;
  backup : bool
}.

(** What the [except Exception] clause catches: an exception of the three
    stages, or one raised while reading or writing a file. *)
Inductive failure :=
  | Python (e : exn)
  | FileError.

(** The lines printed, by the statement that prints them. *)
Inductive message :=
  | InputNotFound (path : list N)            (* line 165 *)
  | Processing (path : list N)               (* line 168 *)
  | FoundArray (var_name : list N)           (* line 172 *)
  | ReadBytes (bytes pixels : Z)             (* line 173 *)
  | Applied                                  (* line 182 *)
  | BackupCreated (path : list N)            (* line 192 *)
  | Written (path : list N)                  (* line 197 *)
  | Failed (e : failure).                    (* line 200 *)

(** [args.output if args.output else args.input_file]: an empty string is
    false. *)
Definition output_file (a : arguments) : list N :=
  match output a with
  | Some (c :: p) => c :: p
  | _ => input_file a
  end.

Section Main.

(** The file system: whether a path exists, the text read from a file
    ([None] when opening or reading raises), and the file system after a
    file has been opened for writing and written, with whether that went
    through. *)
Variable world : Type.
Variable path_exists : list N -> world -> bool.
Variable read_text : list N -> world -> option (list N).
Variable write_text : list N -> list N -> world -> world * bool.

(** [main]: the exit status, the lines printed and the file system at the
    end.  The list [parse_c_file] returns is the only object of the
    store. *)
Definition main (a : arguments) (w : world) : Z * list message * world :=
  if negb (path_exists (input_file a) w) then
    (1, [InputNotFound (input_file a)], w)
  else
    let log := [Processing (input_file a)] in
    match read_text (input_file a) w with
    | None => (1, log ++ [Failed FileError], w)
    | Some content =>
        match parse_c_file content with
        | Raise e => (1, log ++ [Failed (Python e)], w)
        | Ok (pixels, original_content, var_name) =>
            let n := Z.of_nat (length pixels) in
            let log := log ++ [FoundArray var_name; ReadBytes n (n / 4)] in
            match apply_modifications 1%positive (width a) (height a) (radius a)
                    (shadow a) {[ 1%positive := pixels ]} with
            | (Raise e, _) => (1, log ++ [Failed (Python e)], w)
            | (Ok modified_pixels, h) =>
                let log := log ++ [Applied] in
                match format_output (default [] (h !! modified_pixels))
                        original_content (width a) with
                | Raise e => (1, log ++ [Failed (Python e)], w)
                | Ok new_content =>
                    let bak_file := input_file a ++ text ".bak" in
                    let '(w1, log, saved) :=
                      if backup a && bool_decide (output_file a = input_file a) then
                        let '(w1, ok) := write_text bak_file original_content w in
                        if ok then (w1, log ++ [BackupCreated bak_file], true)
                        else (w1, log, false)
                      else (w, log, true) in
                    if (saved : bool) then
                      let '(w2, ok) := write_text (output_file a) new_content w1 in
                      if (ok : bool) then (0, log ++ [Written (output_file a)], w2)
                      else (1, log ++ [Failed FileError], w2)
                    else (1, log ++ [Failed FileError], w1)
                end
            end
        end
    end.

(** The three stages on the text of the input file. *)
Definition stages (a : arguments) (content : list N) : res (list N * list N) :=
  let? parsed := parse_c_file content in
  let '(pixels, original_content, _) := parsed in
  match apply_modifications 1%positive (width a) (height a) (radius a) (shadow a)
          {[ 1%positive := pixels ]} with
  | (Raise e, _) => Raise e
  | (Ok modified_pixels, h) =>
      let? new_content :=
        format_output (default [] (h !! modified_pixels)) original_content (width a) in
      Ok (original_content, new_content)
  end.

Lemma main_stages a w :
  path_exists (input_file a) w = true ->
  match read_text (input_file a) w with
  | None => main a w = (1, [Processing (input_file a); Failed FileError], w)
  | Some content =>
      match stages a content with
      | Raise e => exists log, main a w = (1, log ++ [Failed (Python e)], w)
      | Ok (original_content, new_content) =>
          exists log,
            let bak_file := input_file a ++ text ".bak" in
            let '(w1, log1, saved) :=
              if backup a && bool_decide (output_file a = input_file a) then
                let '(w1, ok) := write_text bak_file original_content w in
                if ok then (w1, log ++ [BackupCreated bak_file], true)
                else (w1, log, false)
              else (w, log, true) in
            main a w
            = if (saved : bool) then
                let '(w2, ok) := write_text (output_file a) new_content w1 in
                if (ok : bool) then (0, log1 ++ [Written (output_file a)], w2)
                else (1, log1 ++ [Failed FileError], w2)
              else (1, log1 ++ [Failed FileError], w1)
      end
  end.
Proof.
  intros He. unfold main, stages. rewrite He. cbn [negb].
  destruct (read_text (input_file a) w) as [content|]; [|reflexivity].
  destruct (parse_c_file content) as [[[pixels original_content] var_name]|e];
    cbn [res_bind]; [|eexists; reflexivity].
  destruct (apply_modifications _ _ _ _ _ _) as [[modified_pixels|e] h];
    [|eexists; reflexivity].
  destruct (format_output _ _ _) as [new_content|e]; cbn [res_bind];
    [|eexists; reflexivity].
  eexists.
  destruct (backup a && bool_decide (output_file a = input_file a)).
  - destruct (write_text _ original_content w) as [w1 [|]]; reflexivity.
  - reflexivity.
Qed.

(** On a text without declaration, or whose number of values is not
    [width * height * 4], the run ends with status 1 after printing the
    [ValueError], and no file is written. *)
Lemma main_rejects a w content :
  path_exists (input_file a) w = true ->
  read_text (input_file a) w = Some content ->
  (forall s1 s2, content = s1 ++ s2 -> ~ declared_at s2)
  \/ (exists pixels text0 name,
        parse_c_file content = Ok (pixels, text0, name)
        /\ Z.of_nat (length pixels) <> width a * height a * 4) ->
  exists log e, main a w = (1, log ++ [Failed (Python (ValueError e))], w).
Proof.
  intros He Hr Hbad. pose proof (main_stages a w He) as H. rewrite Hr in H.
  assert (Hs : exists e, stages a content = Raise (ValueError e)).
  { unfold stages. destruct Hbad as [Hno|(pixels & text0 & name & Hp & Hlen)].
    - apply parse_c_file_missing in Hno. rewrite Hno. eauto.
    - rewrite Hp. cbn [res_bind].
      pose proof (apply_modifications_spec {[ 1%positive := pixels ]} 1%positive
                    (width a) (height a) (radius a) (shadow a) pixels
                    (lookup_singleton_eq _ _)) as Hspec.
      cbv zeta in Hspec. apply Z.eqb_neq in Hlen. rewrite Hlen in Hspec.
      rewrite Hspec. eauto. }
  destruct Hs as [e Hs]. rewrite Hs in H. destruct H as [log H]. eauto.
Qed.

(** On a text whose leftmost declaration holds [width * height * 4]
    values, with a radius and a shadow strength in range: the values are
    transformed and serialized into the text read; the backup, when asked
    for and the output replaces the input, is written first and holds the
    text read; then the output file is written with the new text; the
    status is 0 exactly when the writes went through; and the new text
    reads back as the transformed values under the same name. *)
Lemma main_transforms a w content pixels text0 name :
  path_exists (input_file a) w = true ->
  read_text (input_file a) w = Some content ->
  parse_c_file content = Ok (pixels, text0, name) ->
  Z.of_nat (length pixels) = width a * height a * 4 ->
  well_formed pixels (radius a) (shadow a) = true ->
  exists out h' modified new_content,
    apply_modifications 1%positive (width a) (height a) (radius a) (shadow a)
      {[ 1%positive := pixels ]} = (Ok out, h')
    /\ h' !! out = Some modified
    /\ length modified = length pixels
    /\ format_output modified content (width a) = Ok new_content
    /\ parse_c_file new_content = Ok (modified, new_content, name)
    /\ main a w
       = let n := Z.of_nat (length pixels) in
         let log :=
           [Processing (input_file a); FoundArray name; ReadBytes n (n / 4);
            Applied] in
         let bak_file := input_file a ++ text ".bak" in
         if backup a && bool_decide (output_file a = input_file a) then
           let '(w1, ok) := write_text bak_file content w in
           if (ok : bool) then
             let '(w2, ok) := write_text (output_file a) new_content w1 in
             if (ok : bool)
             then (0, log ++ [BackupCreated bak_file; Written (output_file a)], w2)
             else (1, log ++ [BackupCreated bak_file; Failed FileError], w2)
           else (1, log ++ [Failed FileError], w1)
         else
           let '(w2, ok) := write_text (output_file a) new_content w in
           if (ok : bool) then (0, log ++ [Written (output_file a)], w2)
           else (1, log ++ [Failed FileError], w2).
Proof.
  intros He Hr Hp Hlen Hwf.
  destruct (pipeline_read_back {[ 1%positive := pixels ]} 1%positive content pixels
              text0 name (width a) (height a) (radius a) (shadow a)
              Hp (lookup_singleton_eq _ _) Hlen Hwf)
    as (out & h' & modified & new_content & Happ & Hout & Hnew & Hback).
  assert (Htext : text0 = content).
  { apply parse_c_file_leftmost in Hp as [-> _]. reflexivity. }
  subst text0.
  assert (Hlen' : length modified = length pixels).
  { destruct (apply_modifications_result _ _ _ _ _ _ _ _ _ (lookup_singleton_eq _ _)
                Hlen Happ) as (l' & _ & _ & -> & Hl').
    rewrite lookup_insert_eq in Hout. injection Hout as <-. exact Hl'. }
  exists out, h', modified, new_content.
  split; [exact Happ|]. split; [exact Hout|]. split; [exact Hlen'|].
  split; [exact Hnew|]. split; [exact Hback|].
  unfold main. rewrite He. cbn [negb]. rewrite Hr, Hp, Happ, Hout.
  cbn [default from_option]. unfold Datatypes.id. rewrite Hnew. cbv zeta.
  destruct (backup a && bool_decide (output_file a = input_file a)).
  - destruct (write_text (input_file a ++ text ".bak") content w) as [w1 [|]].
    + destruct (write_text (output_file a) new_content w1) as [w2 [|]];
        rewrite <- ?app_assoc; reflexivity.
    + rewrite <- ?app_assoc. reflexivity.
  - destruct (write_text (output_file a) new_content w) as [w2 [|]];
      rewrite <- ?app_assoc; reflexivity.
Qed.

End Main.

(** * Further properties of the program *)

Section ExtractorProperties.
Import Re.

(** X1: the extractor returns the text as it is, the name of the leftmost
    declaration of the text and the values of the two-digit hex literals
    of its data, in order; no declaration starts before that one. *)
Theorem X1_parse_c_file_leftmost_declaration content values text' name :
  parse_c_file content = Ok (values, text', name) ->
  text' = content
  /\ exists pre ws ws1 ws2 data rest,
       content = pre ++ declaration ws name ws1 ws2 data ++ rest
       /\ header_shape ws name ws1 ws2 /\ is_body data
       /\ (forall p1 p2, pre = p1 ++ p2 -> p2 <> [] ->
             ~ declared_at (p2 ++ declaration ws name ws1 ws2 data ++ rest))
       /\ map_res int_base16 (findall hex_pattern data) = Ok values.
Proof. apply parse_c_file_leftmost. Qed.

Lemma X1_parse_c_file_leftmost_declaration_witness :
  two_arrays = two_arrays
  /\ exists pre ws ws1 ws2 data rest,
       two_arrays = pre ++ declaration ws (text "a") ws1 ws2 data ++ rest
       /\ header_shape ws (text "a") ws1 ws2 /\ is_body data
       /\ (forall p1 p2, pre = p1 ++ p2 -> p2 <> [] ->
             ~ declared_at (p2 ++ declaration ws (text "a") ws1 ws2 data ++ rest))
       /\ map_res int_base16 (findall hex_pattern data) = Ok [0].
Proof.
  apply (X1_parse_c_file_leftmost_declaration two_arrays [0] two_arrays (text "a")).
  vm_compute. reflexivity.
Defined.

(** X2: every value the extractor returns is a byte (0..255), and the only
    error it raises is the [ValueError] for a missing declaration:
    [int(h, 16)] never fails on what [re.findall] returns. *)
Theorem X2_parse_c_file_bytes content :
  match parse_c_file content with
  | Ok (values, _, _) => forallb is_byte values = true
  | Raise e => e = ValueError NoArrayDefinition
  end.
Proof.
  pose proof (parse_c_file_search content) as Hs.
  destruct (search array_pattern content) as [[[pre gs] rest]|].
  - destruct Hs as (values & -> & _ & Hb). exact Hb.
  - rewrite Hs. reflexivity.
Qed.

(** X3: the extractor fails exactly on the texts in which no declaration
    ([uint8_t], spaces, a name, [[]], [=], a brace, a non-empty body
    without closing brace, a closing brace) starts anywhere. *)
Theorem X3_parse_c_file_fails_iff_no_declaration content :
  parse_c_file content = Raise (ValueError NoArrayDefinition)
  <-> forall s1 s2, content = s1 ++ s2 -> ~ declared_at s2.
Proof. apply parse_c_file_missing. Qed.

End ExtractorProperties.

Section SerializerProperties.
Import Re.

Definition two_arrays_rewritten : list N :=
  text "uint8_t a[] = {" ++ one_pixel_body
  ++ text "}; uint8_t b[] = {" ++ one_pixel_body ++ text "};".

(** X4: serializing the same values again into the serializer's own
    output gives that output again. *)
Theorem X4_format_output_idempotent pixels content width out :
  format_output pixels content width = Ok out ->
  format_output pixels out width = Ok out.
Proof.
  intros Hout.
  destruct (format_output_declarations _ _ _ _ Hout)
    as (t & ds & rest & Ht & _ & _ & _ & -> & Hds & Hleft).
  unfold format_output. rewrite Ht. cbn [res_bind].
  rewrite (sub_declarations t _ rest (array_content_plain _ _ _ Ht) Hds Hleft).
  f_equal. unfold splice. f_equal. f_equal. rewrite !map_map. reflexivity.
Qed.

Lemma X4_format_output_idempotent_witness :
  format_output [1; 2; 3; 4] two_arrays_rewritten 1 = Ok two_arrays_rewritten.
Proof.
  apply (X4_format_output_idempotent [1; 2; 3; 4] two_arrays 1 two_arrays_rewritten).
  vm_compute. reflexivity.
Defined.

Definition no_array : list N := text "int x[] = {0x01};".

(** X5: when the extractor finds no declaration in a text, the serializer
    returns that text unchanged, without error. *)
Theorem X5_format_output_without_declaration pixels content width t :
  array_content pixels width = Ok t ->
  parse_c_file content = Raise (ValueError NoArrayDefinition) ->
  format_output pixels content width = Ok content.
Proof.
  intros Ht Hp. apply (format_output_unchanged pixels content width t Ht).
  apply parse_c_file_missing. exact Hp.
Qed.

Lemma X5_format_output_without_declaration_witness :
  format_output [1; 2; 3; 4] no_array 1 = Ok no_array.
Proof.
  apply (X5_format_output_without_declaration [1; 2; 3; 4] no_array 1
           (text "  0x01, 0x02, 0x03, 0x04,")).
  - vm_compute. reflexivity.
  - vm_compute. reflexivity.
Defined.

Definition two_arrays_two_pixels : list N :=
  Eval vm_compute in
    match format_output two_pixels two_arrays 1 with
    | Ok out => out
    | Raise _ => []
    end.

(** X6: after the serializer has written byte values into a text that has
    a declaration, the extractor reads exactly these values back from the
    result, under the same name. *)
Theorem X6_parse_reads_back_format_output pixels content width out values0 text0 name :
  forallb is_byte pixels = true ->
  parse_c_file content = Ok (values0, text0, name) ->
  format_output pixels content width = Ok out ->
  parse_c_file out = Ok (pixels, out, name).
Proof. apply parse_format_read_back. Qed.

Lemma X6_parse_reads_back_format_output_witness :
  parse_c_file two_arrays_two_pixels
  = Ok (two_pixels, two_arrays_two_pixels, text "a").
Proof.
  apply (X6_parse_reads_back_format_output two_pixels two_arrays 1
           two_arrays_two_pixels [0] two_arrays (text "a")).
  - reflexivity.
  - vm_compute. reflexivity.
  - vm_compute. reflexivity.
Defined.

(** X7: the outcome of rendering the array is fixed by the length [n] of
    the sequence and the width: a text when [n] is a multiple of 4 and the
    width is not 0 (or there is at most one pixel); [ZeroDivisionError]
    when the width is 0 and there is more than one pixel; [ValueError]
    (not enough values to unpack) when [n] is not a multiple of 4. *)
Theorem X7_array_content_outcome pixels width :
  let n := Z.of_nat (length pixels) in
  match array_content pixels width with
  | Ok _ => n mod 4 = 0 /\ (width <> 0 \/ n <= 4)
  | Raise e =>
      e = ZeroDivisionError /\ width = 0 /\ 4 < n
      \/ e = ValueError NotEnoughValues /\ n mod 4 <> 0 /\ (width <> 0 \/ n < 4)
  end.
Proof. apply array_content_cases. Qed.

Definition two_pixels_text : list N :=
  Eval vm_compute in
    match array_content two_pixels 1 with
    | Ok t => t
    | Raise _ => []
    end.

(** X8: the array text is the pixels row by row: every row but the last
    holds [|width|] pixels, the last one between one and [|width|]; each
    row is rendered as a line and the lines are joined by newlines. *)
Theorem X8_array_content_rows pixels width t :
  width <> 0 ->
  array_content pixels width = Ok t ->
  exists rows,
    t = join newline (map format_line rows)
    /\ concat rows = pixel_texts pixels
    /\ (rows = [] /\ pixels = []
        \/ exists full last,
             rows = full ++ [last]
             /\ Forall (fun row => length row = Z.to_nat (Z.abs width)) full
             /\ (0 < length last <= Z.to_nat (Z.abs width))%nat).
Proof. intros Hw Ht. apply (array_content_in_rows pixels width Hw t Ht). Qed.

Lemma X8_array_content_rows_witness :
  exists rows,
    two_pixels_text = join newline (map format_line rows)
    /\ concat rows = pixel_texts two_pixels
    /\ (rows = [] /\ two_pixels = []
        \/ exists full last,
             rows = full ++ [last]
             /\ Forall (fun row => length row = Z.to_nat (Z.abs 1)) full
             /\ (0 < length last <= Z.to_nat (Z.abs 1))%nat).
Proof.
  apply (X8_array_content_rows two_pixels 1 two_pixels_text).
  - lia.
  - vm_compute. reflexivity.
Defined.

(** X9: the array text consists of lowercase hexadecimal digits, [x],
    commas, spaces and newlines (and the minus sign of a negative value):
    no uppercase digit, no brace, no backslash. *)
Theorem X9_array_content_characters pixels width t :
  array_content pixels width = Ok t ->
  Forall (fun c => array_char c = true) t.
Proof. apply array_content_array_text. Qed.

Lemma X9_array_content_characters_witness :
  Forall (fun c => array_char c = true) two_pixels_text.
Proof.
  apply (X9_array_content_characters two_pixels 1 two_pixels_text).
  vm_compute. reflexivity.
Defined.

End SerializerProperties.

Section TransformerProperties.
Import PyFloat.

(** X10: on well-formed input the transformer returns a list of the same
    length in which every value is between 0 and the value at the same
    place of the input: it only darkens and fades, and bytes stay
    bytes. *)
Theorem X10_apply_modifications_never_brightens (h : gmap positive (list Z)) pixels
    width height radius max_shadow l :
  h !! pixels = Some l ->
  Z.of_nat (length l) = width * height * 4 ->
  well_formed l radius max_shadow = true ->
  exists out h' l',
    apply_modifications pixels width height radius max_shadow h = (Ok out, h')
    /\ h' !! out = Some l'
    /\ length l' = length l
    /\ forall (i : nat) v v', l !! i = Some v -> l' !! i = Some v' -> 0 <= v' <= v.
Proof. apply apply_modifications_bounded. Qed.

Lemma X10_apply_modifications_never_brightens_witness :
  exists out h' l',
    apply_modifications 1%positive 4 4 one half store_4x4 = (Ok out, h')
    /\ h' !! out = Some l'
    /\ length l' = length white_4x4
    /\ forall (i : nat) v v',
         white_4x4 !! i = Some v -> l' !! i = Some v' -> 0 <= v' <= v.
Proof.
  apply (X10_apply_modifications_never_brightens store_4x4 1%positive 4 4 one half
           white_4x4).
  - reflexivity.
  - reflexivity.
  - reflexivity.
Defined.

(** X11: a pixel outside the corner masks (corner distance neither >= 1.0
    nor > 0) whose row gets no darkening (shadow factor not < 1.0) keeps
    its four channels. *)
Theorem X11_apply_modifications_keeps_interior (h : gmap positive (list Z)) pixels
    width height radius max_shadow l y x d sf p :
  h !! pixels = Some l ->
  Z.of_nat (length l) = width * height * 4 ->
  0 <= x < width -> 0 <= y < height ->
  distance_to_corner x y width height radius = Ok d ->
  geb d one = false -> int_ltb 0 d = false ->
  get_shadow_factor y height max_shadow = Ok sf -> ltb sf one = false ->
  get_pixel (pixel_index width y x) l = Some p ->
  (well_formed l radius max_shadow = true ->
   exists out h',
     apply_modifications pixels width height radius max_shadow h = (Ok out, h'))
  /\ (forall out h',
        apply_modifications pixels width height radius max_shadow h = (Ok out, h') ->
        exists l', h' !! out = Some l' /\ get_pixel (pixel_index width y x) l' = Some p).
Proof.
  intros Hl Hlen Hx Hy Hd Hge Hpos Hsf Hlt Hp. split.
  - intros Hwf.
    destruct (apply_modifications_total h pixels width height radius max_shadow l
                Hl Hlen Hwf) as (l' & _ & H).
    eauto.
  - intros out h' Happ.
    apply (apply_modifications_interior h pixels width height radius max_shadow l
             y x d sf p out h'); assumption.
Qed.

Lemma X11_apply_modifications_keeps_interior_witness :
  (well_formed white_8x8 two half = true ->
   exists out h',
     apply_modifications 1%positive 8 8 two half store_8x8 = (Ok out, h'))
  /\ (forall out h',
        apply_modifications 1%positive 8 8 two half store_8x8 = (Ok out, h') ->
        exists l',
          h' !! out = Some l'
          /\ get_pixel (pixel_index 8 2 4) l' = Some (255, 255, 255, 255)).
Proof.
  apply (X11_apply_modifications_keeps_interior store_8x8 1%positive 8 8 two half
           white_8x8 2 4 zero one (255, 255, 255, 255)).
  - reflexivity.
  - reflexivity.
  - lia.
  - lia.
  - vm_compute. reflexivity.
  - reflexivity.
  - reflexivity.
  - vm_compute. reflexivity.
  - reflexivity.
  - reflexivity.
Defined.

(** The shadow factor of row 6 of an 8-row image for the strength 0.5. *)
Definition shadow_row_6 : float := S754_finite false 7505999378950827 (-53).

(** X12: for a shadow strength in [0, 1] and a height below 2^1023, a
    pixel outside the corner masks in a darkened row (shadow factor
    sf < 1.0) with byte colours: each colour channel c becomes
    [int(c * sf)], the binary64 product (within 2^-43 of the real number
    c * sf) truncated toward zero, which lies between 0 and c; alpha is
    kept. *)
Theorem X12_apply_modifications_darkens (h : gmap positive (list Z)) pixels
    width height radius max_shadow l y x d sf b g r a :
  h !! pixels = Some l ->
  Z.of_nat (length l) = width * height * 4 ->
  0 <= x < width -> 0 <= y < height -> height < 2 ^ 1023 ->
  valid max_shadow -> unit_interval max_shadow = true ->
  distance_to_corner x y width height radius = Ok d ->
  geb d one = false -> int_ltb 0 d = false ->
  get_shadow_factor y height max_shadow = Ok sf -> ltb sf one = true ->
  get_pixel (pixel_index width y x) l = Some (b, g, r, a) ->
  is_byte b = true -> is_byte g = true -> is_byte r = true ->
  (well_formed l radius max_shadow = true ->
   exists out h',
     apply_modifications pixels width height radius max_shadow h = (Ok out, h'))
  /\ (forall out h',
        apply_modifications pixels width height radius max_shadow h = (Ok out, h') ->
        exists l' nb ng nr,
          h' !! out = Some l'
          /\ scale b sf = Ok nb /\ scale g sf = Ok ng /\ scale r sf = Ok nr
          /\ get_pixel (pixel_index width y x) l' = Some (nb, ng, nr, a)
          /\ 0 <= nb <= b /\ 0 <= ng <= g /\ 0 <= nr <= r
          /\ int_of_product b sf nb /\ int_of_product g sf ng
          /\ int_of_product r sf nr).
Proof.
  intros Hl Hlen Hx Hy Hh Vs Us Hd Hge Hpos Hsf Hlt Hp Bb Bg Br. split.
  - intros Hwf.
    destruct (apply_modifications_total h pixels width height radius max_shadow l
                Hl Hlen Hwf) as (l' & _ & H).
    eauto.
  - intros out h' Happ.
    apply (apply_modifications_shadow h pixels width height radius max_shadow l
             y x d sf b g r a out h'); assumption.
Qed.

Lemma X12_apply_modifications_darkens_witness :
  (well_formed white_8x8 two half = true ->
   exists out h',
     apply_modifications 1%positive 8 8 two half store_8x8 = (Ok out, h'))
  /\ (forall out h',
        apply_modifications 1%positive 8 8 two half store_8x8 = (Ok out, h') ->
        exists l' nb ng nr,
          h' !! out = Some l'
          /\ scale 255 shadow_row_6 = Ok nb /\ scale 255 shadow_row_6 = Ok ng
          /\ scale 255 shadow_row_6 = Ok nr
          /\ get_pixel (pixel_index 8 6 4) l' = Some (nb, ng, nr, 255)
          /\ 0 <= nb <= 255 /\ 0 <= ng <= 255 /\ 0 <= nr <= 255
          /\ int_of_product 255 shadow_row_6 nb /\ int_of_product 255 shadow_row_6 ng
          /\ int_of_product 255 shadow_row_6 nr).
Proof.
  apply (X12_apply_modifications_darkens store_8x8 1%positive 8 8 two half
           white_8x8 6 4 zero shadow_row_6 255 255 255 255).
  - reflexivity.
  - reflexivity.
  - lia.
  - lia.
  - lia.
  - reflexivity.
  - reflexivity.
  - vm_compute. reflexivity.
  - reflexivity.
  - reflexivity.
  - vm_compute. reflexivity.
  - reflexivity.
  - reflexivity.
  - reflexivity.
  - reflexivity.
  - reflexivity.
Defined.

Definition sixteen_values : list Z := repeat 7 16.
Definition store_sixteen : gmap positive (list Z) := {[ 1%positive := sixteen_values ]}.

(** X13: with a width or a height that is not positive no pixel is
    visited: when the length check passes (two negative dimensions, or an
    empty list), the result is an unchanged copy of the input. *)
Theorem X13_apply_modifications_no_pixels (h : gmap positive (list Z)) pixels
    width height radius max_shadow l :
  h !! pixels = Some l ->
  Z.of_nat (length l) = width * height * 4 ->
  width <= 0 \/ height <= 0 ->
  apply_modifications pixels width height radius max_shadow h
  = (Ok (fresh (dom h)), <[fresh (dom h) := l]> h).
Proof.
  intros Hl Hlen Hdim.
  pose proof (apply_modifications_spec h pixels width height radius max_shadow l Hl) as H.
  cbv zeta in H. apply Z.eqb_eq in Hlen. rewrite Hlen in H.
  assert (Ht : transform width height radius max_shadow l = Ok l).
  { destruct Hdim; [apply transform_no_columns|apply transform_no_rows]; assumption. }
  rewrite Ht in H. apply H.
Qed.

Lemma X13_apply_modifications_no_pixels_witness :
  apply_modifications 1%positive (-2) (-2) two half store_sixteen
  = (Ok (fresh (dom store_sixteen)),
     <[fresh (dom store_sixteen) := sixteen_values]> store_sixteen).
Proof.
  apply (X13_apply_modifications_no_pixels store_sixteen 1%positive (-2) (-2) two half
           sixteen_values).
  - reflexivity.
  - reflexivity.
  - left. lia.
Defined.

(** X20: the pixels are transformed independently of each other: the four
    channels of pixel (x, y) of the returned list are what the loop body
    computes from the coordinates and the four input channels of that
    same pixel, whatever the other pixels hold. *)
Theorem X20_apply_modifications_pixelwise (h : gmap positive (list Z)) pixels
    width height radius max_shadow l y x :
  h !! pixels = Some l ->
  Z.of_nat (length l) = width * height * 4 ->
  0 <= x < width -> 0 <= y < height ->
  (well_formed l radius max_shadow = true ->
   exists out h',
     apply_modifications pixels width height radius max_shadow h = (Ok out, h'))
  /\ (forall out h',
        apply_modifications pixels width height radius max_shadow h = (Ok out, h') ->
        exists l' p p',
          h' !! out = Some l'
          /\ get_pixel (pixel_index width y x) l = Some p
          /\ new_pixel width height radius max_shadow y x p = Ok p'
          /\ get_pixel (pixel_index width y x) l' = Some p').
Proof.
  intros Hl Hlen Hx Hy. split.
  - intros Hwf.
    destruct (apply_modifications_total h pixels width height radius max_shadow l
                Hl Hlen Hwf) as (l' & _ & H).
    eauto.
  - intros out h' Happ.
    apply (transformed_pixel h pixels width height radius max_shadow l out h' y x);
      assumption.
Qed.

Lemma X20_apply_modifications_pixelwise_witness :
  (well_formed white_8x8 two half = true ->
   exists out h',
     apply_modifications 1%positive 8 8 two half store_8x8 = (Ok out, h'))
  /\ (forall out h',
        apply_modifications 1%positive 8 8 two half store_8x8 = (Ok out, h') ->
        exists l' p p',
          h' !! out = Some l'
          /\ get_pixel (pixel_index 8 6 4) white_8x8 = Some p
          /\ new_pixel 8 8 two half 6 4 p = Ok p'
          /\ get_pixel (pixel_index 8 6 4) l' = Some p').
Proof.
  apply (X20_apply_modifications_pixelwise store_8x8 1%positive 8 8 two half
           white_8x8 6 4).
  - reflexivity.
  - reflexivity.
  - lia.
  - lia.
Defined.

End TransformerProperties.

Section GeometryProperties.
Import PyFloat.

(** X14: the shadow factor raises [ZeroDivisionError] exactly for the
    height 0 on a row y >= 0: for every other height the threshold
    [int(height * 0.7)] differs from the height. *)
Theorem X14_get_shadow_factor_zero_division y height max_darkening :
  get_shadow_factor y height max_darkening = Raise ZeroDivisionError
  <-> height = 0 /\ 0 <= y.
Proof.
  split.
  - intros H. unfold get_shadow_factor in H.
    destruct (Z.lt_trichotomy height 0) as [Hneg|[->|Hpos]].
    + exfalso. pose proof (shadow_start_negative height ltac:(lia)) as Hs.
      destruct (shadow_start height) as [s|e]; cbn [res_bind] in H.
      * destruct (y <? s); [discriminate|].
        pose proof (int_truediv_not_zero_division (y - s) (height - s) ltac:(lia)) as Hd.
        destruct (int_truediv (y - s) (height - s)); cbn [res_bind] in H; congruence.
      * congruence.
    + split; [reflexivity|]. change (shadow_start 0) with (Ok 0 : res Z) in H.
      cbn [res_bind] in H. destruct (Z.ltb_spec y 0); [discriminate|lia].
    + exfalso. pose proof (shadow_start_spec height ltac:(lia)) as Hs.
      destruct (shadow_start height) as [s|e]; cbn [res_bind] in H.
      * destruct (y <? s); [discriminate|].
        pose proof (int_truediv_not_zero_division (y - s) (height - s) ltac:(lia)) as Hd.
        destruct (int_truediv (y - s) (height - s)); cbn [res_bind] in H; congruence.
      * destruct Hs as [-> _]. discriminate.
  - intros [-> Hy]. unfold get_shadow_factor.
    change (shadow_start 0) with (Ok 0 : res Z). cbn [res_bind].
    destruct (Z.ltb_spec y 0); [lia|]. reflexivity.
Qed.

(** X15: for coordinates and dimensions up to 2^63 in magnitude and a
    finite radius below 2^500 the corner distance is computed without
    error: the square root never gets a negative number and nothing
    overflows. *)
Theorem X15_distance_to_corner_returns x y width height radius :
  - 2 ^ 63 <= x <= 2 ^ 63 -> - 2 ^ 63 <= y <= 2 ^ 63 ->
  - 2 ^ 63 <= width <= 2 ^ 63 -> - 2 ^ 63 <= height <= 2 ^ 63 ->
  valid radius -> magnitude_below 500 radius = true ->
  exists d, distance_to_corner x y width height radius = Ok d /\ valid d.
Proof. apply distance_to_corner_total. Qed.

Lemma X15_distance_to_corner_returns_witness :
  exists d, distance_to_corner 1 1 8 8 two = Ok d /\ valid d.
Proof.
  apply (X15_distance_to_corner_returns 1 1 8 8 two).
  - lia.
  - lia.
  - lia.
  - lia.
  - reflexivity.
  - reflexivity.
Defined.

(** X16: for a positive height (below 2^1023), a row of the image and a
    strength in [0, 1] the shadow factor is computed without error and
    is a finite number that is, up to rounding, between 0 and 1. *)
Theorem X16_get_shadow_factor_returns y height max_darkening :
  1 <= height < 2 ^ 1023 -> 0 <= y < height ->
  valid max_darkening -> unit_interval max_darkening = true ->
  exists sf,
    get_shadow_factor y height max_darkening = Ok sf
    /\ is_finite sf = true /\ (- / 1000 <= B2R sf <= 1 + / 1000)%R.
Proof.
  intros Hh Hy V U.
  destruct (get_shadow_factor_total y height _ Hh Hy V U) as (sf & Hsf & _).
  destruct (shadow_factor_bounds y height _ sf Hh Hy V U Hsf) as (_ & F & B).
  eauto.
Qed.

Lemma X16_get_shadow_factor_returns_witness :
  exists sf,
    get_shadow_factor 6 8 half = Ok sf
    /\ is_finite sf = true /\ (- / 1000 <= B2R sf <= 1 + / 1000)%R.
Proof.
  apply (X16_get_shadow_factor_returns 6 8 half).
  - lia.
  - lia.
  - reflexivity.
  - reflexivity.
Defined.

End GeometryProperties.

Section ProgramProperties.
Import PyFloat.

Definition one_pixel_file : list N :=
  text "static const uint8_t icon_map[] = { 0xff, 0x80, 0x40, 0xff };".
Definition one_pixel : list Z := [255; 128; 64; 255].
Definition store_one_pixel : gmap positive (list Z) := {[ 1%positive := one_pixel ]}.

(** X17: extraction, transformation and serialization in a row: on a text
    whose leftmost declaration holds width * height * 4 values, with a
    radius and a shadow strength in range, the transformer and the
    serializer return, and the text written reads back as the transformed
    values under the same name. *)
Theorem X17_pipeline_reads_back (h : gmap positive (list Z)) loc content pixels text0
    name width height radius max_shadow :
  parse_c_file content = Ok (pixels, text0, name) ->
  h !! loc = Some pixels ->
  Z.of_nat (length pixels) = width * height * 4 ->
  well_formed pixels radius max_shadow = true ->
  exists out h' modified new_content,
    apply_modifications loc width height radius max_shadow h = (Ok out, h')
    /\ h' !! out = Some modified
    /\ format_output modified text0 width = Ok new_content
    /\ parse_c_file new_content = Ok (modified, new_content, name).
Proof. apply pipeline_read_back. Qed.

Lemma X17_pipeline_reads_back_witness :
  exists out h' modified new_content,
    apply_modifications 1%positive 1 1 two half store_one_pixel = (Ok out, h')
    /\ h' !! out = Some modified
    /\ format_output modified one_pixel_file 1 = Ok new_content
    /\ parse_c_file new_content = Ok (modified, new_content, text "icon_map").
Proof.
  apply (X17_pipeline_reads_back store_one_pixel 1%positive one_pixel_file one_pixel
           one_pixel_file (text "icon_map") 1 1 two half).
  - vm_compute. reflexivity.
  - reflexivity.
  - reflexivity.
  - reflexivity.
Defined.

(** A file system for examples: the files written, the last one first. *)
Definition disk := list (list N * list N).
Definition disk_read (path : list N) (d : disk) : option (list N) :=
  snd <$> find (fun f => bool_decide (fst f = path)) d.
Definition disk_exists (path : list N) (d : disk) : bool :=
  bool_decide (is_Some (disk_read path d)).
Definition disk_write (path content : list N) (d : disk) : disk * bool :=
  ((path, content) :: d, true).

Definition icon_disk : disk := [(text "icon.c", one_pixel_file)].
Definition icon_arguments (width height : Z) : arguments :=
  Arguments (text "icon.c") None width height two half true.

(** X18: when the text of the input file has no declaration, or the
    number of values of its leftmost declaration is not
    width * height * 4, the program prints the [ValueError], ends with
    status 1 and leaves the file system as it was: no output and no
    backup is written. *)
Theorem X18_main_rejects (world : Type) (path_exists : list N -> world -> bool)
    (read_text : list N -> world -> option (list N))
    (write_text : list N -> list N -> world -> world * bool) a w content :
  path_exists (input_file a) w = true ->
  read_text (input_file a) w = Some content ->
  (forall s1 s2, content = s1 ++ s2 -> ~ declared_at s2)
  \/ (exists pixels text0 name,
        parse_c_file content = Ok (pixels, text0, name)
        /\ Z.of_nat (length pixels) <> width a * height a * 4) ->
  exists log e,
    main world path_exists read_text write_text a w
    = (1, log ++ [Failed (Python (ValueError e))], w).
Proof. apply main_rejects. Qed.

Lemma X18_main_rejects_witness :
  exists log e,
    main disk disk_exists disk_read disk_write (icon_arguments 2 2) icon_disk
    = (1, log ++ [Failed (Python (ValueError e))], icon_disk).
Proof.
  apply (X18_main_rejects disk disk_exists disk_read disk_write (icon_arguments 2 2)
           icon_disk one_pixel_file).
  - reflexivity.
  - reflexivity.
  - right. exists one_pixel, one_pixel_file, (text "icon_map").
    split; [vm_compute; reflexivity|vm_compute; discriminate].
Defined.

(** X19: on a text whose leftmost declaration holds width * height * 4
    values, with a radius and a shadow strength in range: the program
    transforms the values read ([apply_modifications]) and serializes the
    result into the text read ([format_output]); the backup, when asked
    for and the output replaces the input, is written first and holds the
    text read; then the output file is written with the new text; the
    lines printed are those of the statements passed; the status is 0
    exactly when the writes went through; and the new text reads back as
    the transformed values under the same name. *)
Theorem X19_main_transforms (world : Type) (path_exists : list N -> world -> bool)
    (read_text : list N -> world -> option (list N))
    (write_text : list N -> list N -> world -> world * bool)
    a w content pixels text0 name :
  path_exists (input_file a) w = true ->
  read_text (input_file a) w = Some content ->
  parse_c_file content = Ok (pixels, text0, name) ->
  Z.of_nat (length pixels) = width a * height a * 4 ->
  well_formed pixels (radius a) (shadow a) = true ->
  exists out h' modified new_content,
    apply_modifications 1%positive (width a) (height a) (radius a) (shadow a)
      {[ 1%positive := pixels ]} = (Ok out, h')
    /\ h' !! out = Some modified
    /\ length modified = length pixels
    /\ format_output modified content (width a) = Ok new_content
    /\ parse_c_file new_content = Ok (modified, new_content, name)
    /\ main world path_exists read_text write_text a w
       = let n := Z.of_nat (length pixels) in
         let log :=
           [Processing (input_file a); FoundArray name; ReadBytes n (n / 4);
            Applied] in
         let bak_file := input_file a ++ text ".bak" in
         if backup a && bool_decide (output_file a = input_file a) then
           let '(w1, ok) := write_text bak_file content w in
           if (ok : bool) then
             let '(w2, ok) := write_text (output_file a) new_content w1 in
             if (ok : bool)
             then (0, log ++ [BackupCreated bak_file; Written (output_file a)], w2)
             else (1, log ++ [BackupCreated bak_file; Failed FileError], w2)
           else (1, log ++ [Failed FileError], w1)
         else
           let '(w2, ok) := write_text (output_file a) new_content w in
           if (ok : bool) then (0, log ++ [Written (output_file a)], w2)
           else (1, log ++ [Failed FileError], w2).
Proof. apply main_transforms. Qed.

Lemma X19_main_transforms_witness :
  exists out h' modified new_content,
    apply_modifications 1%positive 1 1 two half {[ 1%positive := one_pixel ]}
    = (Ok out, h')
    /\ h' !! out = Some modified
    /\ length modified = length one_pixel
    /\ format_output modified one_pixel_file 1 = Ok new_content
    /\ parse_c_file new_content = Ok (modified, new_content, text "icon_map")
    /\ main disk disk_exists disk_read disk_write (icon_arguments 1 1) icon_disk
       = (0,
          [Processing (text "icon.c"); FoundArray (text "icon_map"); ReadBytes 4 1;
           Applied; BackupCreated (text "icon.c.bak"); Written (text "icon.c")],
          [(text "icon.c", new_content); (text "icon.c.bak", one_pixel_file);
           (text "icon.c", one_pixel_file)]).
Proof.
  apply (X19_main_transforms disk disk_exists disk_read disk_write (icon_arguments 1 1)
           icon_disk one_pixel_file one_pixel one_pixel_file (text "icon_map")).
  - reflexivity.
  - reflexivity.
  - vm_compute. reflexivity.
  - reflexivity.
  - reflexivity.
Defined.

End ProgramProperties.
